(** * wgsl-linker: source maps, source lines, lexer frames, module parsing
      and reference traversal, embedded from the TypeScript sources.

    Conventions of the embedding.
    - JavaScript numbers that hold character positions and array indexes are
      integers; they are modelled as [Z].
    - A JavaScript string is a sequence of code units; each character of a
      [string] stands for one code unit.
    - A JavaScript [throw] is modelled by the [Throw] constructor of [result].
    - Calls to the log sink and to user callbacks are modelled as events
      appended to a trace, in the order the code performs them. *)

From stdpp Require Import gmap strings list.
From Stdlib Require Import ZArith Lia Ascii.

Open Scope string_scope.
Open Scope list_scope.
Open Scope stdpp_scope.
Open Scope Z_scope.

(** ** Exceptions *)

(** The [Error] values thrown by SrcMap.ts. *)
Inductive Error : Type :=
| NoSrcMapEntryForDest (destPos : Z)   (* `no SrcMapEntry for dest position: ${destPos}` *)
| NYI_need_to_split.                   (* "NYI, need to split" *)

Inductive result (A : Type) : Type :=
| Ok (a : A)
| Throw (err : Error).
Arguments Ok {A} a.
Arguments Throw {A} err.

Definition rbind {A B : Type} (r : result A) (k : A -> result B) : result B :=
  match r with
  | Ok a => k a
  | Throw err => Throw err
  end.

#[global] Instance result_bind : MBind result := fun A B k r => rbind r k.
#[global] Instance result_ret : MRet result := @Ok.

(** [arr.map(f)] for an [f] that may throw: the first exception aborts the map. *)
Fixpoint mapR {A B : Type} (f : A -> result B) (l : list A) : result (list B) :=
  match l with
  | [] => Ok []
  | a :: l' => b ← f a; bs ← mapR f l'; Ok (b :: bs)
  end.

(** ** SrcMap.ts *)

Module SrcMapTs.

Record SrcMapEntry : Type := mkEntry {
  src : string;
  srcStart : Z;
  srcEnd : Z;
  destStart : Z;
  destEnd : Z
}.

Record SrcPosition : Type := mkPos {
  pos_src : string;
  position : Z
}.

Record SrcMap : Type := mkSrcMap {
  entries : list SrcMapEntry;
  dest : string
}.

(** The predicate of [entries.find] in [destToSrc]:
    [e.destStart <= destPos && e.destEnd >= destPos]. *)
Definition covers (destPos : Z) (e : SrcMapEntry) : bool :=
  (destStart e <=? destPos) && (destEnd e >=? destPos).

Definition destToSrc (destPos : Z) (es : list SrcMapEntry) : result SrcPosition :=
  match List.find (covers destPos) es with
  | None => Throw (NoSrcMapEntryForDest destPos)
  | Some entry =>
      Ok {| pos_src := src entry;
            position := srcStart entry + destPos - destStart entry |}
  end.

Definition mapPositions (m : SrcMap) (positions : list Z) : result (list SrcPosition) :=
  mapR (fun p => destToSrc p (entries m)) positions.

(** The loop of [compact]: [prev] is the entry most recently pushed on
    [newEntries]; the loop widens it in place or pushes the next entry.  The
    list returned is [newEntries] as the writes to [prev] leave it. *)
Fixpoint compact_loop (prev : SrcMapEntry) (rest : list SrcMapEntry) : list SrcMapEntry :=
  match rest with
  | [] => [prev]
  | e :: rest' =>
      if String.eqb (src e) (src prev)
         && (destEnd prev =? destStart e)
         && (srcEnd prev =? srcStart e)
      then compact_loop
             {| src := src prev; srcStart := srcStart prev; srcEnd := srcEnd e;
                destStart := destStart prev; destEnd := destEnd e |} rest'
      else prev :: compact_loop e rest'
  end.

Definition compact (m : SrcMap) : SrcMap :=
  match entries m with
  | [] => m
  | e0 :: rest => {| entries := compact_loop e0 rest; dest := dest m |}
  end.

(** [Array.prototype.sort] with comparator [a.key - b.key]: a stable sort
    by ascending key (insertion keeps entries of equal key in their order). *)
Fixpoint insert_by (key : SrcMapEntry -> Z) (x : SrcMapEntry) (l : list SrcMapEntry)
  : list SrcMapEntry :=
  match l with
  | [] => [x]
  | y :: l' => if key x <=? key y then x :: y :: l' else y :: insert_by key x l'
  end.

Fixpoint sort_by (key : SrcMapEntry -> Z) (l : list SrcMapEntry) : list SrcMapEntry :=
  match l with
  | [] => []
  | x :: l' => insert_by key x (sort_by key l')
  end.

(** [SrcMap.sort]: destination order. *)
Definition sort (m : SrcMap) : SrcMap :=
  {| entries := sort_by destStart (entries m); dest := dest m |}.

Definition sortSrc (es : list SrcMapEntry) : list SrcMapEntry := sort_by srcStart es.

(** The callback of [mappedEntries.map] in [merge]. *)
Definition reproject (thisEntries : list SrcMapEntry) (e : SrcMapEntry)
  : result SrcMapEntry :=
  a ← destToSrc (srcStart e) thisEntries;
  b ← destToSrc (srcEnd e) thisEntries;
  if negb (String.eqb (pos_src b) (pos_src a)) then Throw NYI_need_to_split
  else Ok {| src := pos_src a; srcStart := position a; srcEnd := position b;
             destStart := destStart e; destEnd := destEnd e |}.

(** [this.merge(other)].  [sameObject] is the outcome of the identity test
    [other === this], which a value cannot show.  The first component is
    what the method writes with [console.log]. *)
Definition merge (this other : SrcMap) (sameObject : bool)
  : list string * result SrcMap :=
  if sameObject then ([], Ok this)
  else
    let mappedEntries :=
      List.filter (fun e => String.eqb (src e) (dest this)) (entries other) in
    match mappedEntries with
    | [] => (["other source map does not link to this one"], Ok other)
    | _ :: _ =>
        ([],
         newEntries ← mapR (reproject (entries this)) (sortSrc mappedEntries);
         let otherSources :=
           List.filter (fun e => negb (String.eqb (src e) (dest this))) (entries other) in
         Ok (sort {| entries := otherSources ++ newEntries; dest := dest other |}))
    end.

(** The entries of a list are in ascending order of [key]. *)
Fixpoint ascending (key : SrcMapEntry -> Z) (l : list SrcMapEntry) : Prop :=
  match l with
  | [] => True
  | x :: l' =>
      match l' with
      | [] => True
      | y :: _ => key x <= key y
      end /\ ascending key l'
  end.

(** An entry maps a range to a range of the same length, left to right. *)
Definition length_preserving (e : SrcMapEntry) : Prop :=
  destStart e <= destEnd e /\ srcEnd e - srcStart e = destEnd e - destStart e.

(** A replaced range (two source characters shown as five) followed by a
    copied range that continues it on both sides. *)
Definition replaced_then_copied : SrcMap :=
  {| entries := [ {| src := "s"; srcStart := 0; srcEnd := 2; destStart := 0; destEnd := 5 |};
                  {| src := "s"; srcStart := 2; srcEnd := 7; destStart := 5; destEnd := 10 |} ];
     dest := "d" |}.

Definition inner_two_ranges : SrcMap :=
  {| entries := [ {| src := "A"; srcStart := 0; srcEnd := 5; destStart := 0; destEnd := 5 |};
                  {| src := "A"; srcStart := 100; srcEnd := 105; destStart := 5; destEnd := 10 |} ];
     dest := "mid" |}.


Definition outer_one_range : SrcMap :=
  {| entries := [ {| src := "mid"; srcStart := 0; srcEnd := 10; destStart := 0; destEnd := 10 |} ];
     dest := "out" |}.

Definition inner_one_range : SrcMap :=
  {| entries := [ {| src := "A"; srcStart := 100; srcEnd := 110; destStart := 0; destEnd := 10 |} ];
     dest := "mid" |}.

Definition outer_two_ranges : SrcMap :=
  {| entries := [ {| src := "mid"; srcStart := 0; srcEnd := 3; destStart := 0; destEnd := 3 |};
                  {| src := "mid"; srcStart := 5; srcEnd := 8; destStart := 3; destEnd := 6 |} ];
     dest := "out" |}.

(** An outer range that starts on the position where the two ranges of
    [inner_two_ranges] meet. *)
Definition outer_from_boundary : SrcMap :=
  {| entries := [ {| src := "mid"; srcStart := 5; srcEnd := 10; destStart := 0; destEnd := 5 |} ];
     dest := "out" |}.

End SrcMapTs.

(** ** ParserLogging.ts *)

Module ParserLogging.

Definition newline : ascii := "010"%char.

Record SrcLine : Type := mkSrcLine {
  line : string;     (* src line w/o newline *)
  linePos : Z;       (* requested position relative to line start *)
  lineNum : Z        (* line number in the src (first line is #1) *)
}.

(** [arr[i]]: [None] stands for an index outside the array. *)
Definition arr_get (arr : list Z) (i : Z) : option Z :=
  if i <? 0 then None else arr !! Z.to_nat i.

(** [ToInt32], applied by [>>] to its left operand. *)
Definition toInt32 (x : Z) : Z := (x + 2 ^ 31) mod 2 ^ 32 - 2 ^ 31.

(** [String.prototype.slice(a, b)]: negative indexes count from the end,
    both are clamped to the string. *)
Definition clampIndex (len i : Z) : Z :=
  if i <? 0 then Z.max (len + i) 0 else Z.min i len.

Definition slice (s : string) (a b : Z) : string :=
  let len := Z.of_nat (String.length s) in
  let from := clampIndex len a in
  let to := clampIndex len b in
  String.substring (Z.to_nat from) (Z.to_nat (to - from)) s.

(** [s.slice(a)] *)
Definition slice_from (s : string) (a : Z) : string :=
  slice s a (Z.of_nat (String.length s)).

(** [[...src.matchAll(/\n/g)].map((m) => m.index! + 1)], for the part of the
    source that starts at index [i]. *)
Fixpoint newlineEnds (s : string) (i : Z) : list Z :=
  match s with
  | EmptyString => []
  | String c s' =>
      if Ascii.eqb c newline then (i + 1) :: newlineEnds s' (i + 1)
      else newlineEnds s' (i + 1)
  end.

(** What [getStarts] computes on a cache miss. *)
Definition lineStarts (src : string) : list Z := 0 :: newlineEnds src 0.

(** [getStarts], with the module-level [startCache] passed in and out. *)
Definition getStarts (src : string) (startCache : gmap string (list Z))
  : list Z * gmap string (list Z) :=
  match startCache !! src with
  | Some found => (found, startCache)
  | None =>
      let starts := lineStarts src in
      (starts, <[src := starts]> startCache)
  end.

(** The binary search loop of [srcLine].  Each iteration narrows
    [end - start], so [fuel] iterations suffice when [fuel >= end - start];
    [None] is a read outside [starts] or exhausted fuel. *)
Fixpoint search (fuel : nat) (starts : list Z) (pos start end_ : Z) : option Z :=
  if start + 1 <? end_ then
    match fuel with
    | O => None
    | S fuel' =>
        let mid := Z.shiftr (toInt32 (start + end_)) 1 in
        at_mid ← arr_get starts mid;
        if pos >=? at_mid then search fuel' starts pos mid end_
        else search fuel' starts pos start mid
    end
  else Some start.

Definition srcLine (src : string) (pos : Z) (startCache : gmap string (list Z))
  : option SrcLine * gmap string (list Z) :=
  let '(starts, startCache') := getStarts src startCache in
  (let end_ := Z.of_nat (length starts) - 1 in
   at_end ← arr_get starts end_;
   let start0 := if pos >=? at_end then end_ else 0 in
   start ← search (length starts) starts pos start0 end_;
   at_start ← arr_get starts start;
   let next :=
     match arr_get starts (start + 1) with
     | Some n => if n =? 0 then Z.of_nat (String.length src) else n
     | None => Z.of_nat (String.length src)
     end in
   let lineNl := slice src at_start next in
   let line :=
     if String.eqb (slice_from lineNl (-1)) (String newline EmptyString)
     then slice lineNl 0 (-1) else lineNl in
   Some {| line := line; linePos := pos - at_start; lineNum := start + 1 |},
   startCache').

(** The lines of a source text, following the words of the specification:
    the pieces between newline characters. *)
Fixpoint lines (s : string) : list string :=
  match s with
  | EmptyString => [EmptyString]
  | String c s' =>
      if Ascii.eqb c newline then EmptyString :: lines s'
      else match lines s' with
           | l :: ls => String c l :: ls
           | [] => [String c EmptyString]
           end
  end.

(** Character position at which line [k] (0-based) of [ls] starts when the
    first line starts at [i]: each earlier line takes its length plus one
    newline. *)
Fixpoint lineStartFrom (ls : list string) (i : Z) (k : nat) : Z :=
  match k, ls with
  | S k', l :: ls' => lineStartFrom ls' (i + Z.of_nat (String.length l) + 1) k'
  | _, _ => i
  end.

Definition lineStart (src : string) (k : nat) : Z := lineStartFrom (lines src) 0 k.

Abbreviation slen s := (Z.of_nat (String.length s)).

Definition nl : string := String newline EmptyString.

(** The start positions of the lines [ls] when the first starts at [i]. *)
Fixpoint startsOf (ls : list string) (i : Z) : list Z :=
  match ls with
  | [] => []
  | l :: ls' => i :: startsOf ls' (i + slen l + 1)
  end.

Fixpoint no_newline (s : string) : Prop :=
  match s with
  | EmptyString => True
  | String c s' => c <> newline /\ no_newline s'
  end.

(** Every array held by [startCache] is the one [getStarts] computed for
    its key.  The cache is private to the module and starts empty, so this
    holds whenever [srcLine] runs. *)
Definition cache_ok (startCache : gmap string (list Z)) : Prop :=
  forall s l, startCache !! s = Some l -> l = lineStarts s.

End ParserLogging.

(** ** MatchingLexer.ts *)

Module MatchingLexer.

Record Token : Type := mkToken {
  kind : string;
  text : string;
  span : Z * Z
}.

(** Matcher objects are shared and mutable (the same [TokenMatcher] may sit
    on the stack and be active at once), so they live in a store and the
    lexer holds references to them. *)
Definition MatcherRef : Type := nat.

Record MatcherState : Type := mkMatcherState {
  m_src : string;   (* the source the matcher was started on *)
  m_pos : Z         (* its cursor *)
}.

Definition MatcherStore : Type := MatcherRef -> MatcherState.

Definition store_set (ms : MatcherStore) (m : MatcherRef) (s : MatcherState)
  : MatcherStore :=
  fun m' => if Nat.eqb m' m then s else ms m'.

Record MatcherStackElem : Type := mkStackElem {
  elem_matcher : MatcherRef;
  elem_ignore : gset string
}.

(** The variables closed over by [matchingLexer], the matcher objects they
    point to, and what was written with [console.error]. *)
Record Lexer : Type := mkLexer {
  src : string;
  matcher : MatcherRef;
  ignore : gset string;
  matcherStack : list MatcherStackElem;
  matchers : MatcherStore;
  console : list string
}.

Definition set_matchers (lx : Lexer) (ms : MatcherStore) : Lexer :=
  {| src := src lx; matcher := matcher lx; ignore := ignore lx;
     matcherStack := matcherStack lx; matchers := ms; console := console lx |}.

(** Modelled from the spec: the [TokenMatcher] methods (TokenMatcher.ts is
    not part of the sources).  [start(src, pos)] binds the matcher to a source
    at a position; [position()] reads the cursor and [position(pos)] sets it. *)
Definition matcher_start (m : MatcherRef) (s : string) (pos : Z) (lx : Lexer) : Lexer :=
  set_matchers lx (store_set (matchers lx) m {| m_src := s; m_pos := pos |}).

Definition matcher_position (m : MatcherRef) (lx : Lexer) : Z :=
  m_pos (matchers lx m).

Definition matcher_set_position (m : MatcherRef) (pos : Z) (lx : Lexer) : Lexer :=
  set_matchers lx
    (store_set (matchers lx) m {| m_src := m_src (matchers lx m); m_pos := pos |}).

(** How a run of lexer code ends: it returns a value, it throws, or it is
    still running when the fuel given to its loops is used up. *)
Inductive Outcome (V : Type) : Type :=
| Returned (v : V) (lx : Lexer)
| Threw (lx : Lexer)
| Running.
Arguments Returned {V} v lx.
Arguments Threw {V} lx.
Arguments Running {V}.

(** The callbacks handed to [withMatcher] and [withIgnore]: code that uses
    the lexer through the five methods of its interface, may reposition any
    matcher object it holds, may catch what a part of it throws
    ([try { body } catch { handler }]), and returns a value or throws. *)
Inductive Code (T : Type) : Type :=
| Return (v : T)
| ThrowError
| CallNext (k : option Token -> Code T)
| CallPosition (pos : option Z) (k : Z -> Code T)
| CallEof (k : bool -> Code T)
| CallWithMatcher (newMatcher : MatcherRef) (fn : Code T) (k : T -> Code T)
| CallWithIgnore (newIgnore : gset string) (fn : Code T) (k : T -> Code T)
| SetMatcherPosition (m : MatcherRef) (pos : Z) (k : Code T)
| TryCatch (body handler : Code T) (k : T -> Code T).
Arguments Return {T} v.
Arguments ThrowError {T}.
Arguments CallNext {T} k.
Arguments CallPosition {T} pos k.
Arguments CallEof {T} k.
Arguments CallWithMatcher {T} newMatcher fn k.
Arguments CallWithIgnore {T} newIgnore fn k.
Arguments SetMatcherPosition {T} m pos k.
Arguments TryCatch {T} body handler k.

Section Lexer.

(** Modelled from the spec: [TokenMatcher.next] of the matcher [m] bound to
    a source at a position gives the next token and the position after it, or
    nothing at the end of the input. *)
Variable tokenNext : MatcherRef -> string -> Z -> option (Token * Z).

Definition matcher_next (m : MatcherRef) (lx : Lexer) : option Token * Lexer :=
  match tokenNext m (m_src (matchers lx m)) (m_pos (matchers lx m)) with
  | Some (tok, pos') => (Some tok, matcher_set_position m pos' lx)
  | None => (None, lx)
  end.

Definition eof (lx : Lexer) : bool :=
  matcher_position (matcher lx) lx =? Z.of_nat (String.length (src lx)).

(** The [while] loop of [next]; [None] when [fuel] iterations did not end it. *)
Fixpoint next_loop (fuel : nat) (token : option Token) (lx : Lexer)
  : option (option Token * Lexer) :=
  match token with
  | Some tok =>
      if bool_decide (kind tok ∈ ignore lx) then
        match fuel with
        | O => None
        | S fuel' =>
            if eof lx then Some (None, lx)
            else let '(token', lx') := matcher_next (matcher lx) lx in
                 next_loop fuel' token' lx'
        end
      else Some (token, lx)
  | None => Some (token, lx)
  end.

(** [next], with tracing off. *)
Definition next (fuel : nat) (lx : Lexer) : Outcome (option Token) :=
  if eof lx then Returned None lx
  else
    let '(token, lx') := matcher_next (matcher lx) lx in
    match next_loop fuel token lx' with
    | Some (token', lx'') => Returned token' lx''
    | None => Running
    end.

Definition pushMatcher (newMatcher : MatcherRef) (newIgnore : gset string) (lx : Lexer)
  : Lexer :=
  let position := matcher_position (matcher lx) lx in
  let lx1 := matcher_start newMatcher (src lx) position lx in
  {| src := src lx1;
     matcher := newMatcher;
     ignore := newIgnore;
     matcherStack := {| elem_matcher := matcher lx; elem_ignore := ignore lx |}
                       :: matcherStack lx;
     matchers := matchers lx1;
     console := console lx1 |}.

Definition popMatcher (lx : Lexer) : Lexer :=
  let position := matcher_position (matcher lx) lx in
  match matcherStack lx with
  | [] =>
      {| src := src lx; matcher := matcher lx; ignore := ignore lx;
         matcherStack := []; matchers := matchers lx;
         console := console lx ++ ["too many pops"] |}
  | elem :: rest =>
      matcher_set_position (elem_matcher elem) position
        {| src := src lx; matcher := elem_matcher elem; ignore := elem_ignore elem;
           matcherStack := rest; matchers := matchers lx; console := console lx |}
  end.

Definition position (pos : option Z) (lx : Lexer) : Z * Lexer :=
  let lx' :=
    match pos with
    | Some p => matcher_start (matcher lx) (src lx) p lx
    | None => lx
    end in
  (matcher_position (matcher lx') lx', lx').

(** [withMatcherIgnore]: there is no [try]/[finally] around [fn()], so an
    exception from [fn] leaves the function before [popMatcher]. *)
Definition withMatcherIgnore {T : Type} (tokenMatcher : MatcherRef)
    (ignore : gset string) (fn : Lexer -> Outcome T) (lx : Lexer) : Outcome T :=
  let lx1 := pushMatcher tokenMatcher ignore lx in
  match fn lx1 with
  | Returned result lx2 => Returned result (popMatcher lx2)
  | Threw lx2 => Threw lx2
  | Running => Running
  end.

Definition withMatcher {T : Type} (newMatcher : MatcherRef)
    (fn : Lexer -> Outcome T) (lx : Lexer) : Outcome T :=
  withMatcherIgnore newMatcher (ignore lx) fn lx.

Definition withIgnore {T : Type} (newIgnore : gset string)
    (fn : Lexer -> Outcome T) (lx : Lexer) : Outcome T :=
  withMatcherIgnore (matcher lx) newIgnore fn lx.

Definition andThen {A B : Type} (o : Outcome A) (k : A -> Lexer -> Outcome B) : Outcome B :=
  match o with
  | Returned v lx => k v lx
  | Threw lx => Threw lx
  | Running => Running
  end.

Fixpoint run {T : Type} (fuel : nat) (c : Code T) (lx : Lexer) : Outcome T :=
  match c with
  | Return v => Returned v lx
  | ThrowError => Threw lx
  | CallNext k => andThen (next fuel lx) (fun token => run fuel (k token))
  | CallPosition pos k =>
      let '(p, lx') := position pos lx in run fuel (k p) lx'
  | CallEof k => run fuel (k (eof lx)) lx
  | CallWithMatcher newMatcher fn k =>
      andThen (withMatcher newMatcher (run fuel fn) lx) (fun v => run fuel (k v))
  | CallWithIgnore newIgnore fn k =>
      andThen (withIgnore newIgnore (run fuel fn) lx) (fun v => run fuel (k v))
  | SetMatcherPosition m pos k => run fuel k (matcher_set_position m pos lx)
  | TryCatch body handler k =>
      match run fuel body lx with
      | Returned v lx1 => run fuel (k v) lx1
      | Threw lx1 => andThen (run fuel handler lx1) (fun v => run fuel (k v))
      | Running => Running
      end
  end.

End Lexer.

(** [matchingLexer(src, rootMatcher, ignore)] *)
Definition matchingLexer (src : string) (rootMatcher : MatcherRef)
    (ignore : gset string) (ms : MatcherStore) : Lexer :=
  matcher_start rootMatcher src 0
    {| src := src; matcher := rootMatcher; ignore := ignore;
       matcherStack := []; matchers := ms; console := [] |}.

(** The part of the lexer that [pushMatcher] and [popMatcher] save and
    restore: everything but the matcher objects and the console. *)
Definition same_frame (a b : Lexer) : Prop :=
  src a = src b /\ matcher a = matcher b /\ ignore a = ignore b /\
  matcherStack a = matcherStack b.

(** A matcher that finds no token, a store of matchers not started yet,
    and the lexer that [matchingLexer] builds over "fn foo" with matcher 0 at
    the root. *)
Definition noTokens : MatcherRef -> string -> Z -> option (Token * Z) :=
  fun _ _ _ => None.

Definition fresh_matchers : MatcherStore :=
  fun _ => {| m_src := EmptyString; m_pos := 0 |}.

Definition example_lexer : Lexer :=
  matchingLexer "fn foo" 0%nat {["ws"]} fresh_matchers.

(** A callback that moves the cursor to position 3 and returns it. *)
Definition move_to_3 : Code Z := CallPosition (Some 3) (fun p => Return p).

(** The matcher and ignore set in use, on top of the frames that
    [pushMatcher] saved: [pushMatcher] puts a frame on top of this list and
    [popMatcher] takes the top one off. *)
Definition frames (lx : Lexer) : list MatcherStackElem :=
  {| elem_matcher := matcher lx; elem_ignore := ignore lx |} :: matcherStack lx.

(** [grown a b]: lexer [b] is over the source of [a] and has the frames of
    [a] with zero or more frames on top. *)
Definition grown (a b : Lexer) : Prop :=
  src b = src a /\ exists extra, frames b = extra ++ frames a.

(** Code that has no [try]/[catch] in it. *)
Fixpoint catch_free {T : Type} (c : Code T) : Prop :=
  match c with
  | Return _ => True
  | ThrowError => True
  | CallNext k => forall token, catch_free (k token)
  | CallPosition _ k => forall p, catch_free (k p)
  | CallEof k => forall b, catch_free (k b)
  | CallWithMatcher _ fn k => catch_free fn /\ forall v, catch_free (k v)
  | CallWithIgnore _ fn k => catch_free fn /\ forall v, catch_free (k v)
  | SetMatcherPosition _ _ k => catch_free k
  | TryCatch _ _ _ => False
  end.

(** [() => { try { withMatcher(m2, () => { throw ... }) } catch {} return 7 }]:
    a callback that catches what a nested [withMatcher] throws. *)
Definition catches_nested_throw : Code Z :=
  TryCatch (CallWithMatcher 2%nat ThrowError (fun v => Return v)) (Return 0)
           (fun _ => Return 7).

(** [() => withMatcher(m2, () => { throw ... })]: a callback whose nested
    [withMatcher] throws. *)
Definition throws_nested : Code Z :=
  CallWithMatcher 2%nat ThrowError (fun v => Return v).

End MatchingLexer.

(** ** AbstractElems.ts, as ParseModule.ts and src/TraverseRefs.ts use it

    Fields that the embedded functions neither read nor write (the bodies
    of functions, struct members) are left out. *)

Module AbstractElems.

Record ImportElem : Type := mkImportElem {
  imp_name : string;
  imp_args : option (list string);
  imp_as : option string;
  imp_from : option string;
  imp_start : Z;
  imp_end : Z
}.

(** [ImportMergeElem] is [ImportElem] with kind "importMerge". *)
Definition ImportMergeElem : Type := ImportElem.

Record ExportElem : Type := mkExportElem {
  exp_name : option string;
  exp_args : option (list string);
  exp_importing : option (list ImportElem);
  exp_start : Z;
  exp_end : Z
}.

Record NamedElem : Type := mkNamedElem {
  name : string;
  start : Z;
  end_ : Z
}.

Record StructElem : Type := mkStructElem {
  struct_name : string;
  struct_start : Z;
  struct_end : Z;
  importMerges : option (list ImportMergeElem)
}.

Inductive AbstractElem : Type :=
| Import (e : ImportElem)
| ImportMerge (e : ImportMergeElem)
| Export (e : ExportElem)
| Fn (e : NamedElem)
| Struct (e : StructElem)
| Var (e : NamedElem)
| Template (e : NamedElem)
| Module_ (e : NamedElem).

Definition kind (e : AbstractElem) : string :=
  match e with
  | Import _ => "import"
  | ImportMerge _ => "importMerge"
  | Export _ => "export"
  | Fn _ => "fn"
  | Struct _ => "struct"
  | Var _ => "var"
  | Template _ => "template"
  | Module_ _ => "module"
  end.

End AbstractElems.

(** ** ParseModule.ts *)

Module ParseModule.
Import AbstractElems.

(** One call of [srcLog(srcMap, pos, msg)]. *)
Record SrcLog : Type := mkSrcLog {
  log_pos : Z;
  log_msg : string
}.

(** An export elem annotated with the fn or struct to which it refers. *)
Record TextExport : Type := mkTextExport {
  export_elem : ExportElem;
  ref : AbstractElem
}.

Record TextModule : Type := mkTextModule {
  template : option NamedElem;
  exports : list TextExport;
  fns : list NamedElem;
  vars : list NamedElem;
  structs : list StructElem;
  imports : list AbstractElem;
  mod_name : string;
  mod_src : string;
  preppedSrc : string;
  srcMap : SrcMapTs.SrcMap
}.

(** [findKind]: the elements of one kind, each with its index. *)
Definition findKind (parsed : list AbstractElem) (k : string) : list (AbstractElem * nat) :=
  List.concat
    (imap (fun i elem => if String.eqb (kind elem) k then [(elem, i)] else []) parsed).

(** The [do next = parsed[++i] while (...)] loops, run over the elements
    after index [i]: the first element whose kind is not skipped, with its
    index, or nothing at the end of the array. *)
Fixpoint scan (skip : string -> bool) (rest : list AbstractElem) (j : nat)
  : option (AbstractElem * nat) :=
  match rest with
  | [] => None
  | e :: rest' => if skip (kind e) then scan skip rest' (S j) else Some (e, j)
  end.

Definition nextAfter (skip : string -> bool) (parsed : list AbstractElem) (i : nat)
  : option (AbstractElem * nat) :=
  scan skip (drop (S i) parsed) (S i).

(** One round of the [forEach] in [matchMergeImports].  The struct is an
    object of the [parsed] array; the push is a write to that object. *)
Definition matchMergeImport (st : list AbstractElem * list SrcLog)
    (found : AbstractElem * nat) : list AbstractElem * list SrcLog :=
  let '(parsed, log) := st in
  match found with
  | (ImportMerge mergeElem, i) =>
      match nextAfter (fun k => String.eqb k "importMerge" || String.eqb k "export")
              parsed i with
      | Some (Struct next, j) =>
          let merges := default [] (importMerges next) in
          (<[j := Struct {| struct_name := struct_name next;
                            struct_start := struct_start next;
                            struct_end := struct_end next;
                            importMerges := Some (merges ++ [mergeElem]) |}]> parsed,
           log)
      | _ =>
          (parsed,
           log ++ [ {| log_pos := imp_start mergeElem;
                       log_msg := "#extends not followed by a struct" |} ])
      end
  | _ => st
  end.

(** [matchMergeImports]: fill in the importMerges field of structs. *)
Definition matchMergeImports (parsed : list AbstractElem) (log : list SrcLog)
  : list AbstractElem * list SrcLog :=
  fold_left matchMergeImport (findKind parsed "importMerge") (parsed, log).

(** One round of the [forEach] in [findExports]; the result refers to the
    exported element by its index in [parsed]. *)
Definition findExport (st : list (ExportElem * nat) * list SrcLog)
    (parsed : list AbstractElem) (found : AbstractElem * nat)
  : list (ExportElem * nat) * list SrcLog :=
  let '(results, log) := st in
  match found with
  | (Export elem, i) =>
      match nextAfter (fun k => String.eqb k "importMerge") parsed i with
      | Some (Fn _, j) | Some (Struct _, j) => (results ++ [(elem, j)], log)
      | _ =>
          (results,
           log ++ [ {| log_pos := exp_start elem;
                       log_msg := "#export what? (#export a fn or struct)" |} ])
      end
  | _ => st
  end.

Definition findExports (parsed : list AbstractElem) (log : list SrcLog)
  : list (ExportElem * nat) * list SrcLog :=
  fold_left (fun st found => findExport st parsed found) (findKind parsed "export") ([], log).

Definition filterFns (parsed : list AbstractElem) : list NamedElem :=
  List.concat (map (fun e => match e with Fn f => [f] | _ => [] end) parsed).
Definition filterStructs (parsed : list AbstractElem) : list StructElem :=
  List.concat (map (fun e => match e with Struct s => [s] | _ => [] end) parsed).
Definition filterVars (parsed : list AbstractElem) : list NamedElem :=
  List.concat (map (fun e => match e with Var v => [v] | _ => [] end) parsed).
Definition filterTemplates (parsed : list AbstractElem) : list NamedElem :=
  List.concat (map (fun e => match e with Template t => [t] | _ => [] end) parsed).
Definition filterModules (parsed : list AbstractElem) : list NamedElem :=
  List.concat (map (fun e => match e with Module_ m => [m] | _ => [] end) parsed).

(** Decimal digits of a number, for the names of unnamed modules. *)
Definition digit (n : nat) : string :=
  String (Ascii.ascii_of_nat (48 + n)) EmptyString.

Fixpoint decimal (fuel n : nat) : string :=
  match fuel with
  | O => digit (n mod 10)
  | S fuel' => if (n <? 10)%nat then digit n
               else decimal fuel' (n / 10) +:+ digit (n mod 10)
  end.

Section ParseModule.

(** [processConditionals] and [parseWgslD] are imported from files that are
    not part of the sources. *)
Variable Params : Type.
Variable processConditionals : string -> Params -> string * SrcMapTs.SrcMap.
Variable parseWgslD : string -> SrcMapTs.SrcMap -> list AbstractElem.

(** [parseModule].  [unnamedModuleDex] is the module-level counter, passed in
    and out.  The elements of [parsed] are objects shared with the lists the
    module holds, so those lists show the writes that [matchMergeImports]
    makes after they were filtered out of [parsed]: they are read here from
    the array as the two calls leave it. *)
Definition parseModule (src : string) (params : Params)
    (defaultModuleName : option string) (unnamedModuleDex : nat)
  : TextModule * list SrcLog * nat :=
  let '(preppedSrc, srcMap) := processConditionals src params in
  let parsed := parseWgslD preppedSrc srcMap in
  let '(exports, log1) := findExports parsed [] in
  let '(parsed1, log2) := matchMergeImports parsed log1 in
  let moduleName := head (filterModules parsed1) in
  let '(parsed2, log3) := matchMergeImports parsed1 log2 in
  let '(name, dex) :=
    match moduleName, defaultModuleName with
    | Some m, _ => (AbstractElems.name m, unnamedModuleDex)
    | None, Some d => (d, unnamedModuleDex)
    | None, None =>
        ("module" +:+ decimal unnamedModuleDex unnamedModuleDex, S unnamedModuleDex)
    end in
  ({| template := head (filterTemplates parsed2);
      exports :=
        List.concat
          (map (fun '(elem, j) =>
                  match parsed2 !! j with
                  | Some next => [ {| export_elem := elem; ref := next |} ]
                  | None => []
                  end) exports);
      fns := filterFns parsed2;
      vars := filterVars parsed2;
      structs := filterStructs parsed2;
      imports :=
        List.filter (fun e => String.eqb (kind e) "import"
                              || String.eqb (kind e) "importMerge") parsed2;
      mod_name := name;
      mod_src := src;
      preppedSrc := preppedSrc;
      srcMap := srcMap |},
   log3, dex).

End ParseModule.

(** The elements parsed from
    [#importMerge Foo from baz] followed by [struct S { x: u32 }], and from
    the same directive followed by [fn f() {}]. *)
Definition mergeFoo : ImportMergeElem :=
  {| imp_name := "Foo"; imp_args := None; imp_as := None; imp_from := Some "baz";
     imp_start := 0; imp_end := 24 |}.

Definition structS : StructElem :=
  {| struct_name := "S"; struct_start := 25; struct_end := 44; importMerges := None |}.

Definition merge_then_struct : list AbstractElem := [ImportMerge mergeFoo; Struct structS].

Definition merge_then_fn : list AbstractElem :=
  [ImportMerge mergeFoo; Fn {| name := "f"; start := 25; end_ := 34 |}].

Definition identityConditionals (src : string) (_ : unit) : string * SrcMapTs.SrcMap :=
  (src, {| SrcMapTs.entries := []; SrcMapTs.dest := src |}).

End ParseModule.

(** ** src/TraverseRefs.ts *)

Module TraverseRefsOld.
Import AbstractElems.

(** One call of [console.error(msg, imp, exp)]. *)
Record ConsoleError : Type := mkConsoleError {
  err_msg : string;
  err_imp : ImportElem;
  err_exp : ExportElem
}.

(** [matchImportExportArgs].  The second component of a pair is [impArgs[i]],
    which is [undefined] ([None]) when the import has no argument [i]. *)
Definition matchImportExportArgs (imp : ImportElem) (exp : ExportElem)
  : list (string * option string) * list ConsoleError :=
  let impArgs := default [] (imp_args imp) in
  let expArgs := default [] (exp_args exp) in
  (imap (fun i p => (p, impArgs !! i)) expArgs,
   if bool_decide (length expArgs ≠ length impArgs)
   then [ {| err_msg := "mismatched import and export params";
             err_imp := imp; err_exp := exp |} ]
   else []).

Definition import_of (nm : string) (args : list string) : ImportElem :=
  {| imp_name := nm; imp_args := Some args; imp_as := None; imp_from := Some "./file1";
     imp_start := 5; imp_end := 35 |}.

Definition export_of (args : list string) : ExportElem :=
  {| exp_name := None; exp_args := Some args; exp_importing := None;
     exp_start := 5; exp_end := 15 |}.

End TraverseRefsOld.

(** ** TraverseRefs.ts of the linker package, as TraverseRefs.test.ts tests it *)

Module TraverseRefsLinker.
Import AbstractElems.

(** What [moduleLog] prints of a text module: its name and its file. *)
Record ModuleId : Type := mkModuleId {
  id_name : string;
  id_fileName : option string
}.

(** One call of [moduleLog(mod, pos, ...msgs)] of LinkerLogging: a log at
    position [pos] of the source of [mod]. *)
Record ModuleLog : Type := mkModuleLog {
  log_mod : ModuleId;
  log_pos : Z;
  log_msgs : list string
}.

(** Modelled from the spec: [matchImportExportArgs] of the TraverseRefs.ts
    that TraverseRefs.test.ts tests, which is not part of the sources (the
    function of that name in src/TraverseRefs.ts is an earlier one, which
    knows no modules and cannot log at a site).  When the import and the
    export it resolves to declare different numbers of parameters, it logs
    at the import site and at the export site, and traversal proceeds with
    the shorter length: export parameters are paired with import arguments
    as far as both lists go.  The message is the one the test expects at the
    import site; at the export site the test expects the module line
    alone. *)
Definition matchImportExportArgs (impMod : ModuleId) (imp : ImportElem)
    (expMod : ModuleId) (exp : ExportElem)
  : list (string * string) * list ModuleLog :=
  let impArgs := default [] (imp_args imp) in
  let expArgs := default [] (exp_args exp) in
  (zip expArgs impArgs,
   if bool_decide (length expArgs ≠ length impArgs)
   then [ {| log_mod := impMod; log_pos := imp_start imp;
             log_msgs := ["mismatched import and export params"] |};
          {| log_mod := expMod; log_pos := exp_start exp; log_msgs := [] |} ]
   else []).

(** The modules and directives of the test "mismatched import export
    params": [#import foo(A, B) from ./file1] in main.wgsl and [#export(C)]
    in file1.wgsl, each at position 5 of its source. *)
Definition main_wgsl : ModuleId :=
  {| id_name := "_root/main.wgsl"; id_fileName := None |}.

Definition file1_wgsl : ModuleId :=
  {| id_name := "_root/file1.wgsl"; id_fileName := None |}.

Definition import_foo_A_B : ImportElem :=
  {| imp_name := "foo"; imp_args := Some ["A"; "B"]; imp_as := None;
     imp_from := Some "./file1"; imp_start := 5; imp_end := 35 |}.

Definition export_C : ExportElem :=
  {| exp_name := None; exp_args := Some ["C"]; exp_importing := None;
     exp_start := 5; exp_end := 15 |}.

End TraverseRefsLinker.

(** ** AbstractElems.ts and TraverseRefs.ts of the linker package *)

Module TraverseRefs.

(** Modelled from the spec: [ImportTree] (ImportTree.ts is not part of the
    sources) is a tree of segments, whose leaves are simple segments with a
    name, an optional [as] name and optional arguments, and whose interior
    nodes are segment lists with children. *)
#[warnings="-register-all"]
Inductive PathSegment : Type :=
| SimpleSegment (name : string) (asName : option string) (args : option (list string))
| SegmentList (children : list (list PathSegment)).

Definition ImportTree : Type := list PathSegment.

Fixpoint PathSegment_eq_dec (a b : PathSegment) {struct a} : {a = b} + {a <> b}.
Proof.
  decide equality; try (exact (decide _)).
  apply (List.list_eq_dec (List.list_eq_dec PathSegment_eq_dec)).
Defined.

#[global] Instance PathSegment_eqdec : EqDecision PathSegment := PathSegment_eq_dec.

Inductive RefKind : Type := call | typeRef.

(** [CallElem] and [TypeRefElem].  Their [ref] field is written during the
    traversal; the writes are events of the trace. *)
Record RefElem : Type := mkRefElem {
  ref_kind : RefKind;
  ref_name : string;
  ref_start : Z;
  ref_end : Z
}.

(** [FnNameElem], [TypeNameElem], [VarNameElem] *)
Record NameElem : Type := mkNameElem {
  ne_name : string;
  ne_start : Z;
  ne_end : Z
}.

Record FnElem : Type := mkFnElem {
  fn_name : string;
  fn_nameElem : NameElem;
  calls : list RefElem;
  fn_typeRefs : list RefElem;
  fn_start : Z;
  fn_end : Z
}.

Record StructMemberElem : Type := mkStructMemberElem {
  member_name : string;
  member_typeRefs : list RefElem;
  member_start : Z;
  member_end : Z
}.

Record StructElem : Type := mkStructElem {
  struct_name : string;
  struct_nameElem : NameElem;
  members : option (list StructMemberElem);
  struct_start : Z;
  struct_end : Z
}.

Record VarElem : Type := mkVarElem {
  var_name : string;
  var_nameElem : NameElem;
  var_typeRefs : list RefElem;
  var_start : Z;
  var_end : Z
}.

Record AliasElem : Type := mkAliasElem {
  alias_name : string;
  targetName : string;
  alias_typeRefs : list RefElem;
  alias_start : Z;
  alias_end : Z
}.

Record TreeImportElem : Type := mkTreeImportElem {
  imports_tree : ImportTree;
  import_start : Z;
  import_end : Z
}.

(** [FnElem | StructElem | VarElem | AliasElem | StructMemberElem] *)
Inductive Elem : Type :=
| EFn (e : FnElem)
| EStruct (e : StructElem)
| EVar (e : VarElem)
| EAlias (e : AliasElem)
| EMember (e : StructMemberElem).

Definition elem_name (e : Elem) : string :=
  match e with
  | EFn f => fn_name f
  | EStruct s => struct_name s
  | EVar v => var_name v
  | EAlias a => alias_name a
  | EMember m => member_name m
  end.

(** The fields of a text module that the traversal and its logging read. *)
Record TextModule : Type := mkTextModule {
  mod_name : string;
  fileName : option string;
  fns : list FnElem;
  vars : list VarElem;
  structs : list StructElem;
  aliases : list AliasElem;
  imports : list TreeImportElem
}.

Record GeneratorModule : Type := mkGeneratorModule {
  gen_mod_name : string
}.

Record GeneratorExport : Type := mkGeneratorExport {
  gen_name : string
}.

#[global] Instance RefKind_eqdec : EqDecision RefKind.
Proof. solve_decision. Defined.
#[global] Instance RefElem_eqdec : EqDecision RefElem.
Proof. solve_decision. Defined.
#[global] Instance NameElem_eqdec : EqDecision NameElem.
Proof. solve_decision. Defined.
#[global] Instance FnElem_eqdec : EqDecision FnElem.
Proof. solve_decision. Defined.
#[global] Instance StructMemberElem_eqdec : EqDecision StructMemberElem.
Proof. solve_decision. Defined.
#[global] Instance StructElem_eqdec : EqDecision StructElem.
Proof. solve_decision. Defined.
#[global] Instance VarElem_eqdec : EqDecision VarElem.
Proof. solve_decision. Defined.
#[global] Instance AliasElem_eqdec : EqDecision AliasElem.
Proof. solve_decision. Defined.
#[global] Instance TreeImportElem_eqdec : EqDecision TreeImportElem.
Proof. solve_decision. Defined.

(** Two references to a module are references to the same module object
    when the modules are equal: a registry holds one object for each module. *)
#[global] Instance TextModule_eqdec : EqDecision TextModule.
Proof. solve_decision. Defined.

(** [FoundRef = TextRef | GeneratorRef], with the [ExportInfo] of a
    reference that came through an import. *)
Inductive FoundRef : Type :=
| TextRef (proposedName : option string) (expMod : TextModule) (elem : Elem)
    (expInfo : option ExportInfo)
| GeneratorRef (proposedName : option string) (expInfo : ExportInfo)
    (expMod : GeneratorModule) (name : string)
with ExportInfo : Type :=
| mkExportInfo (fromRef : FoundRef) (fromImport : option TreeImportElem)
    (expImpArgs : list (string * string)).

Definition expImpArgsOf (info : ExportInfo) : list (string * string) :=
  match info with mkExportInfo _ _ args => args end.

(** [srcRef.expInfo] *)
Definition expInfoOf (ref : FoundRef) : option ExportInfo :=
  match ref with
  | TextRef _ _ _ info => info
  | GeneratorRef _ info _ _ => Some info
  end.

(** What [importResolveMap] and [resolveImport] hand to [importRef]. *)
Inductive ModuleExport : Type :=
| TextModuleExport (module : TextModule) (exp_ref : Elem)
| GeneratorModuleExport (module : GeneratorModule) (exp : GeneratorExport).

Record ResolvedExport : Type := mkResolvedExport {
  modExp : ModuleExport;
  callSegments : list string;
  resolved_expImpArgs : list (string * string)
}.

Record ResolveMap : Type := mkResolveMap {
  exportMap : list (string * ModuleExport);
  pathsMap : list (list string * list string)
}.

(** What the traversal does to the world, in order. *)
Inductive Event : Type :=
| Visit (ref : FoundRef)                               (* fn(ref) *)
| Bind (elem : RefElem) (ref : FoundRef)               (* elem.ref = foundRef *)
| ModuleLog (mod_ : TextModule) (pos : Z) (msg : string). (* moduleLog(mod, pos, msg) *)

Definition stdFns : list string :=
  ["bitcast"; "all"; "any"; "select"; "arrayLength"; "abs"; "acos"; "acosh";
   "asin"; "asinh"; "atan"; "atanh"; "atan2"; "ceil"; "clamp"; "cos"; "cosh";
   "countLeadingZeros"; "countOneBits"; "countTrailingZeros"; "cross";
   "degrees"; "determinant"; "distance"; "dot"; "dot4UI8Packed";
   "dot4I8Packed"; "exp"; "exp2"; "extractBits"; "faceForward";
   "firstLeadingBit"; "firstTrailingBit"; "floor"; "fma"; "fract"; "frexp";
   "inserBits"; "inverseSqrt"; "ldexp"; "length"; "log"; "log2"; "max";
   "min"; "mix"; "modf"; "normalize"; "pow"; "quantizeToF16"; "radians";
   "reflect"; "refract"; "reverseBits"; "round"; "saturate"; "sign"; "sin";
   "sinh"; "smoothstep"; "sqrt"; "step"; "tan"; "tanh"; "transpose"; "trunc";
   "dpdx"; "dpdxCoarse"; "dpdxFine"; "dpdy"; "dpdyCoarse"; "dpdyFine";
   "fwidth"; "fwdithCoarse"; "fwidthFine"; "textureDimensions";
   "textureGather"; "textureGatherCompare"; "textureLoad";
   "textureNumLayers"; "textureNumLevels"; "textureNumSamples";
   "textureSample"; "textureSampleBias"; "textureSampleCompare";
   "textureSampleCompareLevel"; "textureSampleGrad"; "textureSampleLevel";
   "textureSampleBaseClampToEdge"; "textureStore"; "atomicLoad";
   "atomicStore"; "atomicAdd"; "atomicSub"; "atomicMax"; "atomicMin";
   "atomicOr"; "atomicXor"; "atomicExchange"; "atomicCompareExchangeWeak";
   "pack4x8snorm"; "pack4x8unorm"; "pack4xI8"; "pack4xU8"; "pack4xI8Clamp";
   "pack4xU8Clamp"; "pack2x16snorm"; "pack2x16unorm"; "pack2x16float";
   "unpack4x8snorm"; "unpack4x8unorm"; "unpack4xI8"; "unpack4xU8";
   "unpack2x16snorm"; "unpack2x16unorm"; "unpack2x16float"; "storageBarrier";
   "textureBarrier"; "workgroupBarrier"; "workgroupUniformLoad"; EmptyString].

Definition stdTypes : list string :=
  ["array"; "atomic"; "bool"; "f16"; "f32"; "i32"; "mat2x2"; "mat2x3";
   "mat2x4"; "mat3x2"; "mat3x3"; "mat3x4"; "mat4x2"; "mat4x3"; "mat4x4";
   "mat2x2f"; "mat2x3f"; "mat2x4f"; "mat3x2f"; "mat3x3f"; "mat3x4f";
   "mat4x2f"; "mat4x3f"; "mat4x4f"; "mat2x2h"; "mat2x3h"; "mat2x4h";
   "mat3x2h"; "mat3x3h"; "mat3x4h"; "mat4x2h"; "mat4x3h"; "mat4x4h"; "u32";
   "vec2"; "vec3"; "vec4"; "ptr"; "vec2i"; "vec3i"; "vec4i"; "vec2u";
   "vec3u"; "vec4u"; "vec2f"; "vec3f"; "vec4f"; "vec2h"; "vec3h"; "vec4h";
   "texture_1d"; "texture_2d"; "texture_2d_array"; "texture_3d";
   "texture_cube"; "texture_cube_array"; "texture_multisampled_2d";
   "texture_depth_multisampled_2d"; "texture_external"; "texture_storage_1d";
   "texture_storage_2d"; "texture_storage_2d_array"; "texture_storage_3d";
   "texture_depth_2d"; "texture_depth_2d_array"; "texture_depth_cube";
   "texture_depth_cube_array"; "sampler"; "sampler_comparison"; "rgba8unorm";
   "rgba8snorm"; "rgba8uint"; "rgba8sint"; "rgba16uint"; "rgba16sint";
   "rgba16float"; "r32uint"; "r32sint"; "r32float"; "rg32uint"; "rg32sint";
   "rg32float"; "rgba32uint"; "rgba32sint"; "rgba32float"; "bgra8unorm";
   "function"; EmptyString].

(** [arr.includes(name)] *)
Definition includes (arr : list string) (name : string) : bool :=
  existsb (String.eqb name) arr.

Definition stdType (name : string) : bool := includes stdTypes name.

Definition stdFn (name : string) : bool := includes stdFns name || stdType name.

Definition refName (ref : FoundRef) : string :=
  match ref with
  | GeneratorRef _ _ _ name => name
  | TextRef _ _ elem _ => elem_name elem
  end.

Definition textRef (ref : FoundRef) : bool :=
  match ref with
  | TextRef _ _ _ _ => true
  | GeneratorRef _ _ _ _ => false
  end.

Definition textRefs (refs : list FoundRef) : list FoundRef := List.filter textRef refs.

(** Modelled from the spec: [groupBy] (Util.ts is not part of the sources)
    groups the refs by exporting module into a [Map], whose entries come in
    the order in which their keys were first inserted. *)
Fixpoint addToGroup {K V : Type} `{EqDecision K} (k : K) (v : V) (groups : list (K * list V))
  : list (K * list V) :=
  match groups with
  | [] => [(k, [v])]
  | (k', vs) :: rest =>
      if decide (k' = k) then (k', vs ++ [v]) :: rest
      else (k', vs) :: addToGroup k v rest
  end.

Definition groupBy {K V : Type} `{EqDecision K} (a : list V) (key : V -> option K)
  : list (K * list V) :=
  fold_left (fun groups v =>
               match key v with
               | Some k => addToGroup k v groups
               | None => groups
               end) a [].

(** [r.expMod] of a text ref. *)
Definition textExpMod (ref : FoundRef) : option TextModule :=
  match ref with
  | TextRef _ expMod _ _ => Some expMod
  | GeneratorRef _ _ _ _ => None
  end.

(** [importArgRef]: [Some true] when the name is an export parameter of the
    import chain, [None] for the [undefined] it returns without expInfo. *)
Definition importArgRef (srcRef : FoundRef) (name : string) : option bool :=
  match expInfoOf srcRef with
  | Some info =>
      Some (bool_decide (is_Some
              (List.find (fun '(expArg, _) => String.eqb expArg name) (expImpArgsOf info))))
  | None => None
  end.

(** Truthiness of what [importArgRef] returns. *)
Definition truthy (b : option bool) : bool := default false b.

Definition localRef (name : string) (mod_ : TextModule) : option FoundRef :=
  let elem :=
    match List.find (fun fn => String.eqb (fn_name fn) name) (fns mod_) with
    | Some f => Some (EFn f)
    | None =>
        match List.find (fun s => String.eqb (struct_name s) name) (structs mod_) with
        | Some s => Some (EStruct s)
        | None =>
            match List.find (fun s => String.eqb (alias_name s) name) (aliases mod_) with
            | Some a => Some (EAlias a)
            | None => None
            end
        end
    end in
  match elem with
  | Some elem => Some (TextRef (Some (elem_name elem)) mod_ elem None)
  | None => None
  end.

(** [elemTypeRefs]: the type references of an element that are not to
    built-in types. *)
Definition elemTypeRefs (elem : Elem) : list RefElem :=
  let typeRefs :=
    match elem with
    | EFn f => fn_typeRefs f
    | EVar v => var_typeRefs v
    | EAlias a => alias_typeRefs a
    | EMember m => member_typeRefs m
    | EStruct s =>
        match members s with
        | Some ms => flat_map member_typeRefs ms
        | None => []
        end
    end in
  List.filter (fun ref => negb (stdType (ref_name ref))) typeRefs.

(** The state of one [traverseRefs] call: the set [seen] (a JavaScript [Set]
    keeps its elements in insertion order) and the events so far. *)
Record Traversal : Type := mkTraversal {
  seen : list string;
  trace : list Event
}.

Definition emit (evs : list Event) (st : Traversal) : Traversal :=
  {| seen := seen st; trace := trace st ++ evs |}.

Section Traverse.

(** The registry ([ParsedRegistry.ts]), [resolveImport] and [refFullName]
    are imported from files that are not part of the sources. *)
Context {ParsedRegistry : Type}.
Variable importResolveMap : ParsedRegistry -> TextModule -> ResolveMap.
Variable resolveImport : string -> ResolveMap -> option ResolvedExport.
Variable refFullName : FoundRef -> string.

Definition importRef (fromRef : FoundRef) (name : string) (impMod : TextModule)
    (imports : list TreeImportElem) (registry : ParsedRegistry) : option FoundRef :=
  let resolveMap := importResolveMap registry impMod in
  let resolved := resolveImport name resolveMap in
  let fromImport := head imports in
  match resolved with
  | Some r =>
      let proposedName := last (callSegments r) in
      let expInfo := mkExportInfo fromRef fromImport (resolved_expImpArgs r) in
      match modExp r with
      | TextModuleExport expMod exp_ref =>
          Some (TextRef proposedName expMod exp_ref (Some expInfo))
      | GeneratorModuleExport expMod exp =>
          Some (GeneratorRef proposedName expInfo expMod (gen_name exp))
      end
  | None => None
  end.

(** [linkedRef]: the refs it returns and the events it causes. *)
Definition linkedRef (elem : RefElem) (srcRef : FoundRef) (mod_ : TextModule)
    (registry : ParsedRegistry) : list FoundRef * list Event :=
  let name := ref_name elem in
  if truthy (importArgRef srcRef name) then ([], [])
  else
    let foundRef :=
      match importRef srcRef name mod_ (imports mod_) registry with
      | Some r => Some r
      | None => localRef name mod_
      end in
    match foundRef with
    | Some r => ([r], [Bind elem r])
    | None =>
        match textExpMod srcRef with
        | Some expMod =>
            ([], [ModuleLog expMod (ref_start elem) ("reference not found: " +:+ name)])
        | None => ([], [])
        end
    end.

(** [children.flatMap((elem) => linkedRef(elem, srcRef, mod, registry))] *)
Fixpoint elemChildrenRefs (srcRef : FoundRef) (children : list RefElem)
    (mod_ : TextModule) (registry : ParsedRegistry) : list FoundRef * list Event :=
  match children with
  | [] => ([], [])
  | elem :: rest =>
      let '(refs, evs) := linkedRef elem srcRef mod_ registry in
      let '(refs', evs') := elemChildrenRefs srcRef rest mod_ registry in
      (refs ++ refs', evs ++ evs')
  end.

(** [elemRefs]; its [srcRef] is a [TextRef]. *)
Definition elemRefs (srcRef : FoundRef) (mod_ : TextModule) (registry : ParsedRegistry)
  : list FoundRef * list Event :=
  match srcRef with
  | TextRef _ _ elem _ =>
      let '(fnRefs, evs1) :=
        match elem with
        | EFn f =>
            let userCalls :=
              List.filter (fun c => negb (stdFn (ref_name c))
                                    && negb (String.eqb (ref_name c) (fn_name f)))
                (calls f) in
            elemChildrenRefs srcRef userCalls mod_ registry
        | _ => ([], [])
        end in
      let userTypeRefs := elemTypeRefs elem in
      let '(tRefs, evs2) := elemChildrenRefs srcRef userTypeRefs mod_ registry in
      (fnRefs ++ tRefs, evs1 ++ evs2)
  | GeneratorRef _ _ _ _ => ([], [])
  end.

(** [refs.flatMap((r) => elemRefs(r, mod, registry))] *)
Fixpoint elemRefsAll (refs : list FoundRef) (mod_ : TextModule) (registry : ParsedRegistry)
  : list FoundRef * list Event :=
  match refs with
  | [] => ([], [])
  | r :: rest =>
      let '(cs, evs) := elemRefs r mod_ registry in
      let '(cs', evs') := elemRefsAll rest mod_ registry in
      (cs ++ cs', evs ++ evs')
  end.

(** [eachRef] with [unseen] inlined: the callback first, then the set. *)
Definition eachRef (ref : FoundRef) (st : Traversal) : bool * Traversal :=
  let st1 := emit [Visit ref] st in
  let fullName := refFullName ref in
  if bool_decide (fullName ∈ seen st1) then (false, st1)
  else (true, {| seen := seen st1 ++ [fullName]; trace := trace st1 |}).

(** [refs.filter((r) => fn(r))] with [fn = eachRef] *)
Fixpoint filterEach (refs : list FoundRef) (st : Traversal) : list FoundRef * Traversal :=
  match refs with
  | [] => ([], st)
  | r :: rest =>
      let '(keep, st1) := eachRef r st in
      let '(kept, st2) := filterEach rest st1 in
      (if keep then r :: kept else kept, st2)
  end.

(** [recursiveRefs] with [fn = eachRef].  The recursion is bounded by
    [fuel]; [None] when the fuel does not suffice. *)
Fixpoint recursiveRefs (fuel : nat) (refs : list FoundRef) (registry : ParsedRegistry)
    (st : Traversal) : option Traversal :=
  match fuel with
  | O => None
  | S fuel' =>
      let '(filtered, st1) := filterEach refs st in
      let nonGenRefs := textRefs filtered in
      let modGroups := groupBy nonGenRefs textExpMod in
      fold_left
        (fun acc '(mod_, refs') =>
           match acc with
           | None => None
           | Some st2 =>
               match refs' with
               | [] => Some st2
               | _ :: _ =>
                   let '(childRefs, evs) := elemRefsAll refs' mod_ registry in
                   recursiveRefs fuel' childRefs registry (emit evs st2)
               end
           end)
        modGroups (Some st1)
  end.

(** The body of the [forEach] over the module groups, for the recursion
    with fuel [fuel]. *)
Definition eachGroup (registry : ParsedRegistry) (fuel : nat) (acc : option Traversal)
    (group : TextModule * list FoundRef) : option Traversal :=
  let '(mod_, refs') := group in
  match acc with
  | None => None
  | Some st2 =>
      match refs' with
      | [] => Some st2
      | _ :: _ =>
          let '(childRefs, evs) := elemRefsAll refs' mod_ registry in
          recursiveRefs fuel childRefs registry (emit evs st2)
      end
  end.

(** The refs to the declarations of the root module, in the order
    structs, vars, fns, aliases. *)
Definition rootRefs (srcModule : TextModule) : list FoundRef :=
  map (fun elem => TextRef (Some (elem_name elem)) srcModule elem None)
    (map EStruct (structs srcModule) ++ map EVar (vars srcModule)
     ++ map EFn (fns srcModule) ++ map EAlias (aliases srcModule)).

Definition traverseRefs (fuel : nat) (srcModule : TextModule) (registry : ParsedRegistry)
  : option Traversal :=
  let srcRefs := rootRefs srcModule in
  let st := {| seen := []; trace := map Visit srcRefs |} in
  match srcRefs with
  | [] => Some st
  | _ :: _ =>
      let nonGenRefs := textRefs srcRefs in
      let '(childRefs, evs) := elemRefsAll nonGenRefs srcModule registry in
      recursiveRefs fuel childRefs registry (emit evs st)
  end.

(** The visits of a trace, in order. *)
Definition visits (evs : list Event) : list FoundRef :=
  flat_map (fun ev => match ev with Visit r => [r] | _ => [] end) evs.

(** The refs the traversal can come to from the root module: the children of
    the root refs, and the children of every text ref it can come to, looked
    up in that ref's exporting module. *)
Inductive reachable (srcModule : TextModule) (registry : ParsedRegistry)
  : FoundRef -> Prop :=
| reachable_root r c :
    r ∈ rootRefs srcModule ->
    c ∈ fst (elemRefs r srcModule registry) ->
    reachable srcModule registry c
| reachable_step r expMod c :
    reachable srcModule registry r ->
    textExpMod r = Some expMod ->
    c ∈ fst (elemRefs r expMod registry) ->
    reachable srcModule registry c.

End Traverse.

(** The names of [names] that are not in [seen] yet. *)
Definition unseen_count (names seen : list string) : nat :=
  length (List.filter (fun n => negb (bool_decide (n ∈ seen))) names).

(** [n] is an export parameter recorded on the import chain of [srcRef]. *)
Definition is_export_param (srcRef : FoundRef) (n : string) : Prop :=
  exists info impArg, expInfoOf srcRef = Some info /\ (n, impArg) ∈ expImpArgsOf info.

(** [e] is a fn, struct or alias that module [M] declares under the name [n]. *)
Definition declared_in (M : TextModule) (n : string) (e : Elem) : Prop :=
  (exists f, e = EFn f /\ f ∈ fns M /\ fn_name f = n) \/
  (exists s, e = EStruct s /\ s ∈ structs M /\ struct_name s = n) \/
  (exists a, e = EAlias a /\ a ∈ aliases M /\ alias_name a = n).

(** *** Small registries for the examples *)

Definition callTo (name : string) (at_ : Z) : RefElem :=
  {| ref_kind := call; ref_name := name; ref_start := at_; ref_end := at_ + 1 |}.

Definition fnOf (name : string) (at_ : Z) (cs : list RefElem) : FnElem :=
  {| fn_name := name;
     fn_nameElem := {| ne_name := name; ne_start := at_ + 3; ne_end := at_ + 4 |};
     calls := cs; fn_typeRefs := []; fn_start := at_; fn_end := at_ + 20 |}.

Definition moduleOf (name : string) (fs : list FnElem) : TextModule :=
  {| mod_name := name; fileName := None; fns := fs; vars := []; structs := [];
     aliases := []; imports := [] |}.

(** A registry for the examples: the resolve map of each module, by module
    name; [resolveImport] for it looks the name up among the import paths. *)
Definition ExampleRegistry : Type := list (string * ResolveMap).

Definition exampleResolveMap (registry : ExampleRegistry) (mod_ : TextModule) : ResolveMap :=
  match List.find (fun '(n, _) => String.eqb n (mod_name mod_)) registry with
  | Some (_, rm) => rm
  | None => {| exportMap := []; pathsMap := [] |}
  end.

Definition exampleResolveImport (name : string) (rm : ResolveMap) : option ResolvedExport :=
  match List.find (fun '(path, _) => String.eqb path name) (exportMap rm) with
  | Some (path, me) =>
      Some {| modExp := me; callSegments := [path]; resolved_expImpArgs := [] |}
  | None => None
  end.

(** A full name for the examples: module, element and import arguments. *)
Definition exampleFullName (ref : FoundRef) : string :=
  let args :=
    match expInfoOf ref with
    | Some info => String.concat "," (map (fun '(e, i) => e +:+ "=" +:+ i) (expImpArgsOf info))
    | None => EmptyString
    end in
  match ref with
  | TextRef _ expMod elem _ => mod_name expMod +:+ "." +:+ elem_name elem +:+ "?" +:+ args
  | GeneratorRef _ _ expMod name => gen_mod_name expMod +:+ "." +:+ name +:+ "?" +:+ args
  end.

(** [fn foo() { bar(); } fn bar() {}] *)
Definition fooCallsBar : TextModule :=
  moduleOf "main" [fnOf "foo" 0 [callTo "bar" 11]; fnOf "bar" 30 []].

Definition localFn (mod_ : TextModule) (f : FnElem) : FoundRef :=
  TextRef (Some (fn_name f)) mod_ (EFn f) None.

(** [fn foo() { bar(); } fn bar() { foo(); }] *)
Definition fooBarCycle : TextModule :=
  moduleOf "main" [fnOf "foo" 0 [callTo "bar" 11]; fnOf "bar" 30 [callTo "foo" 41]].

(** A root [fn main() { a(); b(); c(); }] that imports [a] and [c] from
    module m1 and [b] from module m2. *)
Definition m1 : TextModule := moduleOf "m1" [fnOf "a" 0 []; fnOf "c" 30 []].
Definition m2 : TextModule := moduleOf "m2" [fnOf "b" 0 []].

Definition mainABC : TextModule :=
  moduleOf "main" [fnOf "main" 0 [callTo "a" 12; callTo "b" 17; callTo "c" 22]].

Definition registryABC : ExampleRegistry :=
  [ ("main",
     {| exportMap := [ ("a", TextModuleExport m1 (EFn (fnOf "a" 0 [])));
                       ("c", TextModuleExport m1 (EFn (fnOf "c" 30 [])));
                       ("b", TextModuleExport m2 (EFn (fnOf "b" 0 []))) ];
        pathsMap := [ (["a"], ["m1"; "a"]); (["c"], ["m1"; "c"]); (["b"], ["m2"; "b"]) ] |}) ].

Definition importedFn (from_ : FoundRef) (mod_ : TextModule) (f : FnElem) : FoundRef :=
  TextRef (Some (fn_name f)) mod_ (EFn f) (Some (mkExportInfo from_ None [])).

End TraverseRefs.

(** ** SrcMap.ts: the remaining functions *)

Module SrcMapMore.
Import SrcMapTs.

(** [addEntries]: [this.entries.push(...newEntries)] *)
Definition addEntries (m : SrcMap) (newEntries : list SrcMapEntry) : SrcMap :=
  {| entries := entries m ++ newEntries; dest := dest m |}.

(** The [Error] thrown by [srcToDest]: `no SrcMapEntry for src pos: ${pos}`. *)
Inductive SrcError : Type :=
| NoSrcMapEntryForSrc (pos : Z).

(** The predicate of [entries.find] in [srcToDest]:
    [e.srcStart <= pos && e.srcEnd >= pos]. *)
Definition covers_src (pos : Z) (e : SrcMapEntry) : bool :=
  (srcStart e <=? pos) && (srcEnd e >=? pos).

(** [srcToDest]; the [src] field of its result is the src of the entry. *)
Definition srcToDest (pos : Z) (es : list SrcMapEntry) : SrcPosition + SrcError :=
  match List.find (covers_src pos) es with
  | None => inr (NoSrcMapEntryForSrc pos)
  | Some entry =>
      inl {| pos_src := src entry;
             position := destStart entry + pos - srcStart entry |}
  end.

(** The test of the [if] in the loop of [compact]. *)
Definition mergeable (prev e : SrcMapEntry) : bool :=
  String.eqb (src e) (src prev)
  && (destEnd prev =? destStart e)
  && (srcEnd prev =? srcStart e).

(** No entry of the list can be combined with the one before it. *)
Fixpoint compacted (l : list SrcMapEntry) : Prop :=
  match l with
  | [] => True
  | x :: l' =>
      match l' with
      | [] => True
      | y :: _ => mergeable x y = false
      end /\ compacted l'
  end.

(** How far an entry moves its text: the distance from a source position
    to the destination position it is copied to. *)
Definition offset (e : SrcMapEntry) : Z := destStart e - srcStart e.

(** The destination range of an entry. *)
Definition destRange (e : SrcMapEntry) : Z * Z := (destStart e, destEnd e).

(** Two copied ranges, the second continuing the first on both sides, and a
    third one further on. *)
Definition three_copies : SrcMap :=
  {| entries := [ {| src := "s"; srcStart := 0; srcEnd := 4; destStart := 10; destEnd := 14 |};
                  {| src := "s"; srcStart := 4; srcEnd := 9; destStart := 14; destEnd := 19 |};
                  {| src := "s"; srcStart := 20; srcEnd := 25; destStart := 30; destEnd := 35 |} ];
     dest := "d" |}.

(** Five characters of text "A" followed by five characters of text "B". *)
Definition two_texts : SrcMap :=
  {| entries := [ {| src := "A"; srcStart := 0; srcEnd := 5; destStart := 0; destEnd := 5 |};
                  {| src := "B"; srcStart := 0; srcEnd := 5; destStart := 5; destEnd := 10 |} ];
     dest := "d" |}.

End SrcMapMore.

(** ** ParserLogging.ts: the logging functions *)

Module ParserLoggingMore.
Import ParserLogging.

(** An argument of a call of [log]: one of the caller's [msgs], passed on
    as it is, or a string built by [logInternal]. *)
Inductive LogArg (Msg : Type) : Type :=
| MsgArg (m : Msg)
| StrArg (s : string).
Arguments MsgArg {Msg} m.
Arguments StrArg {Msg} s.

(** The [RangeError] of [String.prototype.repeat] for a negative count. *)
Inductive RangeError : Type :=
| InvalidCount (count : Z).

Fixpoint spaces (n : nat) : string :=
  match n with
  | O => EmptyString
  | S n' => String " "%char (spaces n')
  end.

(** [" ".repeat(count)] for an integer count. *)
Definition repeat_space (count : Z) : string + RangeError :=
  if count <? 0 then inr (InvalidCount count) else inl (spaces (Z.to_nat count)).

(** An integer in a template literal. *)
Definition numberText (n : Z) : string :=
  if n <? 0 then "-" +:+ ParseModule.decimal (Z.to_nat (- n)) (Z.to_nat (- n))
  else ParseModule.decimal (Z.to_nat n) (Z.to_nat n).

(** [logInternal]: the calls of [log] it makes, in order, and the error it
    ends with if it throws; [None] where [srcLine] has no answer in this
    model. *)
Definition logInternal {Msg : Type} (src : string) (pos : Z) (msgs : list Msg)
    (startCache : gmap string (list Z))
  : option (list (list (LogArg Msg)) * option RangeError) * gmap string (list Z) :=
  let '(found, startCache') := srcLine src pos startCache in
  (sl ← found;
   let logged :=
     [ map MsgArg msgs;
       [ StrArg (line sl); StrArg ("  Ln " +:+ numberText (lineNum sl)) ] ] in
   match repeat_space (linePos sl) with
   | inl sp => Some (logged ++ [ [ StrArg (sp +:+ "^") ] ], None)
   | inr err => Some (logged, Some err)
   end,
   startCache').

(** [srcLog] and [srcTrace] are [logInternal] with [logger] and [parserLog]
    for [log]. *)
Definition srcLog {Msg : Type} := @logInternal Msg.
Definition srcTrace {Msg : Type} := @logInternal Msg.

(** The line index that the short circuit and the binary search of [srcLine]
    settle on. *)
Definition found_start (src : string) (pos : Z) (startCache : gmap string (list Z))
  : option Z :=
  let starts := fst (getStarts src startCache) in
  let end_ := Z.of_nat (length starts) - 1 in
  at_end ← arr_get starts end_;
  search (length starts) starts pos (if pos >=? at_end then end_ else 0) end_.

End ParserLoggingMore.

(** ** MatchingLexer.ts: tracing text, and matchers that make progress *)

Module MatchingLexerMore.
Import MatchingLexer.

(** [text.replace(/\n/g, "\\n")]: every newline character becomes a
    backslash and the letter n. *)
Fixpoint escapeNewlines (s : string) : string :=
  match s with
  | EmptyString => EmptyString
  | String c s' =>
      if Ascii.eqb c ParserLogging.newline
      then String (Ascii.ascii_of_nat 92) (String "n"%char (escapeNewlines s'))
      else String c (escapeNewlines s')
  end.

(** [quotedText]; the empty string is falsy, as [undefined] is. *)
Definition quotedText (text : option string) : string :=
  match text with
  | Some (String c t) => "'" +:+ escapeNewlines (String c t) +:+ "'"
  | _ => EmptyString
  end.

(** Every token the matchers give ends after the position it was asked for
    and inside the source. *)
Definition advancing (tokenNext : MatcherRef -> string -> Z -> option (Token * Z)) : Prop :=
  forall m s p tok p', tokenNext m s p = Some (tok, p') ->
    p < p' <= Z.of_nat (String.length s).

(** How an outcome left the console, against the lexer the code began in. *)
Definition console_kept {V : Type} (o : Outcome V) (lx : Lexer) : Prop :=
  match o with
  | Returned _ lx' => console lx' = console lx
  | Threw lx' => console lx' = console lx
  | Running => True
  end.

(** A matcher of one-character tokens: kind "ws" for a space, "ch" for any
    other character. *)
Definition charTokens : MatcherRef -> string -> Z -> option (Token * Z) :=
  fun _ s p =>
    if p <? 0 then None
    else match String.get (Z.to_nat p) s with
         | Some c =>
             Some ({| kind := if Ascii.eqb c " "%char then "ws" else "ch";
                      text := String c EmptyString;
                      span := (p, p + 1) |}, p + 1)
         | None => None
         end.

Definition a_b_lexer : Lexer := matchingLexer "a  b" 0%nat {["ws"]} fresh_matchers.

End MatchingLexerMore.

(** ** ParseModule.ts: what the two matching passes compute *)

Module ParseModuleMore.
Import AbstractElems ParseModule.

(** The kinds that the loop of [matchMergeImports] steps over, and the kind
    that the loop of [findExports] steps over. *)
Definition skipMergeExport (k : string) : bool :=
  String.eqb k "importMerge" || String.eqb k "export".

Definition skipMerge (k : string) : bool := String.eqb k "importMerge".

(** The index of the struct that the directive at index [i] is matched
    with, if it is matched with one. *)
Definition mergeTarget (parsed : list AbstractElem) (i : nat) : option nat :=
  match nextAfter skipMergeExport parsed i with
  | Some (Struct _, j) => Some j
  | _ => None
  end.

(** [next.importMerges ?? []] for the element at index [j]. *)
Definition mergesOf (e : AbstractElem) : list ImportMergeElem :=
  match e with
  | Struct s => default [] (importMerges s)
  | _ => []
  end.

Definition mergesAt (parsed : list AbstractElem) (j : nat) : list ImportMergeElem :=
  match parsed !! j with
  | Some e => mergesOf e
  | None => []
  end.

(** The struct [next] after [next.importMerges.push(mergeElem)]. *)
Definition withMerge (next : StructElem) (mergeElem : ImportMergeElem) : StructElem :=
  {| struct_name := struct_name next; struct_start := struct_start next;
     struct_end := struct_end next;
     importMerges := Some (default [] (importMerges next) ++ [mergeElem]) |}.

Definition notAStruct (mergeElem : ImportMergeElem) : SrcLog :=
  {| log_pos := imp_start mergeElem; log_msg := "#extends not followed by a struct" |}.

(** Of the directives [found], in their order: those matched with the
    struct at index [j], and the log entries for those matched with no
    struct. *)
Definition attached (parsed : list AbstractElem) (found : list (AbstractElem * nat))
    (j : nat) : list ImportMergeElem :=
  List.concat
    (map (fun '(e, i) =>
            match e with
            | ImportMerge m =>
                if bool_decide (mergeTarget parsed i = Some j) then [m] else []
            | _ => []
            end) found).

Definition unattached (parsed : list AbstractElem) (found : list (AbstractElem * nat))
  : list SrcLog :=
  List.concat
    (map (fun '(e, i) =>
            match e with
            | ImportMerge m =>
                match mergeTarget parsed i with
                | Some _ => []
                | None => [ notAStruct m ]
                end
            | _ => []
            end) found).

(** An importMerge or export element. *)
Definition isDirective (e : AbstractElem) : bool :=
  match e with
  | ImportMerge _ => true
  | Export _ => true
  | _ => false
  end.

Definition isStruct (e : option AbstractElem) : bool :=
  match e with
  | Some (Struct _) => true
  | _ => false
  end.

(** The element at index [i] comes before the struct at index [j] with
    only importMerge and export elements in between. *)
Definition directlyBefore (parsed : list AbstractElem) (i j : nat) : bool :=
  (i <? j)%nat
  && forallb isDirective (take (j - S i) (drop (S i) parsed))
  && isStruct (parsed !! j).

(** The importMerge directives that come directly before the struct at index
    [j], in the order of the source. *)
Definition mergesBefore (parsed : list AbstractElem) (j : nat) : list ImportMergeElem :=
  List.concat
    (imap (fun i e =>
             match e with
             | ImportMerge m => if directlyBefore parsed i j then [m] else []
             | _ => []
             end) parsed).

(** A log entry for each importMerge directive that comes directly before
    no struct, in the order of the source. *)
Definition notBeforeStruct (parsed : list AbstractElem) : list SrcLog :=
  List.concat
    (imap (fun i e =>
             match e with
             | ImportMerge m =>
                 if existsb (directlyBefore parsed i) (seq 0 (length parsed))
                 then [] else [ notAStruct m ]
             | _ => []
             end) parsed).

(** A merge directive, an export directive and a struct. *)
Definition merge_export_struct : list AbstractElem :=
  [ ImportMerge {| imp_name := "Foo"; imp_args := None; imp_as := None;
                   imp_from := None; imp_start := 0; imp_end := 12 |};
    Export {| exp_name := None; exp_args := None; exp_importing := None;
              exp_start := 13; exp_end := 20 |};
    Struct {| struct_name := "S"; struct_start := 21; struct_end := 40;
              importMerges := None |} ].

(** Two elements that differ at most in the importMerges of a struct. *)
Definition same_but_merges (e e' : AbstractElem) : Prop :=
  match e, e' with
  | Struct s, Struct s' =>
      struct_name s = struct_name s' /\ struct_start s = struct_start s' /\
      struct_end s = struct_end s'
  | _, _ => e = e'
  end.

(** What [findExports] checks before it pushes a result: the export
    directive at index [i] is followed at index [j] by a fn or a struct, with
    nothing but importMerge elements in between. *)
Definition exportResolved (parsed : list AbstractElem) (found : ExportElem * nat) : Prop :=
  let '(elem, j) := found in
  exists (i : nat) (next : AbstractElem),
    parsed !! i = Some (Export elem) /\ (i < j)%nat /\
    parsed !! j = Some next /\
    (kind next = "fn" \/ kind next = "struct") /\
    forall m, (i < m < j)%nat ->
      exists x, parsed !! m = Some x /\ kind x = "importMerge".

Definition exportWhatMsg : string := "#export what? (#export a fn or struct)".

(** The export directives of [parsed], in order. *)
Definition exportElems (parsed : list AbstractElem) : list ExportElem :=
  List.concat (map (fun e => match e with Export x => [x] | _ => [] end) parsed).

(** The log entries about exports. *)
Definition exportWhat (log : list SrcLog) : list SrcLog :=
  List.filter (fun l => String.eqb (log_msg l) exportWhatMsg) log.

(** The number that a string of decimal digits denotes. *)
Fixpoint numeral_value (acc : nat) (s : string) : nat :=
  match s with
  | EmptyString => acc
  | String c s' => numeral_value (10 * acc + (Ascii.nat_of_ascii c - 48)) s'
  end.

Definition readNumber (s : string) : nat := numeral_value 0 s.

(** A parser that finds one fn and no module element, whatever the source. *)
Definition parsesOneFn (_ : string) (_ : SrcMapTs.SrcMap) : list AbstractElem :=
  [Fn {| name := "f"; start := 0; end_ := 9 |}].

End ParseModuleMore.

(** ** src/TraverseRefs.ts: chaining argument pairings *)

Module TraverseRefsOldMore.
Import AbstractElems TraverseRefsOld.

Definition StringPairs : Type := list (string * option string).

(** Of a [FoundRef], what [importingArgs2] reads: its kind and, for an
    [ExportRef], its expImpArgs. *)
Inductive FoundRef : Type :=
| LocalRef
| ExportRef (expImpArgs : StringPairs).

(** [pairs.find(([arg]) => arg === key)]; [key] may be undefined. *)
Definition findPair (pairs : StringPairs) (key : option string)
  : option (string * option string) :=
  List.find (fun '(arg, _) => bool_decide (Some arg = key)) pairs.

(** What the two functions write with [console.error]: the report of
    [matchImportExportArgs], or "importing arg not found" with the arguments
    handed over after it ([importingArgs] hands over the export parameter
    too). *)
Inductive Logged : Type :=
| Mismatched (e : ConsoleError)
| ArgNotFound (iExp : option string) (exp : ExportElem) (imp : ImportElem).

(** The [flatMap] of [importingArgs2] and of [importingArgs]: each pair of
    [outer] is continued through [inner], or reported and dropped. *)
Fixpoint chain (report : string -> Logged) (inner outer : StringPairs)
  : StringPairs * list Logged :=
  match outer with
  | [] => ([], [])
  | (iExp, iImp) :: outer' =>
      let '(pairs, errs) := chain report inner outer' in
      match findPair inner iImp with
      | None => (pairs, report iExp :: errs)
      | Some (_, impArg) => ((iExp, impArg) :: pairs, errs)
      end
  end.

(** [importingArgs2]; the calls of [dlog] are left out. *)
Definition importingArgs2 (imp : ImportElem) (exp : ExportElem) (srcRef : FoundRef)
  : StringPairs * list Logged :=
  let '(expImp, errs) := matchImportExportArgs imp exp in
  match srcRef with
  | ExportRef srcExpImp =>
      let '(pairs, errs') := chain (fun _ => ArgNotFound None exp imp) srcExpImp expImp in
      (pairs, map Mismatched errs ++ errs')
  | LocalRef => ([], map Mismatched errs)
  end.

(** [importingArgs] *)
Definition importingArgs (imp : ImportElem) (exp : ExportElem)
    (importing : ImportElem) (importingExp : ExportElem)
  : StringPairs * list Logged :=
  let '(expImp, errs1) := matchImportExportArgs imp exp in
  let '(importingExpImp, errs2) := matchImportExportArgs importing importingExp in
  let '(pairs, errs3) :=
    chain (fun iExp => ArgNotFound (Some iExp) exp imp) expImp importingExpImp in
  (pairs, map Mismatched errs1 ++ map Mismatched errs2 ++ errs3).

(** [#export foo(C, D) importing bar(D)], from the comment above
    [importingArgs]. *)
Definition export_importing : ExportElem :=
  {| exp_name := None; exp_args := Some ["C"; "D"];
     exp_importing := Some [import_of "bar" ["D"]];
     exp_start := 5; exp_end := 40 |}.

End TraverseRefsOldMore.

(** ** src/old/ModuleRegistryOld.ts *)

Module ModuleRegistryOld.

(** Modelled from their use in the registry ([LinkerOld.ts] is not part of
    the sources): a text export has a name, a text module a name and its
    exports. *)
Record TextExportOld : Type := mkTextExportOld {
  text_export_name : string
}.

Record TextModuleOld : Type := mkTextModuleOld {
  text_module_name : string;
  text_module_exports : list TextExportOld
}.

(** [ApplyTemplateOld] *)
Definition ApplyTemplateOld : Type := string -> gmap string string -> string.

Record TemplateOld : Type := mkTemplateOld {
  template_name : string;
  applyTemplate : ApplyTemplateOld
}.

Section Registry.

(** [CodeGenFn], from [LinkerOld.ts]. *)
Context {CodeGenFn : Type}.

Record GeneratorExport : Type := mkGeneratorExport {
  gen_export_name : string;
  gen_params : list string;
  generate : CodeGenFn
}.

Record GeneratorModuleOld : Type := mkGeneratorModuleOld {
  gen_module_name : string;
  gen_module_exports : list GeneratorExport
}.

(** [ModuleExportOld = TextModuleExportOld | GeneratorModuleExportOld] *)
Inductive ModuleExportOld : Type :=
| TextModuleExportOld (module : TextModuleOld) (export : TextExportOld)
| GeneratorModuleExportOld (module : GeneratorModuleOld) (export : GeneratorExport).

(** [moduleExport.export.name] and [moduleExport.module.name] *)
Definition exportName (me : ModuleExportOld) : string :=
  match me with
  | TextModuleExportOld _ e => text_export_name e
  | GeneratorModuleExportOld _ e => gen_export_name e
  end.

Definition moduleName (me : ModuleExportOld) : string :=
  match me with
  | TextModuleExportOld m _ => text_module_name m
  | GeneratorModuleExportOld m _ => gen_module_name m
  end.

(** The two private maps of a [ModuleRegistryOld]. *)
Record Registry : Type := mkRegistry {
  exports : gmap string (list ModuleExportOld);
  templates : gmap string ApplyTemplateOld
}.

(** A registry constructed with no sources. *)
Definition newRegistry : Registry := {| exports := ∅; templates := ∅ |}.

Definition addModuleExport (reg : Registry) (moduleExport : ModuleExportOld) : Registry :=
  let name := exportName moduleExport in
  match exports reg !! name with
  | Some existing =>
      {| exports := <[name := existing ++ [moduleExport]]> (exports reg);
         templates := templates reg |}
  | None =>
      {| exports := <[name := [moduleExport]]> (exports reg);
         templates := templates reg |}
  end.

Definition addTextModule (reg : Registry) (module : TextModuleOld) : Registry :=
  fold_left (fun r e => addModuleExport r (TextModuleExportOld module e))
    (text_module_exports module) reg.

(** [registerGenerator]; [unnamedCodeDex] is the module-level counter,
    passed in and out. *)
Definition registerGenerator (reg : Registry) (name : string) (fn : CodeGenFn)
    (params : option (list string)) (modName : option string) (unnamedCodeDex : nat)
  : Registry * nat :=
  let exp := {| gen_export_name := name; gen_params := default [] params;
                generate := fn |} in
  let '(mname, dex) :=
    match modName with
    | Some m => (m, unnamedCodeDex)
    | None =>
        ("funModule" +:+ ParseModule.decimal unnamedCodeDex unnamedCodeDex,
         S unnamedCodeDex)
    end in
  let module := {| gen_module_name := mname; gen_module_exports := [exp] |} in
  (addModuleExport reg (GeneratorModuleExportOld module exp), dex).

Definition registerTemplate (reg : Registry) (ts : list TemplateOld) : Registry :=
  fold_left (fun r t =>
               {| exports := exports r;
                  templates := <[template_name t := applyTemplate t]> (templates r) |})
    ts reg.

Definition getTemplate (reg : Registry) (name : string) : option ApplyTemplateOld :=
  templates reg !! name.

Definition quote : string := String (Ascii.ascii_of_nat 34) EmptyString.

(** The text of the [console.warn] of [getModuleExport]. *)
Definition multipleModules (name : string) (found : list ModuleExportOld) : string :=
  "Multiple modules export " +:+ quote +:+ name +:+ quote +:+ ". ("
  +:+ String.concat ", " (map moduleName found) +:+ ") "
  +:+ "Use " +:+ quote +:+ "#import " +:+ name +:+ " from <moduleName>" +:+ quote
  +:+ " to select which one import".

(** [getModuleExport]: what it returns and what it warns.  An empty
    module name is falsy, as a missing one is. *)
Definition getModuleExport (reg : Registry) (name : string) (modName : option string)
  : option ModuleExportOld * list string :=
  match exports reg !! name with
  | None => (None, [])
  | Some found =>
      match modName with
      | Some (String c m) =>
          (List.find (fun e => String.eqb (moduleName e) (String c m)) found, [])
      | _ =>
          match found with
          | [e] => (Some e, [])
          | _ => (None, [multipleModules name found])
          end
      end
  end.

(** The registry after the exports [mes] were added one by one. *)
Definition registered (mes : list ModuleExportOld) : Registry :=
  fold_left addModuleExport mes newRegistry.

End Registry.

Arguments GeneratorExport : clear implicits.
Arguments GeneratorModuleOld : clear implicits.
Arguments ModuleExportOld : clear implicits.
Arguments Registry : clear implicits.

(** Two text modules that both export [foo]. *)
Definition fooOf (m : string) : ModuleExportOld unit :=
  TextModuleExportOld
    {| text_module_name := m; text_module_exports := [ {| text_export_name := "foo" |} ] |}
    {| text_export_name := "foo" |}.

End ModuleRegistryOld.

(** ** TraverseRefs.ts of the linker package: what a traversal touches *)

Module TraverseRefsMore.
Import TraverseRefs.

(** The refs written into the [ref] field of elements, in order. *)
Definition bound (evs : list Event) : list FoundRef :=
  flat_map (fun ev => match ev with Bind _ r => [r] | _ => [] end) evs.

(** The type references written in an element: those of a fn, var, alias
    or struct member, and for a struct those of its members.  (A struct
    element has a name and members, and no other field that refers to
    anything.) *)
Definition has_typeRef (elem : Elem) (e : RefElem) : Prop :=
  match elem with
  | EFn f => e ∈ fn_typeRefs f
  | EVar v => e ∈ var_typeRefs v
  | EAlias a => e ∈ alias_typeRefs a
  | EMember m => e ∈ member_typeRefs m
  | EStruct s => exists ms m, members s = Some ms /\ m ∈ ms /\ e ∈ member_typeRefs m
  end.

(** The references of an element that are to be followed: the calls of a
    fn to a name that is not on the list [stdFns] or [stdTypes] and is not
    the name of the fn itself, and the type references to a name that is not
    on the list [stdTypes]. *)
Definition refers (elem : Elem) (e : RefElem) : Prop :=
  (exists f, elem = EFn f /\ e ∈ calls f /\
             stdFn (ref_name e) = false /\ ref_name e <> fn_name f) \/
  (has_typeRef elem e /\ stdType (ref_name e) = false).

Definition user_child (srcRef : FoundRef) (e : RefElem) : Prop :=
  match srcRef with
  | TextRef _ _ elem _ => refers elem e
  | GeneratorRef _ _ _ _ => False
  end.

(** [x] is the first element of [l] with the name [n]. *)
Definition first_named {A : Type} (name_of : A -> string) (n : string) (l : list A)
    (x : A) : Prop :=
  exists before after, l = before ++ x :: after /\ name_of x = n /\
    forall y, y ∈ before -> name_of y <> n.

(** What the name [n] stands for among the declarations of module [M]: the
    first fn of that name; if there is no such fn, the first struct of that
    name; if there is no such struct either, the first alias of that name. *)
Definition first_declared (M : TextModule) (n : string) (e : Elem) : Prop :=
  (exists f, e = EFn f /\ first_named fn_name n (fns M) f) \/
  ((forall f, f ∈ fns M -> fn_name f <> n) /\
   exists s, e = EStruct s /\ first_named struct_name n (structs M) s) \/
  ((forall f, f ∈ fns M -> fn_name f <> n) /\
   (forall s, s ∈ structs M -> struct_name s <> n) /\
   exists a, e = EAlias a /\ first_named alias_name n (aliases M) a).

(** A declaration of the root module, as a ref. *)
Definition root_decl (srcModule : TextModule) (r : FoundRef) : Prop :=
  exists elem, r = TextRef (Some (elem_name elem)) srcModule elem None /\
    ((exists s, elem = EStruct s /\ s ∈ structs srcModule) \/
     (exists v, elem = EVar v /\ v ∈ vars srcModule) \/
     (exists f, elem = EFn f /\ f ∈ fns srcModule) \/
     (exists a, elem = EAlias a /\ a ∈ aliases srcModule)).

(** [fn f() { let x = insertBits(a, b, 0u, 1u); }] *)
Definition callsInsertBits : TextModule :=
  moduleOf "main" [fnOf "f" 0 [callTo "insertBits" 17]].

(** [struct S { p: P }  struct P { x: u32 }  var v: S;]: a var whose type is
    a struct whose member has a struct for its type. *)
Definition typeRefTo (name : string) (at_ : Z) : RefElem :=
  {| ref_kind := typeRef; ref_name := name; ref_start := at_; ref_end := at_ + 1 |}.

Definition structP : StructElem :=
  {| struct_name := "P";
     struct_nameElem := {| ne_name := "P"; ne_start := 27; ne_end := 28 |};
     members := Some [ {| member_name := "x"; member_typeRefs := [typeRefTo "u32" 34];
                          member_start := 31; member_end := 37 |} ];
     struct_start := 20; struct_end := 39 |}.

Definition structS : StructElem :=
  {| struct_name := "S";
     struct_nameElem := {| ne_name := "S"; ne_start := 7; ne_end := 8 |};
     members := Some [ {| member_name := "p"; member_typeRefs := [typeRefTo "P" 14];
                          member_start := 11; member_end := 15 |} ];
     struct_start := 0; struct_end := 17 |}.

Definition varV : VarElem :=
  {| var_name := "v";
     var_nameElem := {| ne_name := "v"; ne_start := 45; ne_end := 46 |};
     var_typeRefs := [typeRefTo "S" 48]; var_start := 41; var_end := 50 |}.

Definition varOfStruct : TextModule :=
  {| mod_name := "main"; fileName := None; fns := []; vars := [varV];
     structs := [structS; structP]; aliases := []; imports := [] |}.

(** An event that [elemRefs] may cause for [srcRef]: a user child bound to
    what it refers to, or reported as not found in the module of [srcRef]. *)
Definition child_event (srcRef : FoundRef) (ev : Event) : Prop :=
  match ev with
  | Bind e _ => user_child srcRef e
  | ModuleLog m pos msg =>
      exists e, user_child srcRef e /\ textExpMod srcRef = Some m /\
                pos = ref_start e /\ msg = "reference not found: " +:+ ref_name e
  | Visit _ => False
  end.

Section Children.
Context {ParsedRegistry : Type}.
Variable importResolveMap : ParsedRegistry -> TextModule -> ResolveMap.
Variable resolveImport : string -> ResolveMap -> option ResolvedExport.
Variable refFullName : FoundRef -> string.
Variable registry : ParsedRegistry.

(** The refs that [recursiveRefs] finds below a ref it recurses into: for a
    text ref, what [elemRefs] finds in its exporting module; nothing for a
    generator ref. *)
Definition children (r : FoundRef) : list FoundRef :=
  match textExpMod r with
  | Some expMod => fst (elemRefs importResolveMap resolveImport r expMod registry)
  | None => []
  end.

(** Refs among [Q] with the same full name have children with the same
    full names. *)
Definition names_agree (Q : FoundRef -> Prop) : Prop :=
  forall r r', Q r -> Q r' -> refFullName r = refFullName r' ->
    forall c, c ∈ children r -> refFullName c ∈ map refFullName (children r').

(** Every child of a ref among [Q] with full name [n] has its full name
    in [names]. *)
Definition closed_name (Q : FoundRef -> Prop) (n : string) (names : list string) : Prop :=
  forall r, Q r -> refFullName r = n ->
    forall c, c ∈ children r -> refFullName c ∈ names.

(** The ref to what an import resolves to, for a name written in module [M]
    in the element of [srcRef]. *)
Definition importedRef (srcRef : FoundRef) (M : TextModule) (res : ResolvedExport)
  : FoundRef :=
  let info := mkExportInfo srcRef (head (imports M)) (resolved_expImpArgs res) in
  match modExp res with
  | TextModuleExport m e => TextRef (last (callSegments res)) m e (Some info)
  | GeneratorModuleExport m g => GeneratorRef (last (callSegments res)) info m (gen_name g)
  end.

(** What the name [n] denotes when it is written in module [M] in the
    element of [srcRef]: nothing if it is an export parameter of the import
    chain of [srcRef]; what the imports of [M] resolve it to, if they
    resolve it; and else what it stands for among the declarations of
    [M]. *)
Definition denotes (srcRef : FoundRef) (M : TextModule) (n : string) (c : FoundRef)
  : Prop :=
  ~ is_export_param srcRef n /\
  match resolveImport n (importResolveMap registry M) with
  | Some res => c = importedRef srcRef M res
  | None => exists e, first_declared M n e /\ c = TextRef (Some n) M e None
  end.

(** An edge of the reference graph: the element of the text ref [srcRef],
    read in module [M], has a call or type reference to follow that denotes
    [c]. *)
Definition refersTo (srcRef : FoundRef) (M : TextModule) (c : FoundRef) : Prop :=
  match srcRef with
  | TextRef _ _ elem _ => exists e, refers elem e /\ denotes srcRef M (ref_name e) c
  | GeneratorRef _ _ _ _ => False
  end.

(** The refs of the reference graph that lie on a path from a declaration
    of the root module: what a root declaration refers to, and what a text
    ref on such a path refers to in its exporting module. *)
Inductive reaches (srcModule : TextModule) : FoundRef -> Prop :=
| reaches_root r c :
    root_decl srcModule r ->
    refersTo r srcModule c ->
    reaches srcModule c
| reaches_step r expMod c :
    reaches srcModule r ->
    textExpMod r = Some expMod ->
    refersTo r expMod c ->
    reaches srcModule c.

(** Refs on such paths that have the same full name refer to refs with the
    same full names. *)
Definition refs_agree (srcModule : TextModule) : Prop :=
  forall r r' M c,
    reaches srcModule r -> reaches srcModule r' ->
    refFullName r = refFullName r' ->
    textExpMod r = Some M -> refersTo r M c ->
    exists M' c', textExpMod r' = Some M' /\ refersTo r' M' c' /\
      refFullName c' = refFullName c.

End Children.

End TraverseRefsMore.

(* ===================================================================== *)
(** * Properties                                                          *)
(* ===================================================================== *)

Module SrcMapFacts.
Import SrcMapTs.

Lemma covers_spec p e :
  covers p e = true <-> destStart e <= p <= destEnd e.
Proof. unfold covers. rewrite andb_true_iff, Z.leb_le, Z.geb_le. lia. Qed.

Lemma destToSrc_Ok_iff p es :
  (exists r, destToSrc p es = Ok r) <-> (exists e, In e es /\ covers p e = true).
Proof.
  unfold destToSrc. split.
  - intros [r Hr]. destruct (List.find (covers p) es) as [e|] eqn:Hf; [|discriminate].
    apply find_some in Hf. eauto.
  - intros [e [Hin Hc]].
    destruct (List.find (covers p) es) as [e'|] eqn:Hf; [eauto|].
    exfalso. eapply find_none in Hf; eauto. congruence.
Qed.

Lemma mapR_Ok_iff {A B} (f : A -> result B) l :
  (exists bs, mapR f l = Ok bs) <-> Forall (fun a => exists b, f a = Ok b) l.
Proof.
  induction l as [|a l IH]; simpl.
  - split; [constructor | eauto].
  - split.
    + intros [bs H]. destruct (f a) as [b|] eqn:Hfa; [|discriminate].
      destruct (mapR f l) as [bs'|] eqn:Hl; [|discriminate].
      constructor; [eauto | apply IH; eauto].
    + intros H. inversion H as [|? ? [b Hb] Hl]; subst.
      apply IH in Hl as [bs Hbs]. rewrite Hb, Hbs. simpl. eauto.
Qed.

Lemma insert_by_Forall P key x l :
  Forall P (insert_by key x l) <-> P x /\ Forall P l.
Proof.
  induction l as [|y l IH]; simpl.
  - rewrite Forall_cons, Forall_nil. tauto.
  - destruct (key x <=? key y).
    + rewrite Forall_cons. tauto.
    + rewrite !Forall_cons, IH. tauto.
Qed.

Lemma sort_by_Forall P key l : Forall P (sort_by key l) <-> Forall P l.
Proof.
  induction l as [|x l IH]; simpl; [tauto|].
  rewrite insert_by_Forall, Forall_cons, IH. tauto.
Qed.

Lemma sort_by_ascending key l : ascending key l -> sort_by key l = l.
Proof.
  induction l as [|x l IH]; simpl; [reflexivity|].
  intros [Hx Hl]. rewrite IH by assumption.
  destruct l as [|y l']; simpl; [reflexivity|].
  apply Z.leb_le in Hx. now rewrite Hx.
Qed.

Lemma reproject_dest es1 e e' :
  reproject es1 e = Ok e' -> destStart e' = destStart e /\ destEnd e' = destEnd e.
Proof.
  unfold reproject. destruct (destToSrc (srcStart e) es1) as [a|]; [|discriminate].
  destruct (destToSrc (srcEnd e) es1) as [b|]; [|discriminate]. simpl.
  destruct (negb _); [discriminate|]. intros [= <-]. simpl. auto.
Qed.


(** *** C10: compaction *)

(** Where every entry is length preserving, [compact] leaves every lookup
    unchanged. *)
Lemma compact_loop_length_preserving p prev rest :
  Forall length_preserving (prev :: rest) ->
  destToSrc p (compact_loop prev rest) = destToSrc p (prev :: rest).
Proof.
  revert prev. induction rest as [|e rest IH]; intros prev Hwf; [reflexivity|].
  inversion Hwf as [|? ? [Hp1 Hp2] Hwf']; subst.
  inversion Hwf' as [|? ? [He1 He2] Hrest]; subst.
  simpl compact_loop.
  destruct (String.eqb (src e) (src prev) && (destEnd prev =? destStart e)
            && (srcEnd prev =? srcStart e)) eqn:Hc.
  - apply andb_true_iff in Hc as [Hc Hs]. apply andb_true_iff in Hc as [Hsrc Hd].
    apply String.eqb_eq in Hsrc. apply Z.eqb_eq in Hd, Hs.
    rewrite IH.
    2:{ constructor; [|assumption]. unfold length_preserving; simpl. lia. }
    unfold destToSrc. simpl. unfold covers at 1 3 4. simpl.
    destruct (Z.leb_spec (destStart prev) p), (Z.geb_spec (destEnd prev) p),
      (Z.leb_spec (destStart e) p), (Z.geb_spec (destEnd e) p);
      simpl; try lia; try reflexivity; rewrite ?Hsrc; f_equal; f_equal; lia.
  - unfold destToSrc in *. simpl. destruct (covers p prev); [reflexivity|].
    apply IH. assumption.
Qed.

Lemma compact_length_preserving (m : SrcMap) (ps : list Z) :
  Forall length_preserving (entries m) ->
  mapPositions (compact m) ps = mapPositions m ps.
Proof.
  intros Hwf. unfold mapPositions, compact.
  destruct (entries m) as [|e0 rest] eqn:Hm; [now rewrite Hm|]. simpl entries.
  induction ps as [|p ps IH]; simpl; [reflexivity|].
  now rewrite compact_loop_length_preserving, IH.
Qed.

(** C10 (the code at the failing input).  On [replaced_then_copied],
    destination position 7 maps to source position 4 before [compact] and to
    source position 7 after it: compaction changed an answer that
    [mapPositions] gave before. *)
Theorem compact_changes_mapPositions :
  mapPositions replaced_then_copied [7] = Ok [ {| pos_src := "s"; position := 4 |} ] /\
  mapPositions (compact replaced_then_copied) [7]
    = Ok [ {| pos_src := "s"; position := 7 |} ].
Proof. split; reflexivity. Qed.

(** *** C4: the source-map operations throw *)

(** C4 (counterexample).  [mapPositions] on a map that has no entry for the
    position throws to its caller. *)
Lemma mapPositions_throws :
  mapPositions {| entries := []; dest := "d" |} [5] = Throw (NoSrcMapEntryForDest 5).
Proof. reflexivity. Qed.

Lemma reproject_Ok_iff es1 e :
  (exists e', reproject es1 e = Ok e') <->
  (exists a b, destToSrc (srcStart e) es1 = Ok a /\ destToSrc (srcEnd e) es1 = Ok b
               /\ pos_src b = pos_src a).
Proof.
  unfold reproject. split.
  - intros [e' H]. destruct (destToSrc (srcStart e) es1) as [a|]; [|discriminate].
    destruct (destToSrc (srcEnd e) es1) as [b|]; [|discriminate]. simpl in H.
    destruct (String.eqb (pos_src b) (pos_src a)) eqn:Hs; [|discriminate].
    apply String.eqb_eq in Hs. eauto.
  - intros (a & b & -> & -> & Hs). simpl.
    apply String.eqb_eq in Hs. rewrite Hs. simpl. eauto.
Qed.

(** C4 (amended).  The source-map operations throw, and exactly in these
    cases: [destToSrc] (and so [mapPositions]) returns normally iff an entry
    covers every requested position; [merge] of two distinct maps returns
    normally iff for each entry of the other map whose src is this map's
    dest, both ends of its source range are covered by this map and are
    mapped to the same source text. *)
Theorem srcmap_operations_throw_exactly :
  (forall (m : SrcMap) (ps : list Z),
      (exists rs, mapPositions m ps = Ok rs) <->
      Forall (fun p => exists e, In e (entries m) /\ covers p e = true) ps) /\
  (forall (this other : SrcMap),
      (exists merged, snd (merge this other false) = Ok merged) <->
      Forall (fun e => src e = dest this ->
                exists a b, destToSrc (srcStart e) (entries this) = Ok a /\
                            destToSrc (srcEnd e) (entries this) = Ok b /\
                            pos_src b = pos_src a) (entries other)).
Proof.
  split.
  - intros m ps. unfold mapPositions. rewrite mapR_Ok_iff.
    apply Forall_iff. intros p. apply destToSrc_Ok_iff.
  - intros this other. unfold merge.
    set (mapped := List.filter _ (entries other)).
    assert (Hmapped : Forall (fun e => exists e', reproject (entries this) e = Ok e') mapped
              <-> Forall (fun e => src e = dest this ->
                    exists a b, destToSrc (srcStart e) (entries this) = Ok a /\
                                destToSrc (srcEnd e) (entries this) = Ok b /\
                                pos_src b = pos_src a) (entries other)).
    { subst mapped. rewrite !List.Forall_forall. split.
      - intros H e Hin Hsrc. apply reproject_Ok_iff. apply H.
        apply filter_In. split; [assumption|]. now apply String.eqb_eq.
      - intros H e Hin. apply filter_In in Hin as [Hin Hsrc].
        apply String.eqb_eq in Hsrc. apply reproject_Ok_iff. now apply H. }
    rewrite <- Hmapped. destruct mapped as [|e0 mapped'] eqn:Hm.
    + simpl. split; [constructor | eauto].
    + simpl snd. rewrite <- (sort_by_Forall _ srcStart), <- mapR_Ok_iff.
      unfold sortSrc.
      destruct (mapR (reproject (entries this)) (sort_by srcStart (e0 :: mapped')))
        as [new|]; simpl.
      * split; eauto.
      * split; intros [? ?]; discriminate.
Qed.

(** *** C3: merge against composition *)

(** An outer entry that spans two inner entries of one source text is not
    split either: the merged map sends position 7 to position 7 of "A", while
    the outer map followed by the inner map sends it to position 102. *)
Lemma merge_unsplit_same_source :
  mapPositions outer_one_range [7] = Ok [ {| pos_src := "mid"; position := 7 |} ] /\
  mapPositions inner_two_ranges [7] = Ok [ {| pos_src := "A"; position := 102 |} ] /\
  exists merged, merge inner_two_ranges outer_one_range false = ([], Ok merged) /\
    mapPositions merged [7] = Ok [ {| pos_src := "A"; position := 7 |} ].
Proof.
  split; [reflexivity|]. split; [reflexivity|].
  eexists. split; reflexivity.
Qed.


(** An outer entry that starts where two inner entries meet: the inner map
    looks the start up in its first entry and the positions after it in its
    second.  The merged map sends position 2 to position 7 of "A", the
    outer map followed by the inner map to position 102. *)
Lemma merge_start_on_boundary :
  mapPositions outer_from_boundary [2] = Ok [ {| pos_src := "mid"; position := 7 |} ] /\
  mapPositions inner_two_ranges [7] = Ok [ {| pos_src := "A"; position := 102 |} ] /\
  exists merged, merge inner_two_ranges outer_from_boundary false = ([], Ok merged) /\
    mapPositions merged [2] = Ok [ {| pos_src := "A"; position := 7 |} ].
Proof.
  split; [reflexivity|]. split; [reflexivity|].
  eexists. split; reflexivity.
Qed.

Lemma insert_by_Permutation key x l : insert_by key x l ≡ₚ x :: l.
Proof.
  induction l as [|y l IH]; simpl; [reflexivity|].
  destruct (key x <=? key y); [reflexivity|].
  rewrite IH. apply Permutation_swap.
Qed.

Lemma sort_by_Permutation key l : sort_by key l ≡ₚ l.
Proof.
  induction l as [|x l IH]; simpl; [reflexivity|].
  now rewrite insert_by_Permutation, IH.
Qed.

Lemma insert_by_ascending key x l : ascending key l -> ascending key (insert_by key x l).
Proof.
  induction l as [|y l IH]; simpl; [auto|]. intros [Hy Hl].
  destruct (Z.leb_spec (key x) (key y)).
  - simpl. auto.
  - specialize (IH Hl). destruct l as [|z l']; simpl in *.
    + split; [lia|auto].
    + destruct (Z.leb_spec (key x) (key z)); simpl in *; (split; [lia|]); auto.
Qed.

Lemma sort_by_is_ascending key l : ascending key (sort_by key l).
Proof. induction l; simpl; [exact I|]. now apply insert_by_ascending. Qed.






End SrcMapFacts.

Module ParserLoggingFacts.
Import ParserLogging.

Lemma lines_nonempty s : lines s <> [].
Proof.
  destruct s as [|c s]; simpl; [discriminate|].
  destruct (Ascii.eqb c newline); [discriminate|].
  destruct (lines s); discriminate.
Qed.

Lemma lineStarts_startsOf s i : i :: newlineEnds s i = startsOf (lines s) i.
Proof.
  revert i. induction s as [|c s IH]; intros i; simpl; [reflexivity|].
  specialize (IH (i + 1)).
  destruct (Ascii.eqb c newline); simpl.
  - rewrite IH. f_equal. f_equal. lia.
  - destruct (lines s) as [|l ls] eqn:Hl; [now apply lines_nonempty in Hl|].
    simpl in *. injection IH as IH. rewrite IH. f_equal. f_equal. lia.
Qed.

Lemma startsOf_length ls i : length (startsOf ls i) = length ls.
Proof. revert i. induction ls; intros; simpl; auto. Qed.

Lemma startsOf_lookup ls i k :
  (k < length ls)%nat -> startsOf ls i !! k = Some (lineStartFrom ls i k).
Proof.
  revert i k. induction ls as [|l ls IH]; intros i k Hk; simpl in Hk; [lia|].
  destruct k; simpl; [reflexivity|]. apply IH. lia.
Qed.

Lemma lineStartFrom_shift ls i d k :
  lineStartFrom ls (i + d) k = lineStartFrom ls i k + d.
Proof.
  revert i k. induction ls as [|l ls IH]; intros i k; destruct k; simpl; try reflexivity.
  rewrite <- IH. f_equal. lia.
Qed.

Lemma lineStartFrom_from0 ls i k :
  lineStartFrom ls i k = lineStartFrom ls 0 k + i.
Proof. now rewrite <- lineStartFrom_shift. Qed.

Lemma lineStartFrom_succ ls i k l :
  ls !! k = Some l ->
  lineStartFrom ls i (S k) = lineStartFrom ls i k + slen l + 1.
Proof.
  revert i k. induction ls as [|l0 ls IH]; intros i k Hk; [discriminate|].
  destruct k; simpl in *.
  - injection Hk as ->. destruct ls; reflexivity.
  - now apply IH.
Qed.

Lemma append_cons c a b : String c a +:+ b = String c (a +:+ b).
Proof. reflexivity. Qed.

Lemma append_nil b : EmptyString +:+ b = b.
Proof. reflexivity. Qed.

Lemma slen_append a b : slen (a +:+ b) = slen a + slen b.
Proof. induction a; simpl String.length; [reflexivity|]. lia. Qed.

(** Line [k] sits in the source between the text before it, which has the
    length [lineStart] gives, and either the end of the source or the
    newline that ends it. *)
Lemma lines_decompose s k l :
  lines s !! k = Some l ->
  no_newline l /\
  exists pre post, s = pre +:+ l +:+ post /\
    slen pre = lineStartFrom (lines s) 0 k /\
    ((S k = length (lines s) /\ post = EmptyString) \/
     ((S k < length (lines s))%nat /\ exists rest, post = String newline rest)).
Proof.
  revert k l. induction s as [|c s IH]; intros k l Hk; simpl in Hk.
  - destruct k; [|discriminate]. injection Hk as <-. split; [exact I|].
    exists EmptyString, EmptyString. simpl. auto.
  - simpl lines. destruct (Ascii.eqb c newline) eqn:Hc.
    + apply Ascii.eqb_eq in Hc. subst c. destruct k; simpl in Hk.
      * injection Hk as <-. split; [exact I|].
        exists EmptyString, (String newline s). simpl. split; [reflexivity|].
        split; [reflexivity|]. right. split; [|eauto].
        pose proof (lines_nonempty s). destruct (lines s); simpl; [congruence|lia].
      * destruct (IH _ _ Hk) as (Hnl & pre & post & Hs & Hlen & Hpost).
        split; [assumption|].
        exists (String newline pre), post. simpl. split; [rewrite ?append_cons, ?append_nil in *; congruence|].
        split.
        { rewrite (lineStartFrom_from0 _ (0 + _ + 1)). simpl String.length. lia. }
        destruct Hpost as [[H1 H2]|[H1 H2]]; [left|right]; split; auto; lia.
    + apply Ascii.eqb_neq in Hc.
      destruct (lines s) as [|l0 ls] eqn:Hl; [now apply lines_nonempty in Hl|].
      destruct k; simpl in Hk.
      * injection Hk as <-.
        destruct (IH 0%nat l0 eq_refl) as (Hnl & pre & post & Hs & Hlen & Hpost).
        simpl in Hlen. destruct pre; [|simpl in Hlen; lia].
        split; [simpl; auto|].
        exists EmptyString, post. simpl in *. split; [rewrite ?append_cons, ?append_nil in *; congruence|].
        split; [reflexivity|]. exact Hpost.
      * destruct (IH (S k) l Hk) as (Hnl & pre & post & Hs & Hlen & Hpost).
        split; [assumption|].
        exists (String c pre), post. simpl. split; [rewrite ?append_cons, ?append_nil in *; congruence|].
        split; [|exact Hpost]. simpl in Hlen.
        rewrite (lineStartFrom_from0 _ (0 + _ + 1)).
        rewrite (lineStartFrom_from0 _ (0 + _ + 1)) in Hlen.
        simpl String.length. lia.
Qed.

Lemma append_assoc a b c : (a +:+ b) +:+ c = a +:+ b +:+ c.
Proof. induction a; rewrite ?append_nil, ?append_cons; congruence. Qed.

Lemma substring_skip pre n s :
  String.substring (String.length pre) n (pre +:+ s) = String.substring 0 n s.
Proof. induction pre; rewrite ?append_nil, ?append_cons; simpl; auto. Qed.

Lemma substring_prefix m post :
  String.substring 0 (String.length m) (m +:+ post) = m.
Proof.
  induction m; rewrite ?append_nil, ?append_cons; simpl.
  - now destruct post.
  - now rewrite IHm.
Qed.

Lemma slice_middle pre mid post :
  slice (pre +:+ mid +:+ post) (slen pre) (slen pre + slen mid) = mid.
Proof.
  unfold slice, clampIndex. rewrite !slen_append.
  destruct (Z.ltb_spec (slen pre) 0); [lia|].
  destruct (Z.ltb_spec (slen pre + slen mid) 0); [lia|].
  rewrite !Z.min_l by lia. rewrite Nat2Z.id.
  replace (Z.to_nat (slen pre + slen mid - slen pre)) with (String.length mid) by lia.
  rewrite (substring_skip pre). apply substring_prefix.
Qed.

Lemma slen_line_nl l : slen (l +:+ nl) = slen l + 1.
Proof. rewrite slen_append. reflexivity. Qed.

Lemma slice_last_newline l : slice_from (l +:+ nl) (-1) = nl.
Proof.
  unfold slice_from, slice, clampIndex. rewrite slen_line_nl.
  change (-1 <? 0) with true. cbv iota.
  destruct (Z.ltb_spec (slen l + 1) 0); [lia|].
  rewrite Z.max_l, Z.min_l by lia.
  replace (Z.to_nat (slen l + 1 + -1)) with (String.length l) by lia.
  replace (Z.to_nat (slen l + 1 - (slen l + 1 + -1))) with 1%nat by lia.
  rewrite (substring_skip l). reflexivity.
Qed.

Lemma slice_drop_newline l : slice (l +:+ nl) 0 (-1) = l.
Proof.
  unfold slice, clampIndex. rewrite slen_line_nl.
  change (-1 <? 0) with true. change (0 <? 0) with false. cbv iota.
  rewrite Z.max_l, Z.min_l by lia.
  replace (Z.to_nat (slen l + 1 + -1 - 0)) with (String.length l) by lia.
  change (Z.to_nat 0) with 0%nat. apply substring_prefix.
Qed.

Lemma substring_last_no_newline l :
  no_newline l ->
  String.substring (String.length l - 1) 1 l <> nl.
Proof.
  induction l as [|c l IH]; simpl; [discriminate|].
  intros [Hc Hl]. destruct l as [|c' l'].
  - simpl. unfold nl. congruence.
  - simpl String.length in *. replace (S (String.length l') - 0)%nat
      with (S (String.length l' - 0)) by lia.
    simpl in IH. rewrite Nat.sub_0_r in *. now apply IH.
Qed.

Lemma slice_last_no_newline l : no_newline l -> slice_from l (-1) <> nl.
Proof.
  intros H. unfold slice_from, slice, clampIndex.
  change (-1 <? 0) with true. cbv iota.
  destruct (Z.ltb_spec (slen l) 0); [lia|]. rewrite Z.min_l by lia.
  destruct l as [|c l'] eqn:Hl; [simpl; discriminate|]. rewrite <- Hl in *.
  assert (0 < slen l) by (subst l; simpl String.length; lia).
  rewrite Z.max_l by lia.
  replace (Z.to_nat (slen l + -1)) with (String.length l - 1)%nat by lia.
  replace (Z.to_nat (slen l - (slen l + -1))) with 1%nat by lia.
  now apply substring_last_no_newline.
Qed.

Lemma toInt32_small x : 0 <= x < 2 ^ 31 -> toInt32 x = x.
Proof. intros H. unfold toInt32. rewrite Z.mod_small; lia. Qed.

Lemma arr_get_lookup arr k : arr_get arr (Z.of_nat k) = arr !! k.
Proof.
  unfold arr_get. destruct (Z.ltb_spec (Z.of_nat k) 0); [lia|]. now rewrite Nat2Z.id.
Qed.

Lemma arr_get_in_range (arr : list Z) i :
  0 <= i < Z.of_nat (length arr) -> exists x, arr_get arr i = Some x.
Proof.
  intros H. unfold arr_get. destruct (Z.ltb_spec i 0); [lia|].
  destruct (lookup_lt_is_Some_2 arr (Z.to_nat i)) as [x Hx]; [lia|]. eauto.
Qed.

(** The loop ends within its fuel, between two adjacent starts that
    enclose [pos]. *)
Lemma search_spec fuel starts pos :
  Z.of_nat (length starts) <= 2 ^ 30 ->
  forall s e xs xe,
  0 <= s < e -> e < Z.of_nat (length starts) ->
  arr_get starts s = Some xs -> arr_get starts e = Some xe ->
  xs <= pos < xe ->
  (Z.to_nat (e - s) <= fuel)%nat ->
  exists k a b, search fuel starts pos s e = Some k /\ s <= k < e /\
    arr_get starts k = Some a /\ arr_get starts (k + 1) = Some b /\ a <= pos < b.
Proof.
  intros Hlen. induction fuel as [|fuel IH]; intros s e xs xe Hse He Hs Hxe Hpos Hfuel.
  - lia.
  - simpl. destruct (Z.ltb_spec (s + 1) e) as [Hlt|Hge].
    + rewrite toInt32_small by lia. rewrite Z.shiftr_div_pow2 by lia.
      change (2 ^ 1) with 2.
      assert (Hmid : s < (s + e) / 2 < e).
      { Z.div_mod_to_equations. lia. }
      destruct (arr_get_in_range starts ((s + e) / 2)) as [xm Hxm]; [lia|].
      rewrite Hxm. cbn. destruct (Z.geb_spec pos xm).
      * destruct (IH ((s + e) / 2) e xm xe) as (k & a & b & Hk & Hr & Ha & Hb & Hab);
          try assumption; try lia.
        exists k, a, b. repeat split; try assumption; lia.
      * destruct (IH s ((s + e) / 2) xs xm) as (k & a & b & Hk & Hr & Ha & Hb & Hab);
          try assumption; try lia.
        exists k, a, b. repeat split; try assumption; lia.
    + assert (e = s + 1) by lia. subst e.
      exists s, xs, xe. repeat split; try assumption; lia.
Qed.

Lemma search_done fuel starts pos s e :
  e <= s + 1 -> search fuel starts pos s e = Some s.
Proof.
  intros H. destruct fuel; simpl; destruct (Z.ltb_spec (s + 1) e); try lia; reflexivity.
Qed.

Lemma lines_length s : (length (lines s) <= String.length s + 1)%nat.
Proof.
  induction s as [|c s IH]; simpl; [lia|].
  destruct (Ascii.eqb c newline); simpl; [lia|].
  destruct (lines s); simpl in *; lia.
Qed.

Lemma cache_ok_empty : cache_ok ∅.
Proof. intros s l H. rewrite lookup_empty in H. discriminate. Qed.

Lemma getStarts_ok src (c : gmap string (list Z)) :
  cache_ok c ->
  getStarts src c = (lineStarts src, <[src := lineStarts src]> c) /\
  cache_ok (<[src := lineStarts src]> c).
Proof.
  intros Hc. split.
  - unfold getStarts. destruct (c !! src) as [found|] eqn:Hf; [|reflexivity].
    pose proof (Hc _ _ Hf) as ->. now rewrite insert_id.
  - intros s l. destruct (decide (src = s)) as [->|Hne].
    + rewrite lookup_insert_eq. congruence.
    + rewrite lookup_insert_ne by assumption. apply Hc.
Qed.

(** The reads, the search and the two slices of [srcLine], on the array of
    line starts of [src]. *)
Lemma srcLine_on_lineStarts src p (c : gmap string (list Z)) :
  c !! src = Some (lineStarts src) ->
  0 <= p <= slen src -> slen src < 2 ^ 30 ->
  exists k l,
    srcLine src p c
      = (Some {| line := l; linePos := p - lineStart src k; lineNum := Z.of_nat k + 1 |}, c) /\
    lines src !! k = Some l /\
    lineStart src k <= p <= lineStart src k + slen l.
Proof.
  intros Hc Hp Hlen. unfold srcLine, getStarts. rewrite Hc.
  unfold lineStarts, lineStart. rewrite lineStarts_startsOf.
  set (ls := lines src). set (starts := startsOf ls 0).
  assert (Hn : length starts = length ls) by apply startsOf_length.
  assert (Hpos : (0 < length ls)%nat).
  { pose proof (lines_nonempty src). subst ls. destruct (lines src); simpl; [congruence|lia]. }
  assert (Hle : Z.of_nat (length ls) <= 2 ^ 30).
  { pose proof (lines_length src). subst ls. lia. }
  assert (Hget : forall k : nat, (k < length ls)%nat ->
            arr_get starts (Z.of_nat k) = Some (lineStartFrom ls 0 k)).
  { intros k Hk. rewrite arr_get_lookup. now apply startsOf_lookup. }
  rewrite Hn.
  replace (Z.of_nat (length ls) - 1) with (Z.of_nat (length ls - 1)) by lia.
  rewrite Hget by lia. cbn [mbind option_bind].
  (* the index [k] the search settles on *)
  assert (Hsearch : exists k : nat, (k < length ls)%nat /\
            search (length ls) starts p
              (if p >=? lineStartFrom ls 0 (length ls - 1)
               then Z.of_nat (length ls - 1) else 0) (Z.of_nat (length ls - 1))
              = Some (Z.of_nat k) /\
            lineStartFrom ls 0 k <= p /\
            ((S k < length ls)%nat -> p < lineStartFrom ls 0 (S k))).
  { destruct (Z.geb_spec p (lineStartFrom ls 0 (length ls - 1))) as [Hge|Hlt].
    - exists (length ls - 1)%nat. split; [lia|]. split; [apply search_done; lia|].
      split; [assumption|]. intros; lia.
    - assert (length ls - 1 <> 0)%nat.
      { intros E. rewrite E in Hlt. destruct ls; simpl in Hlt; lia. }
      destruct (search_spec (length ls) starts p ltac:(lia) 0 (Z.of_nat (length ls - 1))
                  (lineStartFrom ls 0 0) (lineStartFrom ls 0 (length ls - 1)))
        as (k & a & b & Hk & Hr & Ha & Hb & Hab); try lia.
      + apply (Hget 0%nat). lia.
      + apply Hget. lia.
      + split; [destruct ls; simpl; lia | assumption].
      + exists (Z.to_nat k). rewrite Z2Nat.id by lia. split; [lia|]. split; [assumption|].
        rewrite <- (Z2Nat.id k) in Ha, Hb by lia.
        replace (Z.of_nat (Z.to_nat k) + 1) with (Z.of_nat (S (Z.to_nat k))) in Hb by lia.
        rewrite Hget in Ha, Hb by lia. injection Ha as <-. injection Hb as <-.
        split; [lia|]. intros _. lia. }
  destruct Hsearch as (k & Hk & -> & Hlo & Hhi). cbn [mbind option_bind].
  rewrite Hget by assumption. cbn [mbind option_bind].
  destruct (lookup_lt_is_Some_2 ls k Hk) as [l Hl].
  exists k, l. split; [|split; [assumption|]].
  - destruct (lines_decompose src k l Hl) as (Hnl & pre & post & Hsrc & Hpre & Hpost).
    fold ls in Hpre, Hpost. f_equal. f_equal. f_equal.
    destruct Hpost as [[Hlast ->]|[Hnext [rest ->]]].
    + (* the last line: it runs to the end of the source *)
      replace (arr_get starts (Z.of_nat k + 1)) with (@None Z).
      2:{ symmetry. replace (Z.of_nat k + 1) with (Z.of_nat (S k)) by lia.
          rewrite arr_get_lookup. apply lookup_ge_None. lia. }
      assert (Hs1 : slen src = slen pre + slen l).
      { rewrite Hsrc, !slen_append. change (slen EmptyString) with 0. lia. }
      assert (Hs2 : slice src (slen pre) (slen pre + slen l) = l).
      { rewrite Hsrc. apply slice_middle. }
      rewrite <- Hpre, Hs1, Hs2. fold nl.
      destruct (String.eqb_spec (slice_from l (-1)) nl) as [E|_]; [|reflexivity].
      now apply slice_last_no_newline in E.
    + (* an inner line: it runs through its newline *)
      replace (Z.of_nat k + 1) with (Z.of_nat (S k)) by lia.
      rewrite Hget by assumption.
      rewrite (lineStartFrom_succ ls 0 k l Hl).
      destruct (Z.eqb_spec (lineStartFrom ls 0 k + slen l + 1) 0) as [E|_]; [lia|].
      assert (Hs2 : slice src (slen pre) (slen pre + slen l + 1) = l +:+ nl).
      { replace (slen pre + slen l + 1) with (slen pre + slen (l +:+ nl))
          by (rewrite slen_line_nl; lia).
        rewrite Hsrc. unfold nl at 1.
        replace (pre +:+ l +:+ String newline rest) with (pre +:+ (l +:+ nl) +:+ rest)
          by (unfold nl; now rewrite append_assoc, append_cons, append_nil).
        apply slice_middle. }
      rewrite <- Hpre, Hs2.
      fold nl. rewrite slice_last_newline, String.eqb_refl. apply slice_drop_newline.
  - split; [assumption|].
    destruct (lines_decompose src k l Hl) as (Hnl & pre & post & Hsrc & Hpre & Hpost).
    fold ls in Hpre, Hpost. destruct Hpost as [[Hlast ->]|[Hnext _]].
    + rewrite <- Hpre. rewrite Hsrc in Hp. rewrite !slen_append in Hp.
      change (slen EmptyString) with 0 in Hp. lia.
    + specialize (Hhi Hnext). rewrite (lineStartFrom_succ ls 0 k l Hl) in Hhi. lia.
Qed.

(** C9.  For a source of fewer than 2^30 characters (so that the sum of two
    line indexes fits the 32-bit operand of [>>]) and a position p with
    0 <= p <= src.length, [srcLine] returns line k of the source without its
    newline, where line k is the one whose range of positions, its newline
    included, holds p; lineNum is k counted from 1 and linePos is p minus the
    position where line k starts.  The call leaves the array of line starts
    in the cache under src, and a later call for the same src finds it there,
    returns the same answer and leaves the cache as it is.  The array is
    reused, not computed again: whatever array the cache holds for src,
    [getStarts] returns that very array and leaves the cache as it is, and
    [srcLine] answers from it. *)
Theorem srcLine_finds_line (src : string) (p : Z) (startCache : gmap string (list Z)) :
  cache_ok startCache ->
  0 <= p <= slen src ->
  slen src < 2 ^ 30 ->
  exists (k : nat) (l : string),
    let found := {| line := l; linePos := p - lineStart src k; lineNum := Z.of_nat k + 1 |} in
    let startCache' := <[src := lineStarts src]> startCache in
    srcLine src p startCache = (Some found, startCache') /\
    lines src !! k = Some l /\
    lineStart src k <= p <= lineStart src k + slen l /\
    startCache' !! src = Some (lineStarts src) /\
    getStarts src startCache' = (lineStarts src, startCache') /\
    srcLine src p startCache' = (Some found, startCache') /\
    (forall (held : gmap string (list Z)) (arr : list Z),
       held !! src = Some arr ->
       getStarts src held = (arr, held) /\
       snd (srcLine src p held) = held /\
       forall other : gmap string (list Z),
         other !! src = Some arr ->
         fst (srcLine src p other) = fst (srcLine src p held)).
Proof.
  intros Hc Hp Hlen.
  destruct (getStarts_ok src startCache Hc) as [Hget Hc'].
  set (c' := <[src := lineStarts src]> startCache) in *.
  assert (Hin : c' !! src = Some (lineStarts src)) by apply lookup_insert_eq.
  destruct (srcLine_on_lineStarts src p c' Hin Hp Hlen) as (k & l & Hline & Hl & Hrange).
  assert (Hget' : getStarts src c' = (lineStarts src, c')).
  { unfold getStarts. now rewrite Hin. }
  exists k, l. cbv zeta.
  split; [unfold srcLine in *; rewrite Hget; now rewrite Hget' in Hline|].
  split; [assumption|]. split; [assumption|]. split; [assumption|].
  split; [assumption|]. split; [assumption|].
  intros held arr Hheld. split; [unfold getStarts; now rewrite Hheld|].
  split; [unfold srcLine, getStarts; now rewrite Hheld|].
  intros other Hother. unfold srcLine, getStarts. now rewrite Hheld, Hother.
Qed.

(** The theorem at a source of two lines, position 4, and an empty cache. *)
Lemma srcLine_finds_line_witness :
  exists (k : nat) (l : string),
    let src := "ab" +:+ nl +:+ "cde" +:+ nl in
    let found := {| line := l; linePos := 4 - lineStart src k; lineNum := Z.of_nat k + 1 |} in
    let startCache' := <[src := lineStarts src]> (∅ : gmap string (list Z)) in
    srcLine src 4 ∅ = (Some found, startCache') /\
    lines src !! k = Some l /\
    lineStart src k <= 4 <= lineStart src k + slen l /\
    startCache' !! src = Some (lineStarts src) /\
    getStarts src startCache' = (lineStarts src, startCache') /\
    srcLine src 4 startCache' = (Some found, startCache') /\
    (forall (held : gmap string (list Z)) (arr : list Z),
       held !! src = Some arr ->
       getStarts src held = (arr, held) /\
       snd (srcLine src 4 held) = held /\
       forall other : gmap string (list Z),
         other !! src = Some arr ->
         fst (srcLine src 4 other) = fst (srcLine src 4 held)).
Proof.
  apply (srcLine_finds_line ("ab" +:+ nl +:+ "cde" +:+ nl) 4 ∅).
  - intros s l H. rewrite lookup_empty in H. discriminate.
  - vm_compute. split; discriminate.
  - reflexivity.
Defined.

End ParserLoggingFacts.

Module MatchingLexerFacts.
Import MatchingLexer.

Lemma same_frame_refl a : same_frame a a.
Proof. repeat split. Qed.

Lemma same_frame_trans a b c : same_frame a b -> same_frame b c -> same_frame a c.
Proof. unfold same_frame. intuition congruence. Qed.

Lemma set_matchers_frame lx ms : same_frame (set_matchers lx ms) lx.
Proof. repeat split. Qed.

Section Frames.
Context {T : Type}.
Variable tokenNext : MatcherRef -> string -> Z -> option (Token * Z).

Lemma matcher_next_frame m lx tok lx' :
  matcher_next tokenNext m lx = (tok, lx') -> same_frame lx' lx.
Proof.
  unfold matcher_next. destruct (tokenNext _ _ _) as [[t p]|]; intros [= <- <-].
  - apply set_matchers_frame.
  - apply same_frame_refl.
Qed.

Lemma next_loop_frame fuel token lx token' lx' :
  next_loop tokenNext fuel token lx = Some (token', lx') -> same_frame lx' lx.
Proof.
  revert token lx. induction fuel as [|fuel IH]; intros token lx; simpl;
    destruct token as [tok|]; try (intros [= <- <-]; apply same_frame_refl);
    destruct (bool_decide _); try discriminate;
    try (intros [= <- <-]; apply same_frame_refl).
  destruct (eof lx); [intros [= <- <-]; apply same_frame_refl|].
  destruct (matcher_next tokenNext (matcher lx) lx) as [t1 lx1] eqn:Hn.
  intros H. apply IH in H. apply matcher_next_frame in Hn.
  eapply same_frame_trans; eassumption.
Qed.

Lemma next_frame fuel lx token lx' :
  next tokenNext fuel lx = Returned token lx' -> same_frame lx' lx.
Proof.
  unfold next. destruct (eof lx); [intros [= <- <-]; apply same_frame_refl|].
  destruct (matcher_next tokenNext (matcher lx) lx) as [t1 lx1] eqn:Hn.
  destruct (next_loop tokenNext fuel t1 lx1) as [[t2 lx2]|] eqn:Hl; [|discriminate].
  intros [= <- <-]. apply next_loop_frame in Hl. apply matcher_next_frame in Hn.
  eapply same_frame_trans; eassumption.
Qed.

Lemma next_never_throws fuel lx lx' : next tokenNext fuel lx <> Threw lx'.
Proof.
  unfold next. destruct (eof lx); [discriminate|].
  destruct (matcher_next tokenNext (matcher lx) lx) as [t1 lx1].
  destruct (next_loop tokenNext fuel t1 lx1) as [[t2 lx2]|]; discriminate.
Qed.

Lemma position_frame pos lx p lx' :
  position pos lx = (p, lx') -> same_frame lx' lx.
Proof.
  unfold position. intros [= _ <-]. destruct pos; [apply set_matchers_frame|].
  apply same_frame_refl.
Qed.

(** [popMatcher] on a stack that is not empty: the top frame becomes the
    matcher and ignore set in use, its matcher gets the position of the
    matcher that was in use, and nothing is written to the console. *)
Lemma popMatcher_frames lx elem rest :
  matcherStack lx = elem :: rest ->
  frames (popMatcher lx) = elem :: rest /\
  src (popMatcher lx) = src lx /\
  console (popMatcher lx) = console lx /\
  matcher_position (matcher (popMatcher lx)) (popMatcher lx)
    = matcher_position (matcher lx) lx.
Proof.
  intros Hs. unfold popMatcher. rewrite Hs. destruct elem as [em ei]. simpl.
  repeat split. unfold matcher_position, matcher_set_position, store_set. simpl.
  now rewrite Nat.eqb_refl.
Qed.

Lemma frames_pushMatcher tokenMatcher newIgnore lx :
  frames (pushMatcher tokenMatcher newIgnore lx)
    = {| elem_matcher := tokenMatcher; elem_ignore := newIgnore |} :: frames lx.
Proof. reflexivity. Qed.

Lemma grown_refl a : grown a a.
Proof. split; [reflexivity|]. now exists []. Qed.

Lemma grown_trans a b c : grown a b -> grown b c -> grown a c.
Proof.
  intros [Hs1 [e1 H1]] [Hs2 [e2 H2]]. split; [congruence|].
  exists (e2 ++ e1). now rewrite H2, H1, app_assoc.
Qed.

Lemma same_frame_grown a b : same_frame b a -> grown a b.
Proof.
  intros (Hsrc & Hm & Hi & Hs). split; [exact Hsrc|]. exists []. unfold frames.
  simpl. now rewrite Hm, Hi, Hs.
Qed.

Lemma frames_eq_same_frame a b : src b = src a -> frames b = frames a -> same_frame b a.
Proof. unfold frames. intros Hsrc [= Hm Hi Hs]. repeat split; assumption. Qed.

(** Popping the lexer a callback left, when the callback began right after
    a push: the frames from before the push are all still there. *)
Lemma pop_of_grown tokenMatcher newIgnore lx l2 :
  grown (pushMatcher tokenMatcher newIgnore lx) l2 ->
  grown lx (popMatcher l2) /\
  console (popMatcher l2) = console l2 /\
  matcher_position (matcher (popMatcher l2)) (popMatcher l2)
    = matcher_position (matcher l2) l2 /\
  (matcherStack l2 = matcherStack (pushMatcher tokenMatcher newIgnore lx) ->
     frames (popMatcher l2) = frames lx /\
     matcher l2 = tokenMatcher /\ ignore l2 = newIgnore) /\
  (matcherStack l2 <> matcherStack (pushMatcher tokenMatcher newIgnore lx) ->
     (length (matcherStack lx) < length (matcherStack (popMatcher l2)))%nat).
Proof.
  intros [Hsrc [extra Hf]]. rewrite frames_pushMatcher in Hf.
  assert (Hstack : exists elem rest, matcherStack l2 = elem :: rest /\
            (extra = [] -> elem :: rest = frames lx) /\
            (forall x xs, extra = x :: xs ->
               elem :: rest
                 = xs ++ {| elem_matcher := tokenMatcher; elem_ignore := newIgnore |}
                      :: frames lx)).
  { destruct extra as [|x xs]; simpl in Hf;
      [injection Hf as _ _ Hs|injection Hf as _ Hs].
    - exists {| elem_matcher := matcher lx; elem_ignore := ignore lx |}, (matcherStack lx).
      split; [exact Hs|]. split; [reflexivity|discriminate].
    - destruct xs as [|y ys]; simpl in Hs.
      + exists {| elem_matcher := tokenMatcher; elem_ignore := newIgnore |}, (frames lx).
        split; [exact Hs|]. split; [discriminate|]. now intros ? ? [= <- <-].
      + exists y, (ys ++ {| elem_matcher := tokenMatcher; elem_ignore := newIgnore |}
                     :: frames lx).
        split; [exact Hs|]. split; [discriminate|]. now intros ? ? [= <- <-]. }
  destruct Hstack as (elem & rest & Hs & Hnil & Hcons).
  destruct (popMatcher_frames l2 elem rest Hs) as (Hpf & Hps & Hpc & Hpp).
  split; [|split; [exact Hpc|split; [exact Hpp|split]]].
  - split; [simpl in Hsrc; congruence|]. rewrite Hpf.
    destruct extra as [|x xs].
    + exists []. now rewrite (Hnil eq_refl).
    + exists (xs ++ [ {| elem_matcher := tokenMatcher; elem_ignore := newIgnore |} ]).
      rewrite (Hcons x xs eq_refl), <- app_assoc. reflexivity.
  - intros Hsame. simpl in Hsame. destruct extra as [|x xs].
    + rewrite Hpf, (Hnil eq_refl). split; [reflexivity|].
      simpl in Hf. injection Hf as Hm Hi _. now split.
    + exfalso. rewrite Hs, (Hcons x xs eq_refl) in Hsame.
      apply (f_equal length) in Hsame. rewrite length_app in Hsame. simpl in Hsame.
      unfold frames in Hsame. simpl in Hsame. lia.
  - intros Hdiff. destruct extra as [|x xs].
    + exfalso. apply Hdiff. simpl. rewrite Hs. exact (Hnil eq_refl).
    + assert (Hlen : length (frames (popMatcher l2))
                     = length (xs ++ {| elem_matcher := tokenMatcher;
                                        elem_ignore := newIgnore |} :: frames lx))
        by (now rewrite Hpf, (Hcons x xs eq_refl)).
      rewrite length_app in Hlen. unfold frames in Hlen. simpl in Hlen. lia.
Qed.

(** However code ends, by returning or by throwing, it has left every frame
    it found where it was: frames are only ever added on top. *)
Lemma run_grown fuel (c : Code T) lx :
  match run tokenNext fuel c lx with
  | Returned _ lx' => grown lx lx'
  | Threw lx' => grown lx lx'
  | Running => True
  end.
Proof.
  revert lx.
  induction c as [v0| |k IH|pos k IH|k IH|m fn IHfn k IHk|i fn IHfn k IHk|m pos k IH
                 |body IHb handler IHh k IHk];
    intros lx; simpl.
  - apply grown_refl.
  - apply grown_refl.
  - destruct (next tokenNext fuel lx) as [tok l1|l1|] eqn:Hn; simpl;
      [|now apply next_never_throws in Hn|exact I].
    apply next_frame, same_frame_grown in Hn. specialize (IH tok l1).
    destruct (run tokenNext fuel (k tok) l1); try exact I; eapply grown_trans; eassumption.
  - destruct (position pos lx) as [p l1] eqn:Hp.
    apply position_frame, same_frame_grown in Hp. unfold position in *.
    specialize (IH (matcher_position (matcher match pos with
                      | Some p => matcher_start (matcher lx) (src lx) p lx
                      | None => lx
                      end)
                      match pos with
                      | Some p => matcher_start (matcher lx) (src lx) p lx
                      | None => lx
                      end)
                   match pos with
                   | Some p => matcher_start (matcher lx) (src lx) p lx
                   | None => lx
                   end).
    assert (Hg : grown lx match pos with
                   | Some p => matcher_start (matcher lx) (src lx) p lx
                   | None => lx
                   end) by (destruct pos; [apply same_frame_grown, set_matchers_frame
                                          |apply grown_refl]).
    destruct (run tokenNext fuel _ _); try exact I; eapply grown_trans; eassumption.
  - apply IH.
  - unfold withMatcher, withMatcherIgnore.
    specialize (IHfn (pushMatcher m (ignore lx) lx)).
    destruct (run tokenNext fuel fn (pushMatcher m (ignore lx) lx)) as [r l2|l2|]; simpl;
      [| |exact I].
    + apply pop_of_grown in IHfn as [Hg _]. specialize (IHk r (popMatcher l2)).
      destruct (run tokenNext fuel (k r) (popMatcher l2)); try exact I;
        eapply grown_trans; eassumption.
    + destruct IHfn as [Hsrc [extra Hf]]. split; [exact Hsrc|].
      rewrite frames_pushMatcher in Hf.
      exists (extra ++ [ {| elem_matcher := m; elem_ignore := ignore lx |} ]).
      now rewrite <- app_assoc.
  - unfold withIgnore, withMatcherIgnore.
    specialize (IHfn (pushMatcher (matcher lx) i lx)).
    destruct (run tokenNext fuel fn (pushMatcher (matcher lx) i lx)) as [r l2|l2|]; simpl;
      [| |exact I].
    + apply pop_of_grown in IHfn as [Hg _]. specialize (IHk r (popMatcher l2)).
      destruct (run tokenNext fuel (k r) (popMatcher l2)); try exact I;
        eapply grown_trans; eassumption.
    + destruct IHfn as [Hsrc [extra Hf]]. split; [exact Hsrc|].
      rewrite frames_pushMatcher in Hf.
      exists (extra ++ [ {| elem_matcher := matcher lx; elem_ignore := i |} ]).
      now rewrite <- app_assoc.
  - specialize (IH (matcher_set_position m pos lx)).
    assert (Hg : grown lx (matcher_set_position m pos lx))
      by apply same_frame_grown, set_matchers_frame.
    destruct (run tokenNext fuel k _); try exact I; eapply grown_trans; eassumption.
  - specialize (IHb lx).
    destruct (run tokenNext fuel body lx) as [v l1|l1|]; [| |exact I].
    + specialize (IHk v l1).
      destruct (run tokenNext fuel (k v) l1); try exact I; eapply grown_trans; eassumption.
    + specialize (IHh l1).
      destruct (run tokenNext fuel handler l1) as [w l2|l2|]; simpl;
        [|eapply grown_trans; eassumption|exact I].
      specialize (IHk w l2). pose proof (grown_trans _ _ _ IHb IHh) as Hg.
      destruct (run tokenNext fuel (k w) l2); try exact I;
        eapply grown_trans; eassumption.
Qed.

(** Code without [try]/[catch] that returns has left the frames as it found
    them. *)
Lemma run_frame fuel (c : Code T) lx v lx' :
  catch_free c ->
  run tokenNext fuel c lx = Returned v lx' -> same_frame lx' lx.
Proof.
  revert lx v lx'.
  induction c as [v0| |k IH|pos k IH|k IH|m fn IHfn k IHk|i fn IHfn k IHk|m pos k IH
                 |body IHb handler IHh k IHk];
    intros lx v lx' Hfree; simpl in *.
  - intros [= <- <-]. apply same_frame_refl.
  - discriminate.
  - destruct (next tokenNext fuel lx) as [tok l1| |] eqn:Hn; simpl; try discriminate.
    intros H. apply IH in H; [|apply Hfree]. apply next_frame in Hn.
    eapply same_frame_trans; eassumption.
  - intros H. apply IH in H; [|apply Hfree]. eapply same_frame_trans; [exact H|].
    destruct pos; [apply set_matchers_frame | apply same_frame_refl].
  - apply IH, Hfree.
  - destruct Hfree as [Hfn Hk]. unfold withMatcher, withMatcherIgnore.
    pose proof (run_grown fuel fn (pushMatcher m (ignore lx) lx)) as Hg.
    destruct (run tokenNext fuel fn (pushMatcher m (ignore lx) lx)) as [r l2| |] eqn:Hrun;
      simpl; try discriminate.
    intros H. apply IHk in H; [|apply Hk]. eapply same_frame_trans; [exact H|].
    apply IHfn in Hrun; [|exact Hfn].
    destruct (pop_of_grown _ _ _ _ Hg) as ([Hsrc _] & _ & _ & Hsame & _).
    destruct Hrun as (_ & _ & _ & Hs). destruct (Hsame Hs) as [Hf _].
    now apply frames_eq_same_frame.
  - destruct Hfree as [Hfn Hk]. unfold withIgnore, withMatcherIgnore.
    pose proof (run_grown fuel fn (pushMatcher (matcher lx) i lx)) as Hg.
    destruct (run tokenNext fuel fn (pushMatcher (matcher lx) i lx)) as [r l2| |] eqn:Hrun;
      simpl; try discriminate.
    intros H. apply IHk in H; [|apply Hk]. eapply same_frame_trans; [exact H|].
    apply IHfn in Hrun; [|exact Hfn].
    destruct (pop_of_grown _ _ _ _ Hg) as ([Hsrc _] & _ & _ & Hsame & _).
    destruct Hrun as (_ & _ & _ & Hs). destruct (Hsame Hs) as [Hf _].
    now apply frames_eq_same_frame.
  - intros H. apply IH in H; [|exact Hfree]. eapply same_frame_trans; [exact H|].
    apply set_matchers_frame.
  - destruct Hfree.
Qed.

(** What a call [withMatcherIgnore(tokenMatcher, newIgnore, fn)] leaves
    behind, for every callback. *)
Lemma withMatcherIgnore_exit fuel tokenMatcher newIgnore (fn : Code T) lx :
  (forall result lx',
     withMatcherIgnore tokenMatcher newIgnore (run tokenNext fuel fn) lx
       = Returned result lx' ->
     exists lx_exit,
       run tokenNext fuel fn (pushMatcher tokenMatcher newIgnore lx)
         = Returned result lx_exit /\
       lx' = popMatcher lx_exit /\
       matcher_position (matcher lx') lx' = matcher_position (matcher lx_exit) lx_exit /\
       (matcherStack lx_exit = matcherStack (pushMatcher tokenMatcher newIgnore lx) ->
          matcher lx_exit = tokenMatcher /\ ignore lx_exit = newIgnore /\
          matcher lx' = matcher lx /\ ignore lx' = ignore lx /\
          matcherStack lx' = matcherStack lx) /\
       (matcherStack lx_exit <> matcherStack (pushMatcher tokenMatcher newIgnore lx) ->
          (length (matcherStack lx) < length (matcherStack lx'))%nat) /\
       (catch_free fn ->
          matcherStack lx_exit = matcherStack (pushMatcher tokenMatcher newIgnore lx))) /\
  (forall lx',
     withMatcherIgnore tokenMatcher newIgnore (run tokenNext fuel fn) lx = Threw lx' ->
     run tokenNext fuel fn (pushMatcher tokenMatcher newIgnore lx) = Threw lx' /\
     exists above,
       matcherStack lx'
         = above ++ {| elem_matcher := matcher lx; elem_ignore := ignore lx |}
                 :: matcherStack lx /\
       (above = [] -> matcher lx' = tokenMatcher /\ ignore lx' = newIgnore)).
Proof.
  unfold withMatcherIgnore.
  pose proof (run_grown fuel fn (pushMatcher tokenMatcher newIgnore lx)) as Hg.
  destruct (run tokenNext fuel fn (pushMatcher tokenMatcher newIgnore lx))
    as [v l2|l2|] eqn:Hrun; (split; [intros result lx' Heq|intros lx' Heq]);
    try discriminate.
  - injection Heq as <- <-. exists l2.
    destruct (pop_of_grown _ _ _ _ Hg) as (_ & _ & Hpos & Hsame & Hdiff).
    split; [reflexivity|]. split; [reflexivity|]. split; [exact Hpos|].
    split; [|split; [exact Hdiff|]].
    + intros Hs. destruct (Hsame Hs) as (Hf & Hm & Hi). unfold frames in Hf.
      injection Hf as Hm' Hi' Hs'. repeat split; assumption.
    + intros Hfree. apply (run_frame fuel fn _ _ _ Hfree) in Hrun.
      now destruct Hrun as (_ & _ & _ & Hs).
  - injection Heq as <-. split; [reflexivity|].
    destruct Hg as [_ [extra Hf]]. rewrite frames_pushMatcher in Hf.
    destruct extra as [|x xs]; simpl in Hf.
    + exists []. injection Hf as Hm Hi Hs. split; [exact Hs|]. now intros _.
    + injection Hf as _ Hs.
      exists (xs ++ [ {| elem_matcher := tokenMatcher; elem_ignore := newIgnore |} ]).
      split; [now rewrite <- app_assoc|].
      intros Hnil. now apply app_eq_nil in Hnil as [_ [=]].
Qed.

End Frames.

(** C5 (counterexample).  The callback throws: [withMatcher] ends with
    matcher 1 still active and the frame of matcher 0 still on the stack. *)
Lemma withMatcher_throw_not_restored :
  exists lx',
    withMatcher 1%nat (run noTokens 0 (@ThrowError Z)) example_lexer = Threw lx' /\
    matcher example_lexer = 0%nat /\ matcher lx' = 1%nat /\
    matcherStack example_lexer = [] /\
    matcherStack lx' = [ {| elem_matcher := 0%nat; elem_ignore := {["ws"]} |} ].
Proof. eexists. repeat split. Qed.

(** A callback that catches what a nested [withMatcher] throws returns
    normally, and so does [withMatcher]; but the nested call has popped
    nothing, so the one pop of the outer call takes the frame of the nested
    call: matcher 1 stays active and the frame of matcher 0 stays on the
    stack. *)
Lemma withMatcher_catch_not_restored :
  exists lx',
    withMatcher 1%nat (run noTokens 0 catches_nested_throw) example_lexer = Returned 7 lx' /\
    matcher example_lexer = 0%nat /\ matcher lx' = 1%nat /\
    matcherStack example_lexer = [] /\
    matcherStack lx' = [ {| elem_matcher := 0%nat; elem_ignore := {["ws"]} |} ].
Proof. eexists. repeat split. Qed.

(** A callback whose nested [withMatcher] throws: the matcher of the nested
    call, not the one of the outer call, is active when [withMatcher] throws,
    and the frame of matcher 0 lies under the frame of matcher 1. *)
Lemma withMatcher_nested_throw :
  exists lx',
    withMatcher 1%nat (run noTokens 0 throws_nested) example_lexer = Threw lx' /\
    matcher lx' = 2%nat /\
    matcherStack lx' = [ {| elem_matcher := 1%nat; elem_ignore := {["ws"]} |};
                         {| elem_matcher := 0%nat; elem_ignore := {["ws"]} |} ].
Proof. eexists. repeat split. Qed.

(** C5 (amended).  Let the call be [withMatcher(m, fn)] or
    [withIgnore(i, fn)], for any callback [fn], also one that catches
    exceptions.

    When the call returns, [fn] has returned, and the matcher active after
    the call has the position that the matcher active when [fn] returned
    had.  If [fn] left the matcher stack as it found it, which every [fn]
    without [try]/[catch] does, then the matcher that was active when [fn]
    returned is the inner one, and the call leaves the lexer with the active
    matcher, the ignore set and the matcher stack it had before the call.
    If [fn] did not, the matcher stack is longer after the call than it was
    before: nothing is restored.

    When the call throws, [fn] has thrown, nothing is popped, and the frame
    saved on entry still lies on the matcher stack, under the frames [fn]
    left; if [fn] left none, the inner matcher and ignore set are still
    active. *)
Theorem scoped_matcher_restored_on_return
    {T : Type} (tokenNext : MatcherRef -> string -> Z -> option (Token * Z))
    (fuel : nat) (fn : Code T) (lx : Lexer)
    (m : MatcherRef) (i : gset string)
    (inner : MatcherRef) (innerIgnore : gset string) (call : Outcome T) :
  (call = withMatcher m (run tokenNext fuel fn) lx /\
     inner = m /\ innerIgnore = ignore lx) \/
  (call = withIgnore i (run tokenNext fuel fn) lx /\
     inner = matcher lx /\ innerIgnore = i) ->
  let entry := pushMatcher inner innerIgnore lx in
  (forall result lx',
     call = Returned result lx' ->
     exists lx_exit,
       run tokenNext fuel fn entry = Returned result lx_exit /\
       matcher_position (matcher lx') lx' = matcher_position (matcher lx_exit) lx_exit /\
       (matcherStack lx_exit = matcherStack entry ->
          matcher lx_exit = inner /\ ignore lx_exit = innerIgnore /\
          matcher lx' = matcher lx /\ ignore lx' = ignore lx /\
          matcherStack lx' = matcherStack lx) /\
       (matcherStack lx_exit <> matcherStack entry ->
          (length (matcherStack lx) < length (matcherStack lx'))%nat) /\
       (catch_free fn -> matcherStack lx_exit = matcherStack entry)) /\
  (forall lx',
     call = Threw lx' ->
     run tokenNext fuel fn entry = Threw lx' /\
     exists above,
       matcherStack lx'
         = above ++ {| elem_matcher := matcher lx; elem_ignore := ignore lx |}
                 :: matcherStack lx /\
       (above = [] -> matcher lx' = inner /\ ignore lx' = innerIgnore)).
Proof.
  intros Hcall entry.
  assert (Hc : call = withMatcherIgnore inner innerIgnore (run tokenNext fuel fn) lx)
    by (destruct Hcall as [(-> & -> & ->)|(-> & -> & ->)]; reflexivity).
  subst call entry.
  destruct (withMatcherIgnore_exit tokenNext fuel inner innerIgnore fn lx) as [Hret Hthrow].
  split; [|exact Hthrow].
  intros result lx' Heq.
  destruct (Hret result lx' Heq) as (lx_exit & Hrun & _ & Hpos & Hsame & Hdiff & Hfree).
  exists lx_exit. split; [exact Hrun|]. split; [exact Hpos|]. split; [exact Hsame|].
  split; [exact Hdiff|exact Hfree].
Qed.

(** The theorem at [example_lexer], matcher 1 and a callback that moves the
    cursor: the call returns, and the callback has no [try]/[catch]. *)
Lemma scoped_matcher_restored_on_return_witness :
  let lx' := popMatcher (snd (position (Some 3) (pushMatcher 1%nat {["ws"]} example_lexer))) in
  exists lx_exit,
    run noTokens 0 move_to_3 (pushMatcher 1%nat {["ws"]} example_lexer)
      = Returned 3 lx_exit /\
    matcher lx_exit = 1%nat /\ ignore lx_exit = {["ws"]} /\
    matcher lx' = 0%nat /\ ignore lx' = {["ws"]} /\ matcherStack lx' = [] /\
    matcher_position (matcher lx') lx' = matcher_position (matcher lx_exit) lx_exit.
Proof.
  intros lx'.
  destruct (scoped_matcher_restored_on_return noTokens 0 move_to_3 example_lexer
              1%nat ∅ 1%nat {["ws"]}
              (withMatcher 1%nat (run noTokens 0 move_to_3) example_lexer)
              (or_introl (conj eq_refl (conj eq_refl eq_refl)))) as [Hret _].
  destruct (Hret 3 lx' eq_refl) as (lx_exit & Hrun & Hpos & Hsame & _ & Hfree).
  exists lx_exit.
  destruct (Hsame (Hfree (fun _ => I))) as (Hm & Hi & Hm' & Hi' & Hs').
  repeat split; assumption.
Defined.

End MatchingLexerFacts.

Module ParseModuleFacts.
Import AbstractElems ParseModule.

(** C8 (the code at the failing inputs).  [parseModule] runs
    [matchMergeImports] twice.  For an #importMerge directive followed by a
    struct, the struct of the parsed module holds the directive twice; for
    the directive followed by a fn, two diagnostics are logged at the
    directive's start position.  One call of [matchMergeImports] appends the
    directive once, and logs once. *)
Theorem parseModule_matches_merges_twice :
  let parse elems := parseModule unit identityConditionals (fun _ _ => elems) in
  (let '(m, log, _) := parse merge_then_struct "src" () None 0%nat in
   map importMerges (structs m) = [Some [mergeFoo; mergeFoo]] /\ log = []) /\
  (let '(m, log, _) := parse merge_then_fn "src" () None 0%nat in
   structs m = [] /\
   log = [ {| log_pos := 0; log_msg := "#extends not followed by a struct" |};
           {| log_pos := 0; log_msg := "#extends not followed by a struct" |} ]) /\
  (let '(parsed, log) := matchMergeImports merge_then_struct [] in
   map importMerges (filterStructs parsed) = [Some [mergeFoo]] /\ log = []) /\
  (let '(parsed, log) := matchMergeImports merge_then_fn [] in
   log = [ {| log_pos := 0; log_msg := "#extends not followed by a struct" |} ]).
Proof. repeat split. Qed.

End ParseModuleFacts.

Module TraverseRefsOldFacts.
Import AbstractElems TraverseRefsOld.

(** [matchImportExportArgs] of src/TraverseRefs.ts at an import with one
    argument and an export with two parameters.  One diagnostic is logged, a
    [console.error] that is handed the two elements; and the pairing has two
    pairs: the second export parameter is paired with an undefined import
    argument. *)
Lemma matchImportExportArgs_export_longer :
  matchImportExportArgs (import_of "foo" ["A"]) (export_of ["C"; "D"])
  = ([("C", Some "A"); ("D", None)],
     [ {| err_msg := "mismatched import and export params";
          err_imp := import_of "foo" ["A"]; err_exp := export_of ["C"; "D"] |} ]).
Proof. reflexivity. Qed.

Lemma imap_pairs_lookup (impArgs expArgs : list string) (i : nat) :
  imap (fun i p => (p, impArgs !! i)) expArgs !! i
  = (fun p => (p, impArgs !! i)) <$> expArgs !! i.
Proof. apply list_lookup_imap. Qed.

(** [matchImportExportArgs] of src/TraverseRefs.ts, when the import and the
    export declare different numbers of parameters: one diagnostic that
    carries both the import element and the export element is logged with
    [console.error], and every export parameter is paired, in order, with
    the import argument at the same index, which is undefined where the
    import has fewer arguments: the pairing has the length of the export's
    list. *)
Theorem matchImportExportArgs_mismatch (imp : ImportElem) (exp : ExportElem) :
  let impArgs := default [] (imp_args imp) in
  let expArgs := default [] (exp_args exp) in
  length expArgs <> length impArgs ->
  snd (matchImportExportArgs imp exp)
    = [ {| err_msg := "mismatched import and export params";
           err_imp := imp; err_exp := exp |} ] /\
  length (fst (matchImportExportArgs imp exp)) = length expArgs /\
  (forall (i : nat) p, expArgs !! i = Some p ->
     fst (matchImportExportArgs imp exp) !! i = Some (p, impArgs !! i)).
Proof.
  intros impArgs expArgs Hne. unfold matchImportExportArgs. fold impArgs expArgs.
  cbn [fst snd]. rewrite bool_decide_eq_true_2 by exact Hne.
  split; [reflexivity|]. split; [apply length_imap|].
  intros i p Hp. now rewrite imap_pairs_lookup, Hp.
Qed.

(** The theorem at an import with two arguments of an export with one
    parameter. *)
Lemma matchImportExportArgs_mismatch_witness :
  let imp := import_of "foo" ["A"; "B"] in
  let exp := export_of ["C"] in
  snd (matchImportExportArgs imp exp)
    = [ {| err_msg := "mismatched import and export params";
           err_imp := imp; err_exp := exp |} ] /\
  length (fst (matchImportExportArgs imp exp)) = 1%nat /\
  (forall (i : nat) p, ["C"] !! i = Some p ->
     fst (matchImportExportArgs imp exp) !! i = Some (p, ["A"; "B"] !! i)).
Proof.
  intros imp exp.
  apply (matchImportExportArgs_mismatch imp exp).
  simpl. lia.
Defined.

End TraverseRefsOldFacts.

Module TraverseRefsLinkerFacts.
Import AbstractElems TraverseRefsLinker.

(** C7.  Whenever an import directive and the export it resolves to declare
    different numbers of parameters, a diagnostic is logged at the import
    site and at the export site (two logs, in this order, each at the start
    of its directive in its own module, and no other), and traversal
    proceeds with the shorter of the two parameter lists: the pairing has
    the length of the shorter list and pairs, in order, each export
    parameter with the import argument at the same index. *)
Theorem matchImportExportArgs_logs_both_sites
    (impMod : ModuleId) (imp : ImportElem) (expMod : ModuleId) (exp : ExportElem) :
  let impArgs := default [] (imp_args imp) in
  let expArgs := default [] (exp_args exp) in
  let pairs := fst (matchImportExportArgs impMod imp expMod exp) in
  let logged := snd (matchImportExportArgs impMod imp expMod exp) in
  length impArgs <> length expArgs ->
  (exists atImport atExport,
     logged = [atImport; atExport] /\
     log_mod atImport = impMod /\ log_pos atImport = imp_start imp /\
     log_mod atExport = expMod /\ log_pos atExport = exp_start exp) /\
  length pairs = Nat.min (length impArgs) (length expArgs) /\
  (forall i : nat, (i < Nat.min (length impArgs) (length expArgs))%nat ->
     exists p arg, expArgs !! i = Some p /\ impArgs !! i = Some arg /\
       pairs !! i = Some (p, arg)) /\
  (forall (i : nat) p arg, pairs !! i = Some (p, arg) ->
     expArgs !! i = Some p /\ impArgs !! i = Some arg).
Proof.
  intros impArgs expArgs pairs logged Hne. subst pairs logged.
  unfold matchImportExportArgs. fold impArgs expArgs. cbn [fst snd].
  rewrite bool_decide_eq_true_2 by congruence.
  split; [eexists _, _; repeat split|].
  split; [rewrite length_zip; lia|]. split.
  - intros i Hi.
    destruct (lookup_lt_is_Some_2 expArgs i) as [p Hp]; [lia|].
    destruct (lookup_lt_is_Some_2 impArgs i) as [arg Harg]; [lia|].
    exists p, arg. split; [exact Hp|]. split; [exact Harg|].
    apply lookup_zip_with_Some. eauto.
  - intros i p arg Hz.
    apply lookup_zip_with_Some in Hz as (x & y & [= -> ->] & Hx & Hy). now split.
Qed.

(** The theorem at the input of the test "mismatched import export params":
    [#import foo(A, B) from ./file1] against [#export(C)]. *)
Lemma matchImportExportArgs_logs_both_sites_witness :
  let pairs := fst (matchImportExportArgs main_wgsl import_foo_A_B file1_wgsl export_C) in
  let logged := snd (matchImportExportArgs main_wgsl import_foo_A_B file1_wgsl export_C) in
  (exists atImport atExport,
     logged = [atImport; atExport] /\
     log_mod atImport = main_wgsl /\ log_pos atImport = 5 /\
     log_mod atExport = file1_wgsl /\ log_pos atExport = 5) /\
  length pairs = 1%nat /\
  (forall i : nat, (i < 1)%nat ->
     exists p arg, ["C"] !! i = Some p /\ ["A"; "B"] !! i = Some arg /\
       pairs !! i = Some (p, arg)) /\
  (forall (i : nat) p arg, pairs !! i = Some (p, arg) ->
     ["C"] !! i = Some p /\ ["A"; "B"] !! i = Some arg).
Proof.
  intros pairs logged.
  apply (matchImportExportArgs_logs_both_sites main_wgsl import_foo_A_B file1_wgsl export_C).
  simpl. lia.
Defined.

End TraverseRefsLinkerFacts.

Module TraverseRefsFacts.
Import TraverseRefs.

Lemma unseen_count_mono names seen seen' :
  (forall n, n ∈ seen -> n ∈ seen') ->
  (unseen_count names seen' <= unseen_count names seen)%nat.
Proof.
  intros Hsub. unfold unseen_count. induction names as [|n names IH]; simpl; [lia|].
  destruct (bool_decide (n ∈ seen')) eqn:H1, (bool_decide (n ∈ seen)) eqn:H2;
    simpl; try lia.
  apply bool_decide_eq_true in H2. apply bool_decide_eq_false in H1.
  exfalso. auto.
Qed.

Lemma unseen_count_add names seen n :
  n ∈ names -> n ∉ seen ->
  (unseen_count names (seen ++ [n]) < unseen_count names seen)%nat.
Proof.
  intros Hin Hnew. unfold unseen_count.
  induction names as [|m names IH]; [now apply not_elem_of_nil in Hin|].
  assert (Hle : (length (List.filter
                   (fun x => negb (bool_decide (x ∈ seen ++ [n]))) names)
                 <= length (List.filter
                   (fun x => negb (bool_decide (x ∈ seen))) names))%nat).
  { apply (unseen_count_mono names seen (seen ++ [n])).
    intros x Hx. apply elem_of_app. now left. }
  simpl. apply elem_of_cons in Hin as [->|Hin].
  - rewrite (bool_decide_eq_true_2 (m ∈ seen ++ [m])) by (apply elem_of_app; right; constructor).
    rewrite (bool_decide_eq_false_2 (m ∈ seen)) by assumption. simpl. lia.
  - specialize (IH Hin).
    destruct (bool_decide (m ∈ seen ++ [n])) eqn:H1, (bool_decide (m ∈ seen)) eqn:H2;
      simpl; try lia.
    apply bool_decide_eq_true in H2. apply bool_decide_eq_false in H1.
    exfalso. apply H1. apply elem_of_app. now left.
Qed.

Lemma fold_left_same {A B : Type} (f g : A -> B -> A) l a :
  (forall x y, f x y = g x y) -> fold_left f l a = fold_left g l a.
Proof. intros H. revert a. induction l as [|y l IH]; intros a; simpl; [|rewrite H]; auto. Qed.

Lemma visits_app a b : visits (a ++ b) = visits a ++ visits b.
Proof. unfold visits. apply flat_map_app. Qed.

Lemma visits_map_Visit refs : visits (map Visit refs) = refs.
Proof. induction refs; simpl; congruence. Qed.

(** [groupBy]: every group is non-empty, and holds elements of the list
    whose key is the key of the group. *)
Lemma addToGroup_spec {K V : Type} `{EqDecision K} (P : K -> V -> Prop)
    (k : K) (v : V) groups :
  P k v ->
  Forall (fun '(k', vs) => vs <> [] /\ Forall (P k') vs) groups ->
  Forall (fun '(k', vs) => vs <> [] /\ Forall (P k') vs) (addToGroup k v groups).
Proof.
  intros Hv. induction 1 as [|[k' vs] groups [Hne Hvs] Hrest IH]; simpl.
  - repeat constructor; [discriminate|assumption].
  - destruct (decide (k' = k)) as [->|_]; constructor; auto.
    split; [now destruct vs|]. apply Forall_app. split; [assumption|].
    now repeat constructor.
Qed.

Lemma groupBy_spec {K V : Type} `{EqDecision K} (a : list V) (key : V -> option K) :
  Forall (fun '(k, vs) => vs <> [] /\ Forall (fun v => v ∈ a /\ key v = Some k) vs)
    (groupBy a key).
Proof.
  unfold groupBy.
  assert (Hgen : forall l groups,
    (forall v, v ∈ l -> v ∈ a) ->
    Forall (fun '(k, vs) => vs <> [] /\ Forall (fun v => v ∈ a /\ key v = Some k) vs) groups ->
    Forall (fun '(k, vs) => vs <> [] /\ Forall (fun v => v ∈ a /\ key v = Some k) vs)
      (fold_left (fun groups v => match key v with
                                  | Some k => addToGroup k v groups
                                  | None => groups
                                  end) l groups)).
  { induction l as [|v l IH]; intros groups Hl Hg; simpl; [assumption|].
    apply IH; [intros x Hx; apply Hl; now right|].
    destruct (key v) as [k|] eqn:Hk; [|assumption].
    apply (addToGroup_spec (fun k v => v ∈ a /\ key v = Some k)); [|assumption].
    split; [apply Hl; now left | assumption]. }
  apply Hgen; [auto | constructor].
Qed.

Section Traversal.
Context {ParsedRegistry : Type}.
Variable importResolveMap : ParsedRegistry -> TextModule -> ResolveMap.
Variable resolveImport : string -> ResolveMap -> option ResolvedExport.
Variable refFullName : FoundRef -> string.
Variable registry : ParsedRegistry.

Abbreviation elemRefs' := (elemRefs importResolveMap resolveImport).
Abbreviation elemRefsAll' := (elemRefsAll importResolveMap resolveImport).
Abbreviation recursiveRefs' := (recursiveRefs importResolveMap resolveImport refFullName).
Abbreviation eachGroup' := (eachGroup importResolveMap resolveImport refFullName registry).

Lemma elemRefsAll_refs refs mod_ :
  fst (elemRefsAll' refs mod_ registry)
  = flat_map (fun r => fst (elemRefs' r mod_ registry)) refs.
Proof.
  induction refs as [|r refs IH]; simpl; [reflexivity|].
  destruct (elemRefs' r mod_ registry) as [cs evs].
  destruct (elemRefsAll' refs mod_ registry) as [cs' evs']. simpl in *.
  now rewrite IH.
Qed.

Lemma elemRefs_no_visits r mod_ : visits (snd (elemRefs' r mod_ registry)) = [].
Proof.
  assert (Hlinked : forall e, visits (snd (linkedRef importResolveMap resolveImport
                                              e r mod_ registry)) = []).
  { intros e. unfold linkedRef. destruct (truthy _); [reflexivity|].
    destruct (importRef _ _ _ _ _ _ _); [reflexivity|].
    destruct (localRef _ _); [reflexivity|]. now destruct (textExpMod r). }
  assert (Hchildren : forall cs, visits (snd (elemChildrenRefs importResolveMap resolveImport
                                                r cs mod_ registry)) = []).
  { induction cs as [|e cs IH]; simpl; [reflexivity|].
    specialize (Hlinked e).
    destruct (linkedRef importResolveMap resolveImport e r mod_ registry) as [rs evs].
    destruct (elemChildrenRefs importResolveMap resolveImport r cs mod_ registry)
      as [rs' evs']. simpl in *. now rewrite visits_app, Hlinked, IH. }
  unfold elemRefs. destruct r as [pn expMod elem info|]; [|reflexivity].
  match goal with |- context [elemChildrenRefs _ _ ?r (elemTypeRefs elem) _ _] =>
    pose proof (Hchildren (elemTypeRefs elem)) as Ht end.
  destruct (elemChildrenRefs importResolveMap resolveImport _ (elemTypeRefs elem) _ _)
    as [tRefs evs2].
  destruct elem as [f| | | |]; simpl in *; try assumption.
  match goal with |- context [elemChildrenRefs _ _ ?r ?cs _ _] =>
    pose proof (Hchildren cs) as Hf end.
  destruct (elemChildrenRefs importResolveMap resolveImport _ _ _ _) as [fnRefs evs1].
  simpl in *. now rewrite visits_app, Hf, Ht.
Qed.

Lemma elemRefsAll_no_visits refs mod_ :
  visits (snd (elemRefsAll' refs mod_ registry)) = [].
Proof.
  induction refs as [|r refs IH]; simpl; [reflexivity|].
  pose proof (elemRefs_no_visits r mod_) as Hr.
  destruct (elemRefs' r mod_ registry) as [cs evs].
  destruct (elemRefsAll' refs mod_ registry) as [cs' evs']. simpl in *.
  now rewrite visits_app, Hr, IH.
Qed.

(** One sweep of [eachRef] over a wave of refs: every ref is visited, in
    order; the refs kept are refs of the wave with names that were not seen;
    the set only grows, by names of the wave. *)
Lemma filterEach_spec (names : list string) refs st kept st' :
  filterEach refFullName refs st = (kept, st') ->
  Forall (fun r => refFullName r ∈ names) refs ->
  trace st' = trace st ++ map Visit refs /\
  Forall (fun r => r ∈ refs) kept /\
  (forall n, n ∈ seen st -> n ∈ seen st') /\
  (forall n, n ∈ seen st' -> n ∈ seen st \/ n ∈ names) /\
  (NoDup (seen st) -> NoDup (seen st')) /\
  (unseen_count names (seen st') <= unseen_count names (seen st))%nat /\
  (kept <> [] -> (unseen_count names (seen st') < unseen_count names (seen st))%nat).
Proof.
  revert st kept st'. induction refs as [|r refs IH]; intros st kept st' H Hnames; simpl in H.
  - injection H as <- <-. rewrite app_nil_r. repeat split; auto; try lia.
    intros []. reflexivity.
  - inversion Hnames as [|? ? Hr Hrest]; subst.
    unfold eachRef in H. simpl in H.
    destruct (bool_decide (refFullName r ∈ seen st)) eqn:Hseen.
    + destruct (filterEach refFullName refs (emit [Visit r] st)) as [kept1 st2] eqn:Hf.
      injection H as <- <-.
      destruct (IH _ _ _ Hf Hrest) as (Ht & Hk & Hs1 & Hs2 & Hnd & Hle & Hlt).
      simpl in *. rewrite Ht, <- app_assoc. repeat split; auto.
      eapply Forall_impl; [exact Hk|]. intros x Hx. now right.
    + apply bool_decide_eq_false in Hseen.
      destruct (filterEach refFullName refs _) as [kept1 st2] eqn:Hf.
      injection H as <- <-.
      destruct (IH _ _ _ Hf Hrest) as (Ht & Hk & Hs1 & Hs2 & Hnd & Hle & Hlt).
      simpl in *. rewrite Ht, <- app_assoc.
      pose proof (unseen_count_add names (seen st) (refFullName r) Hr Hseen) as Hadd.
      repeat split; auto; try lia.
      * constructor; [now left|].
        eapply Forall_impl; [exact Hk|]. intros x Hx. now right.
      * intros n Hn. apply Hs1. apply elem_of_app. now left.
      * intros n Hn. apply Hs2 in Hn as [Hn|Hn]; [|now right].
        apply elem_of_app in Hn as [Hn|Hn]; [now left|].
        apply list_elem_of_singleton in Hn as ->. now right.
      * intros Hnd0. apply Hnd. apply NoDup_app. repeat split; auto.
        -- intros x Hx Hx'. apply list_elem_of_singleton in Hx' as ->. contradiction.
        -- apply NoDup_singleton.
Qed.

Lemma filterEach_seen refs st kept st' :
  filterEach refFullName refs st = (kept, st') ->
  seen st' = seen st ++ map refFullName kept.
Proof.
  revert st kept st'. induction refs as [|r refs IH]; intros st kept st' H; simpl in H.
  - injection H as <- <-. now rewrite app_nil_r.
  - unfold eachRef in H. simpl in H.
    destruct (bool_decide (refFullName r ∈ seen st));
      destruct (filterEach refFullName refs _) as [kept1 st2] eqn:Hf;
      injection H as <- <-; apply IH in Hf; simpl in *; rewrite Hf; [reflexivity|].
    now rewrite <- app_assoc.
Qed.

Lemma recursiveRefs_unfold fuel refs st :
  recursiveRefs' (S fuel) refs registry st
  = let '(filtered, st1) := filterEach refFullName refs st in
    fold_left (eachGroup' fuel) (groupBy (textRefs filtered) textExpMod) (Some st1).
Proof.
  simpl. destruct (filterEach refFullName refs st) as [filtered st1].
  apply fold_left_same. intros acc [mod_ refs']. reflexivity.
Qed.

Lemma fold_eachGroup_None fuel groups : fold_left (eachGroup' fuel) groups None = None.
Proof. induction groups as [|[m rs] groups IH]; simpl; auto. Qed.

Section Halts.
Variable names : list string.
Variable Q : FoundRef -> Prop.
Hypothesis Q_names : forall r, Q r -> refFullName r ∈ names.
Hypothesis Q_closed : forall r expMod c,
  Q r -> textExpMod r = Some expMod -> c ∈ fst (elemRefs' r expMod registry) -> Q c.

Lemma recursiveRefs_halts fuel : forall refs st,
  Forall Q refs ->
  (unseen_count names (seen st) < fuel)%nat ->
  (forall n, n ∈ seen st -> n ∈ names) ->
  NoDup (seen st) ->
  exists st', recursiveRefs' fuel refs registry st = Some st' /\
    (forall n, n ∈ seen st -> n ∈ seen st') /\
    (forall n, n ∈ seen st' -> n ∈ names) /\
    NoDup (seen st').
Proof.
  induction fuel as [|fuel IH]; intros refs st HQ Hfuel Hnames Hnd; [lia|].
  rewrite recursiveRefs_unfold.
  destruct (filterEach refFullName refs st) as [filtered st1] eqn:Hf.
  destruct (filterEach_spec names _ _ _ _ Hf) as (Ht & Hk & Hs1 & Hs2 & Hnd1 & Hle & Hlt).
  { eapply Forall_impl; [exact HQ|]. exact Q_names. }
  pose proof (groupBy_spec (textRefs filtered) textExpMod) as Hgroups.
  assert (HQgroups : Forall (fun '(k, vs) =>
            vs <> [] /\ Forall (fun v => Q v /\ textExpMod v = Some k) vs)
            (groupBy (textRefs filtered) textExpMod)).
  { eapply Forall_impl; [exact Hgroups|]. intros [k vs] [Hne Hvs]. split; [assumption|].
    eapply Forall_impl; [exact Hvs|]. intros v [Hv Hkey]. split; [|assumption].
    unfold textRefs in Hv. apply list_elem_of_In, filter_In in Hv as [Hv _].
    apply list_elem_of_In in Hv. rewrite Forall_forall in Hk, HQ. auto. }
  assert (Hcount : groupBy (textRefs filtered) textExpMod <> [] ->
            (unseen_count names (seen st1) < fuel)%nat).
  { intros Hne. assert (filtered <> []) by (intros ->; now apply Hne). 
    specialize (Hlt ltac:(assumption)). lia. }
  assert (Hnames1 : forall n, n ∈ seen st1 -> n ∈ names).
  { intros n Hn. apply Hs2 in Hn as [Hn|Hn]; auto. }
  specialize (Hnd1 Hnd).
  clear Hgroups Hf Ht Hk Hle Hlt Hs2.
  remember (groupBy (textRefs filtered) textExpMod) as groups eqn:Hg. clear Hg.
  revert st1 HQgroups Hcount Hnames1 Hnd1 Hs1.
  induction groups as [|[mod_ rs] groups IHg];
    intros st1 HQgroups Hcount Hnames1 Hnd1 Hs1; simpl.
  - exists st1. auto.
  - apply Forall_cons in HQgroups as [[Hne Hrs] Hrest].
    destruct rs as [|r0 rs0]; [congruence|].
    destruct (elemRefsAll' (r0 :: rs0) mod_ registry) as [childRefs evs] eqn:Hc.
    destruct (IH childRefs (emit evs st1)) as (st3 & Hrun & H31 & H3n & H3d);
      try assumption.
    + pose proof (elemRefsAll_refs (r0 :: rs0) mod_) as Hrefs. rewrite Hc in Hrefs.
      simpl fst in Hrefs. rewrite Hrefs. apply Forall_forall. intros c Hc'.
      apply list_elem_of_In, in_flat_map in Hc' as (r & Hr & Hcr).
      apply list_elem_of_In in Hr, Hcr. rewrite Forall_forall in Hrs.
      destruct (Hrs r Hr) as [HQr Hkey]. eapply Q_closed; eassumption.
    + simpl. apply Hcount. discriminate.
    + rewrite Hrun. apply (IHg st3 Hrest); auto.
      intros _. pose proof (unseen_count_mono names (seen st1) (seen st3) H31).
      specialize (Hcount ltac:(discriminate)). lia.
Qed.

End Halts.

Lemma filterEach_trace refs st kept st' :
  filterEach refFullName refs st = (kept, st') ->
  trace st' = trace st ++ map Visit refs.
Proof.
  revert st kept st'. induction refs as [|r refs IH]; intros st kept st' H; simpl in H.
  - injection H as <- <-. now rewrite app_nil_r.
  - unfold eachRef in H. simpl in H.
    destruct (bool_decide (refFullName r ∈ seen st));
      destruct (filterEach refFullName refs _) as [kept1 st2] eqn:Hf;
      injection H as <- <-; apply IH in Hf; simpl in *; rewrite Hf;
      now rewrite <- app_assoc.
Qed.

(** More fuel does not change the result. *)
Lemma recursiveRefs_more_fuel fuel : forall refs st st',
  recursiveRefs' fuel refs registry st = Some st' ->
  recursiveRefs' (S fuel) refs registry st = Some st'.
Proof.
  induction fuel as [|fuel IH]; intros refs st st' H; [discriminate|].
  rewrite recursiveRefs_unfold in *.
  destruct (filterEach refFullName refs st) as [filtered st1].
  revert H. generalize (Some st1).
  induction (groupBy (textRefs filtered) textExpMod) as [|[mod_ rs] groups IHg];
    intros acc H; simpl in *; [assumption|].
  destruct acc as [st2|]; [|now rewrite fold_eachGroup_None in H].
  destruct rs as [|r0 rs0]; [now apply IHg|].
  destruct (elemRefsAll' (r0 :: rs0) mod_ registry) as [childRefs evs].
  destruct (recursiveRefs' fuel childRefs registry (emit evs st2)) as [st3|] eqn:Hrun;
    [|now rewrite fold_eachGroup_None in H].
  rewrite (IH _ _ _ Hrun). now apply IHg.
Qed.

Lemma recursiveRefs_fuel_le fuel fuel' refs st st' :
  (fuel <= fuel')%nat ->
  recursiveRefs' fuel refs registry st = Some st' ->
  recursiveRefs' fuel' refs registry st = Some st'.
Proof.
  induction 1 as [|fuel' _ IH]; [auto|]. intros H. now apply recursiveRefs_more_fuel, IH.
Qed.

(** A traversal only adds to the trace. *)
Lemma recursiveRefs_extends fuel : forall refs st st',
  recursiveRefs' fuel refs registry st = Some st' ->
  exists more, trace st' = trace st ++ more.
Proof.
  induction fuel as [|fuel IH]; intros refs st st' H; [discriminate|].
  rewrite recursiveRefs_unfold in H.
  destruct (filterEach refFullName refs st) as [filtered st1] eqn:Hf.
  apply filterEach_trace in Hf.
  assert (Hgen : forall groups st2,
    (exists more, trace st2 = trace st ++ more) ->
    fold_left (eachGroup' fuel) groups (Some st2) = Some st' ->
    exists more, trace st' = trace st ++ more).
  { induction groups as [|[mod_ rs] groups IHg]; intros st2 Hpre Hfold; simpl in Hfold.
    - now injection Hfold as <-.
    - destruct rs as [|r0 rs0]; [now apply (IHg st2)|].
      destruct (elemRefsAll' (r0 :: rs0) mod_ registry) as [childRefs evs].
      destruct (recursiveRefs' fuel childRefs registry (emit evs st2)) as [st3|] eqn:Hrun.
      + apply (IHg st3); [|assumption]. apply IH in Hrun as [more3 Hm3].
        destruct Hpre as [more2 Hm2]. simpl in Hm3. rewrite Hm3, Hm2.
        exists ((more2 ++ evs) ++ more3). now rewrite !app_assoc.
      + now rewrite fold_eachGroup_None in Hfold. }
  eapply (Hgen _ st1); [|exact H]. eauto.
Qed.


(** The visits below a list of module groups: the groups are worked off in
    order, and all that the recursion into one group visits comes before
    anything of the next group. *)
Lemma fold_eachGroup_visits fuel : forall groups st2 st',
  Forall (fun '(_, rs) => rs <> []) groups ->
  fold_left (eachGroup' fuel) groups (Some st2) = Some st' ->
  exists subs,
    visits (trace st') = visits (trace st2) ++ concat subs /\
    Forall2 (fun '(mod_, rs) sub =>
               exists sa sb,
                 recursiveRefs' fuel (fst (elemRefsAll' rs mod_ registry)) registry sa
                   = Some sb /\
                 visits (trace sb) = visits (trace sa) ++ sub)
            groups subs.
Proof.
  induction groups as [|[mod_ rs] groups IH]; intros st2 st' Hne Hfold; simpl in Hfold.
  - injection Hfold as <-. exists []. simpl. rewrite app_nil_r. split; [reflexivity|constructor].
  - apply Forall_cons in Hne as [Hrs Hne].
    destruct rs as [|r0 rs0]; [congruence|].
    pose proof (elemRefsAll_no_visits (r0 :: rs0) mod_) as Hnov.
    destruct (elemRefsAll' (r0 :: rs0) mod_ registry) as [childRefs evs] eqn:Hc.
    destruct (recursiveRefs' fuel childRefs registry (emit evs st2)) as [st3|] eqn:Hrun;
      [|now rewrite fold_eachGroup_None in Hfold].
    destruct (IH _ _ Hne Hfold) as (subs & Hvis & Hall).
    destruct (recursiveRefs_extends _ _ _ _ Hrun) as [more Hmore].
    exists (visits more :: subs). split.
    + rewrite Hvis, Hmore. simpl trace. rewrite !visits_app. simpl in Hnov.
      rewrite Hnov, app_nil_r. simpl. now rewrite app_assoc.
    + constructor; [|assumption]. exists (emit evs st2), st3. rewrite Hc. simpl fst.
      split; [assumption|]. rewrite Hmore. apply visits_app.
Qed.

End Traversal.

(** *** C2: halting and deduplication *)

(** C2 (amended).  On a module graph in which the refs that the traversal
    can come to have finitely many full names (all in [names]),
    [traverseRefs] halts: there is one final state that every fuel above the
    number of names gives.  The set [seen], to which [eachRef] adds the full
    name of each ref it accepts for recursion, holds every name once:
    recursion is entered at most once per distinct refFullName.  (The visit
    callback itself runs once for every root declaration and once for every
    reference found, see the counterexample.) *)
Theorem traverseRefs_halts {ParsedRegistry : Type}
    (importResolveMap : ParsedRegistry -> TextModule -> ResolveMap)
    (resolveImport : string -> ResolveMap -> option ResolvedExport)
    (refFullName : FoundRef -> string)
    (srcModule : TextModule) (registry : ParsedRegistry)
    (names : list string) :
  (forall r, reachable importResolveMap resolveImport srcModule registry r ->
             refFullName r ∈ names) ->
  exists st,
    (forall fuel, (length names < fuel)%nat ->
       traverseRefs importResolveMap resolveImport refFullName fuel srcModule registry
         = Some st) /\
    NoDup (seen st) /\
    (forall n, n ∈ seen st -> n ∈ names).
Proof.
  intros Hnames. unfold traverseRefs.
  destruct (rootRefs srcModule) as [|r0 roots] eqn:Hroots.
  - eexists. split; [reflexivity|]. split; [constructor|].
    intros n Hn. now apply not_elem_of_nil in Hn.
  - destruct (elemRefsAll importResolveMap resolveImport (textRefs (r0 :: roots))
                srcModule registry) as [childRefs evs] eqn:Hc.
    destruct (recursiveRefs_halts importResolveMap resolveImport refFullName registry names
                (reachable importResolveMap resolveImport srcModule registry)
                Hnames) with (fuel := S (length names)) (refs := childRefs)
                (st := emit evs {| seen := []; trace := map Visit (r0 :: roots) |})
      as (st' & Hrun & _ & Hin & Hnd).
    + intros r expMod c Hr Hm Hcr. eapply reachable_step; eassumption.
    + pose proof (elemRefsAll_refs importResolveMap resolveImport registry
                    (textRefs (r0 :: roots)) srcModule) as Hrefs.
      rewrite Hc in Hrefs. simpl fst in Hrefs. rewrite Hrefs.
      apply Forall_forall. intros c Hc'.
      apply list_elem_of_In, in_flat_map in Hc' as (r & Hr & Hcr).
      unfold textRefs in Hr. apply filter_In in Hr as [Hr _].
      apply list_elem_of_In in Hr, Hcr.
      eapply reachable_root; [rewrite Hroots; exact Hr | exact Hcr].
    + simpl. unfold unseen_count.
      replace (List.filter _ names) with names; [lia|].
      clear. induction names as [|n names' IH]; simpl; [reflexivity|].
      now f_equal.
    + simpl. intros n Hn. now apply not_elem_of_nil in Hn.
    + constructor.
    + exists st'. split; [|auto]. intros fuel Hfuel.
      eapply recursiveRefs_fuel_le; [|exact Hrun]. lia.
Qed.

(** C2 (counterexample).  In [fn foo() { bar(); } fn bar() {}] the ref to
    [bar] is delivered to the visit callback twice: once as a declaration of
    the root module and once as the target of the call in [foo]. *)
Lemma visit_twice_for_one_name :
  exists st,
    traverseRefs exampleResolveMap exampleResolveImport exampleFullName 2 fooCallsBar []
      = Some st /\
    visits (trace st)
      = [ localFn fooCallsBar (fnOf "foo" 0 [callTo "bar" 11]);
          localFn fooCallsBar (fnOf "bar" 30 []);
          localFn fooCallsBar (fnOf "bar" 30 []) ].
Proof. eexists. split; reflexivity. Qed.

(** In [fooBarCycle] the traversal comes to the two functions only. *)
Lemma fooBarCycle_reachable r :
  reachable exampleResolveMap exampleResolveImport fooBarCycle [] r ->
  r = localFn fooBarCycle (fnOf "foo" 0 [callTo "bar" 11]) \/
  r = localFn fooBarCycle (fnOf "bar" 30 [callTo "foo" 41]).
Proof.
  induction 1 as [r c Hr Hc|r expMod c Hr IH Hm Hc].
  - apply list_elem_of_In in Hr. simpl in Hr.
    destruct Hr as [<-|[<-|[]]]; apply list_elem_of_In in Hc; vm_compute in Hc;
      destruct Hc as [<-|[]]; auto.
  - destruct IH as [-> | ->]; injection Hm as <-;
      apply list_elem_of_In in Hc; vm_compute in Hc; destruct Hc as [<-|[]]; auto.
Qed.

(** The theorem at two functions that call each other. *)
Lemma traverseRefs_halts_witness :
  exists st,
    (forall fuel, (2 < fuel)%nat ->
       traverseRefs exampleResolveMap exampleResolveImport exampleFullName fuel fooBarCycle []
         = Some st) /\
    NoDup (seen st) /\
    (forall n, n ∈ seen st -> n ∈ ["main.foo?"; "main.bar?"]).
Proof.
  apply (traverseRefs_halts exampleResolveMap exampleResolveImport exampleFullName
           fooBarCycle [] ["main.foo?"; "main.bar?"]).
  intros r Hr. apply fooBarCycle_reachable in Hr as [-> | ->]; vm_compute.
  - apply list_elem_of_here.
  - apply list_elem_of_further, list_elem_of_here.
Defined.

(** *** C6: the order of delivery *)

(** C6 (counterexample).  [main] calls [a], [b] and [c]; [a] and [c] are
    imported from module m1 and [b] from module m2.  The refs are delivered
    in the order of the calls: [b] (into m2) comes between the two refs into
    m1. *)
Lemma refs_into_one_module_not_contiguous :
  exists st,
    traverseRefs exampleResolveMap exampleResolveImport exampleFullName 2 mainABC registryABC
      = Some st /\
    map (fun r => (refName r, mod_name <$> textExpMod r)) (visits (trace st))
      = [ ("main", Some "main"); ("a", Some "m1"); ("b", Some "m2"); ("c", Some "m1") ].
Proof. eexists. split; reflexivity. Qed.

(** C6 (amended).  One call of [recursiveRefs] delivers all refs of its
    wave to the callback in one sweep, in the order in which they were
    found, whatever module each resolves into.  Only then are the text refs
    that [eachRef] accepted grouped by exporting module, in the order in which
    the modules first occur, and the groups are descended into one after the
    other, depth first: everything visited below the children of one group
    comes before anything of the next group. *)
Theorem recursiveRefs_sweep_order {ParsedRegistry : Type}
    (importResolveMap : ParsedRegistry -> TextModule -> ResolveMap)
    (resolveImport : string -> ResolveMap -> option ResolvedExport)
    (refFullName : FoundRef -> string) (registry : ParsedRegistry)
    (fuel : nat) (refs : list FoundRef) (st st' : Traversal) :
  recursiveRefs importResolveMap resolveImport refFullName (S fuel) refs registry st = Some st' ->
  exists filtered st1 subs,
    filterEach refFullName refs st = (filtered, st1) /\
    visits (trace st') = visits (trace st) ++ refs ++ concat subs /\
    Forall2 (fun '(mod_, rs) sub =>
               exists sa sb,
                 recursiveRefs importResolveMap resolveImport refFullName fuel
                   (fst (elemRefsAll importResolveMap resolveImport rs mod_ registry))
                   registry sa = Some sb /\
                 visits (trace sb) = visits (trace sa) ++ sub)
            (groupBy (textRefs filtered) textExpMod) subs.
Proof.
  intros H. rewrite recursiveRefs_unfold in H.
  destruct (filterEach refFullName refs st) as [filtered st1] eqn:Hf.
  exists filtered, st1.
  destruct (fold_eachGroup_visits importResolveMap resolveImport refFullName registry
              fuel _ _ _ ltac:(eapply Forall_impl; [apply groupBy_spec|];
                               intros [k vs] [Hne _]; exact Hne) H)
    as (subs & Hvis & Hall).
  exists subs. split; [reflexivity|]. split; [|exact Hall].
  apply filterEach_trace in Hf. rewrite Hvis, Hf, visits_app, visits_map_Visit.
  now rewrite app_assoc.
Qed.

(** The theorem at the wave of the three calls of [main] in [mainABC]. *)
Lemma recursiveRefs_sweep_order_witness :
  let main := localFn mainABC (fnOf "main" 0 [callTo "a" 12; callTo "b" 17; callTo "c" 22]) in
  let refs := fst (elemRefs exampleResolveMap exampleResolveImport main mainABC registryABC) in
  let st := {| seen := []; trace := [Visit main] |} in
  exists st',
    recursiveRefs exampleResolveMap exampleResolveImport exampleFullName 2 refs registryABC st
      = Some st' /\
    exists filtered st1 subs,
      filterEach exampleFullName refs st = (filtered, st1) /\
      visits (trace st') = visits (trace st) ++ refs ++ concat subs /\
      Forall2 (fun '(mod_, rs) sub =>
                 exists sa sb,
                   recursiveRefs exampleResolveMap exampleResolveImport exampleFullName 1
                     (fst (elemRefsAll exampleResolveMap exampleResolveImport rs mod_ registryABC))
                     registryABC sa = Some sb /\
                   visits (trace sb) = visits (trace sa) ++ sub)
              (groupBy (textRefs filtered) textExpMod) subs.
Proof.
  intros main refs st. eexists. split; [reflexivity|].
  apply (recursiveRefs_sweep_order exampleResolveMap exampleResolveImport exampleFullName
           registryABC 1 refs st).
  reflexivity.
Defined.

(** *** C1: the order of name lookup *)

Lemma importArgRef_spec srcRef n :
  truthy (importArgRef srcRef n) = true <-> is_export_param srcRef n.
Proof.
  unfold importArgRef, is_export_param, truthy.
  destruct (expInfoOf srcRef) as [info|]; simpl.
  - rewrite bool_decide_eq_true. split.
    + intros [[e i] Hfind]. apply find_some in Hfind as [Hin Heq].
      apply String.eqb_eq in Heq. subst e.
      exists info, i. split; [reflexivity|]. now apply list_elem_of_In.
    + intros (info' & i & [= <-] & Hin).
      destruct (List.find (fun '(expArg, _) => String.eqb expArg n) (expImpArgsOf info))
        as [p|] eqn:Hfind; [eauto|].
      apply list_elem_of_In in Hin. eapply find_none in Hfind; [|exact Hin].
      simpl in Hfind. now rewrite String.eqb_refl in Hfind.
  - split; [discriminate|]. intros (info & i & Hinfo & _). discriminate.
Qed.

Lemma find_by_name {A : Type} (name_of : A -> string) (n : string) (l : list A) :
  match List.find (fun x => String.eqb (name_of x) n) l with
  | Some x => x ∈ l /\ name_of x = n
  | None => forall x, x ∈ l -> name_of x <> n
  end.
Proof.
  destruct (List.find _ l) as [x|] eqn:Hfind.
  - apply find_some in Hfind as [Hin Heq]. apply String.eqb_eq in Heq.
    split; [now apply list_elem_of_In | assumption].
  - intros x Hin Heq. apply list_elem_of_In in Hin.
    eapply find_none in Hfind; [|exact Hin]. simpl in Hfind.
    apply String.eqb_neq in Hfind. contradiction.
Qed.

Lemma localRef_spec n M :
  match localRef n M with
  | Some r => exists e, declared_in M n e /\ r = TextRef (Some n) M e None
  | None => forall e, ~ declared_in M n e
  end.
Proof.
  unfold localRef.
  pose proof (find_by_name fn_name n (fns M)) as Hf.
  pose proof (find_by_name struct_name n (structs M)) as Hs.
  pose proof (find_by_name alias_name n (aliases M)) as Ha.
  destruct (List.find _ (fns M)) as [f|].
  { destruct Hf as [Hin Hn]. exists (EFn f). simpl. rewrite Hn.
    split; [left; eauto | reflexivity]. }
  destruct (List.find _ (structs M)) as [s|].
  { destruct Hs as [Hin Hn]. exists (EStruct s). simpl. rewrite Hn.
    split; [right; left; eauto | reflexivity]. }
  destruct (List.find _ (aliases M)) as [a|].
  { destruct Ha as [Hin Hn]. exists (EAlias a). simpl. rewrite Hn.
    split; [right; right; eauto | reflexivity]. }
  intros e [(f & _ & Hin & Hn)|[(s & _ & Hin & Hn)|(a & _ & Hin & Hn)]].
  - exact (Hf f Hin Hn).
  - exact (Hs s Hin Hn).
  - exact (Ha a Hin Hn).
Qed.

(** C1.  The lookup of the name [n] of a call or type reference [elem]
    found in an element of a text ref [srcRef], in module [M]:
    an export parameter of the import chain of [srcRef] gives no ref and no
    event; otherwise a name that the import resolution map of [M] resolves
    gives the import ref built from the resolved export; otherwise a fn,
    struct or alias that [M] declares under that name gives a local ref to
    it; otherwise "reference not found" is logged and no ref is bound. *)
Theorem linkedRef_lookup_order {ParsedRegistry : Type}
    (importResolveMap : ParsedRegistry -> TextModule -> ResolveMap)
    (resolveImport : string -> ResolveMap -> option ResolvedExport)
    (registry : ParsedRegistry) (elem : RefElem)
    (proposedName : option string) (expMod : TextModule) (srcElem : Elem)
    (expInfo : option ExportInfo) (M : TextModule) :
  let srcRef := TextRef proposedName expMod srcElem expInfo in
  let n := ref_name elem in
  let result := linkedRef importResolveMap resolveImport elem srcRef M registry in
  (is_export_param srcRef n -> result = ([], [])) /\
  (~ is_export_param srcRef n ->
     match resolveImport n (importResolveMap registry M) with
     | Some res =>
         let info := mkExportInfo srcRef (head (imports M)) (resolved_expImpArgs res) in
         let r :=
           match modExp res with
           | TextModuleExport m e => TextRef (last (callSegments res)) m e (Some info)
           | GeneratorModuleExport m g =>
               GeneratorRef (last (callSegments res)) info m (gen_name g)
           end in
         result = ([r], [Bind elem r])
     | None =>
         ((exists e, declared_in M n e) ->
            exists e, declared_in M n e /\
              result = ([TextRef (Some n) M e None], [Bind elem (TextRef (Some n) M e None)])) /\
         ((forall e, ~ declared_in M n e) ->
            result = ([], [ModuleLog expMod (ref_start elem)
                             ("reference not found: " +:+ n)]))
     end).
Proof.
  intros srcRef n result. subst result. unfold linkedRef. fold n.
  pose proof (importArgRef_spec srcRef n) as Harg.
  destruct (truthy (importArgRef srcRef n)).
  - split; [reflexivity|]. intros Hnot. exfalso. apply Hnot. now apply Harg.
  - split; [intros Hp; apply Harg in Hp; discriminate|]. intros _.
    unfold importRef.
    destruct (resolveImport n (importResolveMap registry M)) as [res|].
    + cbv zeta. now destruct (modExp res).
    + pose proof (localRef_spec n M) as Hlocal.
      destruct (localRef n M) as [r|].
      * destruct Hlocal as (e & He & ->). split; [eauto|].
        intros Hnone. now apply Hnone in He.
      * split; [intros [e He]; now apply Hlocal in He | reflexivity].
Qed.

(** The theorem at the call of [a] in [main], which the import resolution
    map of [mainABC] resolves into module m1. *)
Lemma linkedRef_lookup_order_witness :
  let main := localFn mainABC (fnOf "main" 0 [callTo "a" 12; callTo "b" 17; callTo "c" 22]) in
  let a := importedFn main m1 (fnOf "a" 0 []) in
  linkedRef exampleResolveMap exampleResolveImport (callTo "a" 12) main mainABC registryABC
  = ([a], [Bind (callTo "a" 12) a]).
Proof.
  intros main a.
  refine (proj2 (linkedRef_lookup_order exampleResolveMap exampleResolveImport registryABC
                   (callTo "a" 12) (Some "main") mainABC
                   (EFn (fnOf "main" 0 [callTo "a" 12; callTo "b" 17; callTo "c" 22]))
                   None mainABC) _).
  intros (info & i & Hinfo & _). discriminate.
Defined.

End TraverseRefsFacts.

Module SrcMapMoreFacts.
Import SrcMapTs SrcMapMore SrcMapFacts.

(** *** compact *)

Lemma compact_loop_head prev rest :
  exists h t, compact_loop prev rest = h :: t /\
    src h = src prev /\ srcStart h = srcStart prev /\ destStart h = destStart prev.
Proof.
  revert prev. induction rest as [|e rest IH]; intros prev; simpl.
  - eauto 10.
  - destruct (_ && _ && _).
    + destruct (IH {| src := src prev; srcStart := srcStart prev; srcEnd := srcEnd e;
                      destStart := destStart prev; destEnd := destEnd e |})
        as (h & t & -> & ? & ? & ?). eauto 10.
    + eauto 10.
Qed.

Lemma mergeable_same_start prev e e' :
  src e' = src e -> srcStart e' = srcStart e -> destStart e' = destStart e ->
  mergeable prev e' = mergeable prev e.
Proof. unfold mergeable. now intros -> -> ->. Qed.

Lemma compact_loop_compacted prev rest : compacted (compact_loop prev rest).
Proof.
  revert prev. induction rest as [|e rest IH]; intros prev; simpl; [auto|].
  destruct (String.eqb (src e) (src prev) && (destEnd prev =? destStart e)
            && (srcEnd prev =? srcStart e)) eqn:Hm; [apply IH|].
  destruct (compact_loop_head e rest) as (h & t & Heq & Hs & Hss & Hds).
  specialize (IH e). rewrite Heq in *. simpl. split; [|exact IH].
  rewrite (mergeable_same_start prev e h) by assumption. exact Hm.
Qed.

Lemma compact_loop_of_compacted prev rest :
  compacted (prev :: rest) -> compact_loop prev rest = prev :: rest.
Proof.
  revert prev. induction rest as [|e rest IH]; intros prev [Hm Hc]; simpl; [reflexivity|].
  unfold mergeable in Hm. rewrite Hm. f_equal. now apply IH.
Qed.

(** Compacting a compacted map changes nothing: in the entries [compact]
    leaves, no entry can be combined with the one before it. *)
Theorem compact_idempotent (m : SrcMap) :
  compacted (entries (compact m)) /\ compact (compact m) = compact m.
Proof.
  unfold compact. destruct (entries m) as [|e0 rest] eqn:Hm.
  - rewrite Hm. split; [exact I|reflexivity].
  - simpl. pose proof (compact_loop_compacted e0 rest) as Hc. split; [exact Hc|].
    destruct (compact_loop_head e0 rest) as (h & t & Heq & _).
    rewrite Heq in *. now rewrite compact_loop_of_compacted.
Qed.

Lemma compact_loop_length prev rest :
  (length (compact_loop prev rest) <= S (length rest))%nat.
Proof.
  revert prev. induction rest as [|e rest IH]; intros prev; simpl; [lia|].
  destruct (_ && _ && _).
  - specialize (IH {| src := src prev; srcStart := srcStart prev; srcEnd := srcEnd e;
                      destStart := destStart prev; destEnd := destEnd e |}). lia.
  - specialize (IH e). simpl. lia.
Qed.

Lemma compact_loop_keeps_length_preserving prev rest :
  length_preserving prev -> Forall length_preserving rest ->
  Forall length_preserving (compact_loop prev rest).
Proof.
  revert prev. induction rest as [|e rest IH]; intros prev Hp Hrest; simpl.
  - now constructor.
  - apply Forall_cons in Hrest as [He Hrest].
    destruct (String.eqb (src e) (src prev) && (destEnd prev =? destStart e)
              && (srcEnd prev =? srcStart e)) eqn:Hm.
    + apply IH; [|exact Hrest].
      apply andb_true_iff in Hm as [Hm Hs]. apply andb_true_iff in Hm as [_ Hd].
      apply Z.eqb_eq in Hs, Hd. destruct Hp as [Hp1 Hp2], He as [He1 He2].
      split; simpl; lia.
    + constructor; [exact Hp|]. now apply IH.
Qed.

(** In a map whose entries each map a range to a range of the same length,
    [compact] is safe: the entries it leaves are again of that kind and no
    more than before, and every position maps as it did before. *)
Theorem compact_keeps_length_preserving_maps (m : SrcMap) :
  Forall length_preserving (entries m) ->
  Forall length_preserving (entries (compact m)) /\
  (length (entries (compact m)) <= length (entries m))%nat /\
  forall ps, mapPositions (compact m) ps = mapPositions m ps.
Proof.
  intros Hlp. split; [|split].
  - unfold compact. destruct (entries m) as [|e0 rest] eqn:Hm; [now rewrite Hm|].
    apply Forall_cons in Hlp as [H0 Hrest]. simpl.
    now apply compact_loop_keeps_length_preserving.
  - unfold compact. destruct (entries m) as [|e0 rest] eqn:Hm; [now rewrite Hm|].
    simpl. apply compact_loop_length.
  - intros ps. now apply compact_length_preserving.
Qed.

Lemma compact_keeps_length_preserving_maps_witness :
  Forall length_preserving (entries (compact three_copies)) /\
  (length (entries (compact three_copies)) <= length (entries three_copies))%nat /\
  forall ps, mapPositions (compact three_copies) ps = mapPositions three_copies ps.
Proof.
  apply (compact_keeps_length_preserving_maps three_copies).
  repeat constructor; simpl; lia.
Defined.

(** *** sort *)

(** [sort] puts the entries in ascending order of destStart and neither
    drops nor adds nor changes an entry; sorting a sorted map changes
    nothing. *)
Theorem sort_ascending_permutation (m : SrcMap) :
  ascending destStart (entries (sort m)) /\
  entries (sort m) ≡ₚ entries m /\
  dest (sort m) = dest m /\
  sort (sort m) = sort m.
Proof.
  split; [apply sort_by_is_ascending|]. split; [apply sort_by_Permutation|].
  split; [reflexivity|]. unfold sort. simpl. f_equal.
  apply sort_by_ascending, sort_by_is_ascending.
Qed.

(** *** merge *)

Lemma mapR_reproject_ranges es1 es new :
  mapR (reproject es1) es = Ok new -> map destRange new = map destRange es.
Proof.
  revert new. induction es as [|e es IH]; simpl; intros new H.
  - now injection H as <-.
  - destruct (reproject es1 e) as [e'|] eqn:He; [|discriminate].
    destruct (mapR (reproject es1) es) as [new'|] eqn:Hes; [|discriminate].
    cbn in H. injection H as <-. simpl. rewrite (IH _ eq_refl).
    apply reproject_dest in He as [H1 H2]. unfold destRange. now rewrite H1, H2.
Qed.

Lemma filter_split_Permutation {A} (f : A -> bool) l :
  List.filter (fun a => negb (f a)) l ++ List.filter f l ≡ₚ l.
Proof.
  induction l as [|a l IH]; simpl; [reflexivity|].
  destruct (f a); simpl.
  - rewrite <- Permutation_middle. now rewrite IH.
  - now rewrite IH.
Qed.

(** Whatever [merge] returns has the dest of the other map and exactly the
    destination ranges of the other map's entries: merging changes where
    ranges come from, never which ranges of the destination are mapped.
    When an entry of the other map links to this one, the entries of the
    result are in ascending order of destStart. *)
Theorem merge_keeps_dest_ranges (this other merged : SrcMap) (log : list string)
    (sameObject : bool) :
  (sameObject = true -> other = this) ->
  merge this other sameObject = (log, Ok merged) ->
  dest merged = dest other /\
  map destRange (entries merged) ≡ₚ map destRange (entries other) /\
  (sameObject = false ->
   (exists e, e ∈ entries other /\ src e = dest this) ->
   ascending destStart (entries merged)).
Proof.
  intros Hsame H. unfold merge in H. destruct sameObject.
  - injection H as _ <-. rewrite (Hsame eq_refl). split; [reflexivity|].
    split; [reflexivity|discriminate].
  - destruct (List.filter (fun e => String.eqb (src e) (dest this)) (entries other))
      as [|e0 mapped] eqn:Hmapped.
    + injection H as _ <-. split; [reflexivity|]. split; [reflexivity|].
      intros _ (e & Hin & Hsrc). exfalso.
      assert (Hf : In e (List.filter (fun e => String.eqb (src e) (dest this)) (entries other))).
      { apply filter_In. split; [now apply list_elem_of_In | now apply String.eqb_eq]. }
      now rewrite Hmapped in Hf.
    + remember (mapR (reproject (entries this)) (sortSrc (e0 :: mapped))) as rs eqn:Hrs.
      symmetry in Hrs. injection H as _ H. destruct rs as [new|]; [|discriminate].
      cbn in H. injection H as <-. simpl. split; [reflexivity|].
      split; [|intros _ _; apply sort_by_is_ascending].
      rewrite sort_by_Permutation, map_app.
      rewrite (mapR_reproject_ranges _ _ _ Hrs). unfold sortSrc.
      rewrite sort_by_Permutation, <- Hmapped, <- map_app.
      now rewrite filter_split_Permutation.
Qed.

Lemma merge_keeps_dest_ranges_witness :
  exists merged,
    merge inner_one_range outer_two_ranges false = ([], Ok merged) /\
    dest merged = "out" /\
    map destRange (entries merged) ≡ₚ [(0, 3); (3, 6)] /\
    (false = false ->
     (exists e, e ∈ entries outer_two_ranges /\ src e = dest inner_one_range) ->
     ascending destStart (entries merged)).
Proof.
  eexists. split; [reflexivity|].
  apply (merge_keeps_dest_ranges inner_one_range outer_two_ranges _ [] false).
  - discriminate.
  - reflexivity.
Defined.

(** *** destToSrc and srcToDest *)

(** In a map of length-preserving entries, the position [destToSrc] returns
    lies in the source range of an entry with the returned src that covers
    the destination position, as far from the start of the source range as
    the destination position is from the start of the destination range. *)
Theorem destToSrc_in_src_range (p : Z) (es : list SrcMapEntry) (sp : SrcPosition) :
  Forall length_preserving es ->
  destToSrc p es = Ok sp ->
  exists e, e ∈ es /\ covers p e = true /\ pos_src sp = src e /\
    srcStart e <= position sp <= srcEnd e /\
    position sp - srcStart e = p - destStart e.
Proof.
  intros Hlp H. unfold destToSrc in H.
  destruct (List.find (covers p) es) as [e|] eqn:Hf; [|discriminate].
  injection H as <-. apply find_some in Hf as [Hin Hc].
  apply list_elem_of_In in Hin. rewrite Forall_forall in Hlp.
  destruct (Hlp e Hin) as [H1 H2]. apply covers_spec in Hc as Hc'.
  exists e. simpl. repeat split; auto; lia.
Qed.

Lemma destToSrc_in_src_range_witness :
  exists e, e ∈ entries three_copies /\ covers 16 e = true /\ "s" = src e /\
    srcStart e <= 6 <= srcEnd e /\ 6 - srcStart e = 16 - destStart e.
Proof.
  apply (destToSrc_in_src_range 16 (entries three_copies)
           {| pos_src := "s"; position := 6 |}).
  - repeat constructor; simpl; lia.
  - reflexivity.
Defined.

(** [srcToDest] looks an entry up by the number of the source position
    alone and does not ask which text the entry is from: in a map of two
    texts, destination position 7 comes from position 2 of "B", and
    [srcToDest] takes position 2 to destination position 2, which is in the
    part copied from "A". *)
Lemma srcToDest_ignores_src :
  destToSrc 7 (entries two_texts) = Ok {| pos_src := "B"; position := 2 |} /\
  srcToDest 2 (entries two_texts) = inl {| pos_src := "A"; position := 2 |}.
Proof. split; reflexivity. Qed.

(** Round trip.  Let [destToSrc] map destination position p through the
    entry e (the first whose destination range, ends included, holds p) to
    the source position q, and let e be length preserving.  Then the source
    range of e holds q, and [srcToDest] takes q back to p, with the src of
    e, exactly when the first entry whose source range (ends included, the
    text not looked at) holds q is from the same text as e and moves its
    text as far as e does.  This is so whenever every entry whose source
    range holds q is such an entry. *)
Theorem srcToDest_destToSrc (p : Z) (es : list SrcMapEntry) (e : SrcMapEntry) :
  let q := srcStart e + p - destStart e in
  length_preserving e ->
  List.find (covers p) es = Some e ->
  destToSrc p es = Ok {| pos_src := src e; position := q |} /\
  covers_src q e = true /\
  (srcToDest q es = inl {| pos_src := src e; position := p |} <->
   exists e', List.find (covers_src q) es = Some e' /\
     src e' = src e /\ offset e' = offset e) /\
  ((forall e', e' ∈ es -> covers_src q e' = true ->
      src e' = src e /\ offset e' = offset e) ->
   srcToDest q es = inl {| pos_src := src e; position := p |}).
Proof.
  intros q [Hle Hlen] Hf. pose proof (find_some _ _ Hf) as [Hin Hc].
  apply covers_spec in Hc.
  assert (Hcs : covers_src q e = true).
  { unfold covers_src. subst q. rewrite andb_true_iff, Z.leb_le, Z.geb_le. lia. }
  assert (Hiff : srcToDest q es = inl {| pos_src := src e; position := p |} <->
            exists e', List.find (covers_src q) es = Some e' /\
              src e' = src e /\ offset e' = offset e).
  { unfold srcToDest, offset. split.
    - destruct (List.find (covers_src q) es) as [e'|]; [|discriminate].
      intros [= Hs Hp]. exists e'. repeat split; [exact Hs|]. subst q. lia.
    - intros (e' & -> & Hs & Ho). rewrite Hs. do 2 f_equal. subst q. lia. }
  split; [unfold destToSrc; now rewrite Hf|]. split; [exact Hcs|]. split; [exact Hiff|].
  intros Hall. apply Hiff.
  destruct (List.find (covers_src q) es) as [e'|] eqn:Hf'.
  - exists e'. split; [reflexivity|]. apply find_some in Hf' as [Hin' Hc'].
    apply Hall; [now apply list_elem_of_In|exact Hc'].
  - eapply find_none in Hf'; [|exact Hin]. congruence.
Qed.

(** The theorem at [three_copies] and position 14, where the first range
    ends and the second begins: the source ranges of both hold position 4,
    and both move their text by 10. *)
Lemma srcToDest_destToSrc_witness :
  let e := {| src := "s"; srcStart := 0; srcEnd := 4; destStart := 10; destEnd := 14 |} in
  destToSrc 14 (entries three_copies) = Ok {| pos_src := "s"; position := 4 |} /\
  covers_src 4 e = true /\
  (srcToDest 4 (entries three_copies) = inl {| pos_src := "s"; position := 14 |} <->
   exists e', List.find (covers_src 4) (entries three_copies) = Some e' /\
     src e' = "s" /\ offset e' = 10) /\
  ((forall e', e' ∈ entries three_copies -> covers_src 4 e' = true ->
      src e' = "s" /\ offset e' = 10) ->
   srcToDest 4 (entries three_copies) = inl {| pos_src := "s"; position := 14 |}).
Proof.
  intros e.
  apply (srcToDest_destToSrc 14 (entries three_copies) e).
  - split; simpl; lia.
  - reflexivity.
Defined.

End SrcMapMoreFacts.

Module ParserLoggingMoreFacts.
Import ParserLogging ParserLoggingMore ParserLoggingFacts.

(** *** The array of line starts *)

Lemma newlineEnds_spec s i x :
  x ∈ newlineEnds s i <->
  i < x <= i + slen s /\ String.get (Z.to_nat (x - 1 - i)) s = Some newline.
Proof.
  revert i. induction s as [|c s IH]; intros i.
  - simpl. rewrite elem_of_nil. split; [tauto|]. intros [H _]. lia.
  - assert (Hstep : x ∈ newlineEnds s (i + 1) <->
              i + 1 < x <= i + slen (String c s) /\
              String.get (Z.to_nat (x - 1 - i)) (String c s) = Some newline).
    { rewrite IH. simpl String.length. split.
      - intros [Hr Hg]. split; [lia|].
        replace (Z.to_nat (x - 1 - i)) with (S (Z.to_nat (x - 1 - (i + 1)))) by lia.
        exact Hg.
      - intros [Hr Hg]. split; [lia|].
        replace (Z.to_nat (x - 1 - i)) with (S (Z.to_nat (x - 1 - (i + 1)))) in Hg by lia.
        exact Hg. }
    cbn [newlineEnds]. destruct (Ascii.eqb_spec c newline) as [->|Hc].
    + rewrite elem_of_cons, Hstep. simpl String.length. split.
      * intros [->|[Hr Hg]]; [|split; [lia|exact Hg]].
        split; [lia|]. now replace (i + 1 - 1 - i) with 0 by lia.
      * intros [Hr Hg]. destruct (decide (x = i + 1)); [now left|right].
        split; [lia|exact Hg].
    + rewrite Hstep. split; intros [Hr Hg]; (split; [|exact Hg]); [lia|].
      destruct (decide (x = i + 1)) as [->|]; [|lia].
      replace (i + 1 - 1 - i) with 0 in Hg by lia. simpl in Hg. congruence.
Qed.

Lemma newlineEnds_ascending s i (a b : nat) x y :
  (a < b)%nat ->
  (i :: newlineEnds s i) !! a = Some x -> (i :: newlineEnds s i) !! b = Some y ->
  x < y.
Proof.
  revert i a b x y. induction s as [|c s IH]; intros i a b x y Hab Ha Hb.
  - destruct b as [|b]; [lia|]. destruct b; discriminate.
  - destruct b as [|b]; [lia|]. cbn [newlineEnds] in *.
    assert (Htail : forall z, z ∈ (i + 1) :: newlineEnds s (i + 1) -> i < z).
    { intros z Hz. apply elem_of_cons in Hz as [->|Hz]; [lia|].
      apply newlineEnds_spec in Hz. lia. }
    destruct (Ascii.eqb c newline).
    + destruct a as [|a].
      * injection Ha as <-. simpl in Hb. apply Htail. eapply list_elem_of_lookup_2, Hb.
      * simpl in Ha, Hb. apply (IH (i + 1) a b); [lia|assumption..].
    + destruct a as [|a].
      * injection Ha as <-. simpl in Hb. apply Htail. right.
        eapply list_elem_of_lookup_2, Hb.
      * simpl in Ha, Hb. apply (IH (i + 1) (S a) (S b)); [lia|assumption..].
Qed.

(** The line starts that [getStarts] computes are 0 and the positions just
    after each newline character of the source, and no others, in strictly
    ascending order. *)
Theorem lineStarts_after_each_newline (src : string) :
  (forall x, x ∈ lineStarts src <->
     x = 0 \/ (1 <= x <= slen src /\
               String.get (Z.to_nat (x - 1)) src = Some newline)) /\
  (forall (a b : nat) x y, (a < b)%nat ->
     lineStarts src !! a = Some x -> lineStarts src !! b = Some y -> x < y).
Proof.
  split; [|intros a b x y; apply newlineEnds_ascending].
  intros x. unfold lineStarts. rewrite elem_of_cons, newlineEnds_spec.
  replace (x - 1 - 0) with (x - 1) by lia.
  split; (intros [H|[Hr Hg]]; [now left|right; split; [lia|exact Hg]]).
Qed.

(** *** Positions outside the source *)

Lemma lineStartFrom_grows ls i k :
  (k <= length ls)%nat -> i + Z.of_nat k <= lineStartFrom ls i k.
Proof.
  revert i k. induction ls as [|l ls IH]; intros i k Hk; destruct k; simpl in *; try lia.
  specialize (IH (i + slen l + 1) k). lia.
Qed.

(** Below every start after [s], the search ends at [s]. *)
Lemma search_below fuel starts pos :
  Z.of_nat (length starts) <= 2 ^ 30 ->
  forall s e,
  0 <= s <= e -> e < Z.of_nat (length starts) ->
  (forall i x, s < i <= e -> arr_get starts i = Some x -> pos < x) ->
  (Z.to_nat (e - s) <= fuel)%nat ->
  search fuel starts pos s e = Some s.
Proof.
  intros Hlen. induction fuel as [|fuel IH]; intros s e Hse He Hbelow Hfuel.
  - apply search_done. lia.
  - simpl. destruct (Z.ltb_spec (s + 1) e) as [Hlt|Hge]; [|reflexivity].
    rewrite toInt32_small by lia. rewrite Z.shiftr_div_pow2 by lia.
    change (2 ^ 1) with 2.
    assert (Hmid : s < (s + e) / 2 < e) by (Z.div_mod_to_equations; lia).
    destruct (arr_get_in_range starts ((s + e) / 2)) as [xm Hxm]; [lia|].
    rewrite Hxm. cbn.
    assert (pos < xm) by (apply (Hbelow ((s + e) / 2)); [lia|exact Hxm]).
    destruct (Z.geb_spec pos xm); [lia|].
    apply IH; try lia. intros i x Hi. apply Hbelow. lia.
Qed.

Lemma srcLine_found_start src p c r c' :
  srcLine src p c = (Some r, c') -> found_start src p c = Some (lineNum r - 1).
Proof.
  unfold srcLine, found_start. destruct (getStarts src c) as [starts c1]. simpl fst.
  intros H. injection H as H _.
  destruct (arr_get starts (Z.of_nat (length starts) - 1)) as [at_end|]; [|discriminate].
  cbn in *.
  destruct (search (length starts) starts p _ _) as [start|]; [|discriminate].
  cbn in *. destruct (arr_get starts start) as [at_start|]; [|discriminate].
  cbn in H. injection H as <-. simpl. f_equal. lia.
Qed.

(** Two positions that the search takes to the same line get the same line
    and line number, and columns as far apart as they are. *)
Lemma srcLine_same_start src p q c r c' :
  found_start src q c = found_start src p c ->
  srcLine src p c = (Some r, c') ->
  srcLine src q c =
    (Some {| line := line r; linePos := linePos r + (q - p); lineNum := lineNum r |}, c').
Proof.
  unfold srcLine, found_start. destruct (getStarts src c) as [starts c1]. simpl fst.
  intros Hs H. injection H as H <-.
  destruct (arr_get starts (Z.of_nat (length starts) - 1)) as [at_end|]; [|discriminate].
  cbn in *. rewrite Hs.
  destruct (search (length starts) starts p _ _) as [start|]; [|discriminate].
  cbn in *. destruct (arr_get starts start) as [at_start|]; [|discriminate].
  cbn in *. injection H as <-. simpl. do 3 f_equal. lia.
Qed.

Lemma found_start_cached src p c :
  c !! src = Some (lineStarts src) ->
  found_start src p c =
    (let starts := startsOf (lines src) 0 in
     let end_ := Z.of_nat (length (lines src)) - 1 in
     search (length (lines src)) starts p
       (if p >=? lineStartFrom (lines src) 0 (length (lines src) - 1) then end_ else 0) end_).
Proof.
  intros Hc. unfold found_start, getStarts. rewrite Hc. simpl fst.
  unfold lineStarts. rewrite lineStarts_startsOf, startsOf_length.
  pose proof (lines_nonempty src) as Hne.
  assert (Hpos : (0 < length (lines src))%nat) by (destruct (lines src); simpl; [congruence|lia]).
  replace (Z.of_nat (length (lines src)) - 1) with (Z.of_nat (length (lines src) - 1)) by lia.
  rewrite arr_get_lookup, startsOf_lookup by lia. reflexivity.
Qed.

(** Past the last line start, the short circuit picks the last line. *)
Lemma found_start_last src p c :
  c !! src = Some (lineStarts src) ->
  lineStartFrom (lines src) 0 (length (lines src) - 1) <= p ->
  found_start src p c = Some (Z.of_nat (length (lines src)) - 1).
Proof.
  intros Hc Hp. rewrite found_start_cached by assumption. cbv zeta.
  destruct (Z.geb_spec p (lineStartFrom (lines src) 0 (length (lines src) - 1))); [|lia].
  apply search_done. lia.
Qed.

(** Before the second line start, the search picks the first line. *)
Lemma found_start_first src p c :
  c !! src = Some (lineStarts src) ->
  slen src < 2 ^ 30 ->
  p <= 0 ->
  found_start src p c = Some 0.
Proof.
  intros Hc Hlen Hp. rewrite found_start_cached by assumption. cbv zeta.
  pose proof (lines_nonempty src) as Hne.
  pose proof (lines_length src) as Hll.
  assert (Hpos : (0 < length (lines src))%nat) by (destruct (lines src); simpl; [congruence|lia]).
  destruct (Z.geb_spec p (lineStartFrom (lines src) 0 (length (lines src) - 1))) as [Hge|Hlt].
  - pose proof (lineStartFrom_grows (lines src) 0 (length (lines src) - 1) ltac:(lia)).
    replace (Z.of_nat (length (lines src)) - 1) with 0 by lia. now apply search_done.
  - apply search_below; rewrite ?startsOf_length; try lia.
    intros i x Hi Hx. rewrite <- (Z2Nat.id i) in Hx by lia.
    rewrite arr_get_lookup, startsOf_lookup in Hx by lia. injection Hx as <-.
    pose proof (lineStartFrom_grows (lines src) 0 (Z.to_nat i) ltac:(lia)). lia.
Qed.

Lemma lineStart_le_slen src k :
  (k < length (lines src))%nat -> lineStart src k <= slen src.
Proof.
  intros Hk. destruct (lookup_lt_is_Some_2 (lines src) k Hk) as [l Hl].
  destruct (lines_decompose src k l Hl) as (_ & pre & post & Hsrc & Hpre & _).
  unfold lineStart. rewrite <- Hpre.
  assert (slen src = slen pre + (slen l + slen post)) by (rewrite Hsrc at 1; now rewrite !slen_append).
  lia.
Qed.

(** What [srcLine] answers before the source and after it. *)
Lemma srcLine_outside src p c :
  c !! src = Some (lineStarts src) ->
  slen src < 2 ^ 30 ->
  (p < 0 ->
   exists l, lines src !! 0%nat = Some l /\
     srcLine src p c = (Some {| line := l; linePos := p; lineNum := 1 |}, c)) /\
  (slen src < p ->
   let last := (length (lines src) - 1)%nat in
   exists l, lines src !! last = Some l /\
     srcLine src p c =
       (Some {| line := l; linePos := p - lineStart src last;
                lineNum := Z.of_nat (length (lines src)) |}, c) /\
     slen l < p - lineStart src last).
Proof.
  intros Hc Hlen.
  pose proof (lines_nonempty src) as Hne.
  assert (Hpos : (0 < length (lines src))%nat) by (destruct (lines src); simpl; [congruence|lia]).
  split.
  - intros Hp.
    destruct (srcLine_on_lineStarts src 0 c Hc ltac:(lia) Hlen) as (k & l & Hline & Hl & Hr).
    pose proof (srcLine_found_start _ _ _ _ _ Hline) as Hfs.
    rewrite found_start_first in Hfs by (assumption || lia). simpl in Hfs.
    assert (k = 0%nat) by (injection Hfs; lia). subst k.
    exists l. split; [exact Hl|].
    rewrite (srcLine_same_start src 0 p c _ c
               ltac:(rewrite !found_start_first by (assumption || lia); reflexivity) Hline).
    simpl. unfold lineStart. simpl. do 3 f_equal.
    destruct (lines src); simpl; lia.
  - intros Hp last.
    pose proof (lineStart_le_slen src last ltac:(subst last; lia)) as Hle.
    unfold lineStart in Hle.
    destruct (srcLine_on_lineStarts src (slen src) c Hc ltac:(lia) Hlen)
      as (k & l & Hline & Hl & Hr).
    pose proof (srcLine_found_start _ _ _ _ _ Hline) as Hfs.
    rewrite found_start_last in Hfs by (assumption || (fold last; lia)). simpl in Hfs.
    assert (k = last) by (injection Hfs; subst last; lia). subst k.
    exists l. split; [exact Hl|]. split.
    2:{ destruct (lines_decompose src last l Hl) as (_ & pre & post & Hsrc & Hpre & _).
        assert (slen src = slen pre + (slen l + slen post))
          by (rewrite Hsrc at 1; now rewrite !slen_append).
        unfold lineStart. lia. }
    rewrite (srcLine_same_start src (slen src) p c _ c
               ltac:(rewrite !found_start_last by (assumption || (fold last; lia)); reflexivity)
               Hline).
    simpl. do 3 f_equal; subst last; lia.
Qed.

(** [srcLine] answers for positions outside the source too: a negative
    position is put on the first line, with the position itself, a negative
    number, as its column; a position past the end of the source is put on
    the last line, at a column past the end of that line. *)
Theorem srcLine_outside_src (src : string) (p : Z) (startCache : gmap string (list Z)) :
  cache_ok startCache ->
  slen src < 2 ^ 30 ->
  let startCache' := <[src := lineStarts src]> startCache in
  (p < 0 ->
   exists l, lines src !! 0%nat = Some l /\
     srcLine src p startCache
       = (Some {| line := l; linePos := p; lineNum := 1 |}, startCache')) /\
  (slen src < p ->
   let last := (length (lines src) - 1)%nat in
   exists l, lines src !! last = Some l /\
     srcLine src p startCache
       = (Some {| line := l; linePos := p - lineStart src last;
                  lineNum := Z.of_nat (length (lines src)) |}, startCache') /\
     slen l < p - lineStart src last).
Proof.
  intros Hc Hlen c'.
  destruct (getStarts_ok src startCache Hc) as [Hget _].
  assert (Hin : c' !! src = Some (lineStarts src)) by apply lookup_insert_eq.
  assert (Hget' : getStarts src c' = (lineStarts src, c')).
  { unfold getStarts. now rewrite Hin. }
  assert (Heq : srcLine src p startCache = srcLine src p c').
  { unfold srcLine. now rewrite Hget, Hget'. }
  rewrite Heq. exact (srcLine_outside src p c' Hin Hlen).
Qed.

Lemma srcLine_outside_src_witness :
  let src := "ab" +:+ nl +:+ "cde" in
  let startCache' := <[src := lineStarts src]> (∅ : gmap string (list Z)) in
  (-2 < 0 ->
   exists l, lines src !! 0%nat = Some l /\
     srcLine src (-2) ∅
       = (Some {| line := l; linePos := -2; lineNum := 1 |}, startCache')) /\
  (slen src < -2 ->
   let last := (length (lines src) - 1)%nat in
   exists l, lines src !! last = Some l /\
     srcLine src (-2) ∅
       = (Some {| line := l; linePos := -2 - lineStart src last;
                  lineNum := Z.of_nat (length (lines src)) |}, startCache') /\
     slen l < -2 - lineStart src last).
Proof.
  apply (srcLine_outside_src ("ab" +:+ nl +:+ "cde") (-2) ∅).
  - intros s l H. rewrite lookup_empty in H. discriminate.
  - reflexivity.
Defined.

(** *** logInternal *)

Lemma spaces_length n : String.length (spaces n) = n.
Proof. induction n; simpl; congruence. Qed.

Lemma get_middle pre l post n :
  (n < String.length l)%nat ->
  String.get (String.length pre + n) (pre +:+ l +:+ post) = String.get n l.
Proof.
  intros Hn. rewrite Nat.add_comm, <- String.append_correct2.
  symmetry. now apply String.append_correct1.
Qed.

(** For a position inside the source, [logInternal] makes three calls of
    [log] and throws nothing: the caller's messages; the line holding the
    position, followed by its line number; and a caret after as many spaces
    as the position is from the start of its line, so that the caret stands
    under the very character of the printed line that the position has in
    the source. *)
Theorem logInternal_caret_under_pos {Msg : Type} (src : string) (pos : Z)
    (msgs : list Msg) (startCache : gmap string (list Z)) :
  cache_ok startCache ->
  0 <= pos <= slen src ->
  slen src < 2 ^ 30 ->
  exists (k : nat) (l : string),
    let col := Z.to_nat (pos - lineStart src k) in
    logInternal src pos msgs startCache
      = (Some ([ map MsgArg msgs;
                 [ StrArg l; StrArg ("  Ln " +:+ numberText (Z.of_nat k + 1)) ];
                 [ StrArg (spaces col +:+ "^") ] ], None),
         <[src := lineStarts src]> startCache) /\
    lines src !! k = Some l /\
    (col <= String.length l)%nat /\
    String.get col (spaces col +:+ "^") = Some "^"%char /\
    ((col < String.length l)%nat -> String.get col l = String.get (Z.to_nat pos) src).
Proof.
  intros Hc Hp Hlen.
  destruct (getStarts_ok src startCache Hc) as [Hget _].
  set (c' := <[src := lineStarts src]> startCache) in *.
  assert (Hin : c' !! src = Some (lineStarts src)) by apply lookup_insert_eq.
  assert (Hget' : getStarts src c' = (lineStarts src, c')).
  { unfold getStarts. now rewrite Hin. }
  assert (Heq : srcLine src pos startCache = srcLine src pos c').
  { unfold srcLine. now rewrite Hget, Hget'. }
  destruct (srcLine_on_lineStarts src pos c' Hin Hp Hlen) as (k & l & Hline & Hl & Hr).
  exists k, l. cbv zeta. split; [|split; [exact Hl|split; [lia|split]]].
  - unfold logInternal. rewrite Heq, Hline. cbn.
    unfold repeat_space. simpl.
    destruct (Z.ltb_spec (pos - lineStart src k) 0); [lia|]. reflexivity.
  - rewrite <- (spaces_length (Z.to_nat (pos - lineStart src k))) at 1.
    replace (String.length (spaces (Z.to_nat (pos - lineStart src k))))
      with (0 + String.length (spaces (Z.to_nat (pos - lineStart src k))))%nat by lia.
    now rewrite <- String.append_correct2.
  - intros Hcol.
    destruct (lines_decompose src k l Hl) as (_ & pre & post & Hsrc & Hpre & _).
    unfold lineStart in *. rewrite <- Hpre in *.
    replace (Z.to_nat pos) with (String.length pre + Z.to_nat (pos - slen pre))%nat by lia.
    transitivity (String.get (String.length pre + Z.to_nat (pos - slen pre))
                    (pre +:+ l +:+ post)); [|now rewrite <- Hsrc].
    symmetry. now apply get_middle.
Qed.

Lemma logInternal_caret_under_pos_witness :
  exists (k : nat) (l : string),
    let src := "ab" +:+ nl +:+ "cde" +:+ nl in
    let col := Z.to_nat (4 - lineStart src k) in
    logInternal src 4 ["oops"] ∅
      = (Some ([ map MsgArg ["oops"];
                 [ StrArg l; StrArg ("  Ln " +:+ numberText (Z.of_nat k + 1)) ];
                 [ StrArg (spaces col +:+ "^") ] ], None),
         <[src := lineStarts src]> ∅) /\
    lines src !! k = Some l /\
    (col <= String.length l)%nat /\
    String.get col (spaces col +:+ "^") = Some "^"%char /\
    ((col < String.length l)%nat -> String.get col l = String.get (Z.to_nat 4) src).
Proof.
  apply (logInternal_caret_under_pos ("ab" +:+ nl +:+ "cde" +:+ nl) 4 ["oops"] ∅).
  - intros s l H. rewrite lookup_empty in H. discriminate.
  - vm_compute. split; discriminate.
  - reflexivity.
Defined.

(** For a negative position, [logInternal] logs the caller's messages and
    the first line of the source with line number 1, and then throws the
    RangeError of [repeat] for a negative count: the line with the caret is
    never logged. *)
Theorem logInternal_negative_pos_throws {Msg : Type} (src : string) (pos : Z)
    (msgs : list Msg) (startCache : gmap string (list Z)) :
  cache_ok startCache ->
  slen src < 2 ^ 30 ->
  pos < 0 ->
  exists l,
    lines src !! 0%nat = Some l /\
    logInternal src pos msgs startCache
      = (Some ([ map MsgArg msgs; [ StrArg l; StrArg "  Ln 1" ] ],
               Some (InvalidCount pos)),
         <[src := lineStarts src]> startCache).
Proof.
  intros Hc Hlen Hp.
  destruct (getStarts_ok src startCache Hc) as [Hget _].
  set (c' := <[src := lineStarts src]> startCache) in *.
  assert (Hin : c' !! src = Some (lineStarts src)) by apply lookup_insert_eq.
  assert (Hget' : getStarts src c' = (lineStarts src, c')).
  { unfold getStarts. now rewrite Hin. }
  assert (Heq : srcLine src pos startCache = srcLine src pos c').
  { unfold srcLine. now rewrite Hget, Hget'. }
  destruct (srcLine_outside src pos c' Hin Hlen) as [Hneg _].
  destruct (Hneg Hp) as (l & Hl & Hline).
  exists l. split; [exact Hl|].
  unfold logInternal. rewrite Heq, Hline. cbn.
  unfold repeat_space. simpl.
  destruct (Z.ltb_spec pos 0); [reflexivity|lia].
Qed.

Lemma logInternal_negative_pos_throws_witness :
  exists l,
    lines ("ab" +:+ nl +:+ "cde") !! 0%nat = Some l /\
    logInternal ("ab" +:+ nl +:+ "cde") (-1) ["oops"] ∅
      = (Some ([ map MsgArg ["oops"]; [ StrArg l; StrArg "  Ln 1" ] ],
               Some (InvalidCount (-1))),
         <[("ab" +:+ nl +:+ "cde") := lineStarts ("ab" +:+ nl +:+ "cde")]> ∅).
Proof.
  apply (logInternal_negative_pos_throws ("ab" +:+ nl +:+ "cde") (-1) ["oops"] ∅).
  - intros s l H. rewrite lookup_empty in H. discriminate.
  - reflexivity.
  - reflexivity.
Defined.

End ParserLoggingMoreFacts.

Module MatchingLexerMoreFacts.
Import MatchingLexer MatchingLexerMore MatchingLexerFacts.

Section Next.
Variable tokenNext : MatcherRef -> string -> Z -> option (Token * Z).

Lemma next_loop_not_ignored fuel token lx tok lx' :
  next_loop tokenNext fuel token lx = Some (Some tok, lx') -> kind tok ∉ ignore lx.
Proof.
  revert token lx. induction fuel as [|fuel IH]; intros token lx; simpl;
    destruct token as [t0|]; try discriminate.
  - destruct (bool_decide_reflect (kind t0 ∈ ignore lx)); [discriminate|].
    now intros [= <- <-].
  - destruct (bool_decide_reflect (kind t0 ∈ ignore lx)); [|now intros [= <- <-]].
    destruct (eof lx); [discriminate|].
    destruct (matcher_next tokenNext (matcher lx) lx) as [t1 lx1] eqn:Hn.
    intros H. apply IH in H. apply matcher_next_frame in Hn.
    destruct Hn as (_ & _ & Hi & _). now rewrite <- Hi.
Qed.

(** [next] never returns a token whose kind is in the ignore set, and at
    the end of the source it returns nothing and leaves the lexer as it
    is. *)
Theorem next_never_ignored (fuel : nat) (lx : Lexer) (tok : Token) (lx' : Lexer) :
  next tokenNext fuel lx = Returned (Some tok) lx' ->
  (kind tok ∉ ignore lx) /\ eof lx = false.
Proof.
  unfold next. destruct (eof lx); [discriminate|].
  destruct (matcher_next tokenNext (matcher lx) lx) as [t1 lx1] eqn:Hn.
  destruct (next_loop tokenNext fuel t1 lx1) as [[t2 lx2]|] eqn:Hl; [|discriminate].
  intros [= -> <-]. split; [|reflexivity].
  apply next_loop_not_ignored in Hl. apply matcher_next_frame in Hn.
  destruct Hn as (_ & _ & Hi & _). now rewrite <- Hi.
Qed.

Lemma next_loop_returns fuel token lx :
  advancing tokenNext ->
  m_src (matchers lx (matcher lx)) = src lx ->
  m_pos (matchers lx (matcher lx)) <= Z.of_nat (String.length (src lx)) ->
  (Z.to_nat (Z.of_nat (String.length (src lx)) - m_pos (matchers lx (matcher lx))) < fuel)%nat ->
  exists r, next_loop tokenNext fuel token lx = Some r.
Proof.
  intros Hadv. revert token lx.
  induction fuel as [|fuel IH]; intros token lx Hsrc Hpos Hfuel; [lia|].
  simpl. destruct token as [t0|]; [|eauto].
  destruct (bool_decide (kind t0 ∈ ignore lx)); [|eauto].
  unfold eof, matcher_position.
  destruct (Z.eqb_spec (m_pos (matchers lx (matcher lx))) (Z.of_nat (String.length (src lx))))
    as [|Hne]; [eauto|].
  unfold matcher_next.
  destruct (tokenNext (matcher lx) (m_src (matchers lx (matcher lx)))
              (m_pos (matchers lx (matcher lx)))) as [[t1 p1]|] eqn:Ht.
  - apply Hadv in Ht. rewrite Hsrc in Ht.
    apply IH; simpl; unfold store_set; rewrite Nat.eqb_refl; simpl; try assumption; lia.
  - destruct fuel; simpl; eauto.
Qed.

(** With matchers that make progress, [next] returns: when the active
    matcher is bound to the source of the lexer at a position not past its
    end, the loop that skips ignored tokens ends within as many rounds as
    there are characters left. *)
Theorem next_returns (fuel : nat) (lx : Lexer) :
  advancing tokenNext ->
  m_src (matchers lx (matcher lx)) = src lx ->
  m_pos (matchers lx (matcher lx)) <= Z.of_nat (String.length (src lx)) ->
  (Z.to_nat (Z.of_nat (String.length (src lx)) - m_pos (matchers lx (matcher lx))) <= fuel)%nat ->
  exists token lx', next tokenNext fuel lx = Returned token lx'.
Proof.
  intros Hadv Hsrc Hpos Hfuel. unfold next, eof, matcher_position.
  destruct (Z.eqb_spec (m_pos (matchers lx (matcher lx))) (Z.of_nat (String.length (src lx))))
    as [|Hne]; [eauto|].
  unfold matcher_next.
  destruct (tokenNext (matcher lx) (m_src (matchers lx (matcher lx)))
              (m_pos (matchers lx (matcher lx)))) as [[t1 p1]|] eqn:Ht.
  - apply Hadv in Ht. rewrite Hsrc in Ht.
    destruct (next_loop_returns fuel (Some t1)
                (matcher_set_position (matcher lx) p1 lx) Hadv) as [[t2 lx2] ->];
      simpl; unfold store_set; rewrite ?Nat.eqb_refl; simpl; try assumption; try lia.
    eauto.
  - destruct fuel; simpl; eauto.
Qed.

Lemma matcher_next_console m lx tok lx' :
  matcher_next tokenNext m lx = (tok, lx') -> console lx' = console lx.
Proof.
  unfold matcher_next. destruct (tokenNext _ _ _) as [[t p]|]; now intros [= <- <-].
Qed.

Lemma next_loop_console fuel token lx r :
  next_loop tokenNext fuel token lx = Some r -> console (snd r) = console lx.
Proof.
  revert token lx. induction fuel as [|fuel IH]; intros token lx; simpl;
    destruct token as [t0|]; try (now intros [= <-]);
    destruct (bool_decide _); try discriminate; try (now intros [= <-]).
  destruct (eof lx); [now intros [= <-]|].
  destruct (matcher_next tokenNext (matcher lx) lx) as [t1 lx1] eqn:Hn.
  intros H. apply IH in H. apply matcher_next_console in Hn. congruence.
Qed.

Lemma next_console fuel lx : console_kept (next tokenNext fuel lx) lx.
Proof.
  unfold next. destruct (eof lx); [reflexivity|].
  destruct (matcher_next tokenNext (matcher lx) lx) as [t1 lx1] eqn:Hn.
  destruct (next_loop tokenNext fuel t1 lx1) as [[t2 lx2]|] eqn:Hl; [|exact I].
  apply next_loop_console in Hl. apply matcher_next_console in Hn. simpl in *. congruence.
Qed.

Lemma andThen_console {A B : Type} (o : Outcome A) (k : A -> Lexer -> Outcome B) lx :
  console_kept o lx -> (forall v l, console_kept (k v l) l) ->
  console_kept (andThen o k) lx.
Proof.
  intros Ho Hk. destruct o as [v l| |]; simpl in *; [|assumption|exact I].
  specialize (Hk v l). destruct (k v l); simpl in *; congruence.
Qed.

Lemma withMatcherIgnore_console {T : Type} tokenMatcher newIgnore
    (fn : Lexer -> Outcome T) lx :
  (forall l, console_kept (fn l) l) ->
  (forall l1 v l2, fn l1 = Returned v l2 -> grown l1 l2) ->
  console_kept (withMatcherIgnore tokenMatcher newIgnore fn lx) lx.
Proof.
  intros Hc Hf. unfold withMatcherIgnore.
  pose proof (Hc (pushMatcher tokenMatcher newIgnore lx)) as Hc1.
  destruct (fn (pushMatcher tokenMatcher newIgnore lx)) as [v l2| |] eqn:Hrun; simpl in *;
    [|assumption|exact I].
  apply Hf in Hrun. apply pop_of_grown in Hrun as (_ & Hcon & _). congruence.
Qed.

Lemma run_returned_grown {T : Type} fuel (c : Code T) l1 v l2 :
  run tokenNext fuel c l1 = Returned v l2 -> grown l1 l2.
Proof. intros H. pose proof (run_grown tokenNext fuel c l1) as Hg. now rewrite H in Hg. Qed.

(** Code that uses the lexer through its interface never makes it pop an
    empty matcher stack: however the code ends, by returning or by throwing,
    nothing has been written to the console. *)
Theorem run_never_pops_too_many {T : Type} (fuel : nat) (c : Code T) (lx : Lexer) :
  console_kept (run tokenNext fuel c lx) lx.
Proof.
  revert lx.
  induction c as [v0| |k IH|pos k IH|k IH|m fn IHfn k IHk|i fn IHfn k IHk|m pos k IH
                 |body IHb handler IHh k IHk];
    intros lx; simpl.
  - reflexivity.
  - reflexivity.
  - apply andThen_console; [apply next_console|]. intros v l. apply IH.
  - specialize (IH (matcher_position (matcher lx)
                      match pos with
                      | Some p => matcher_start (matcher lx) (src lx) p lx
                      | None => lx
                      end)
                   match pos with
                   | Some p => matcher_start (matcher lx) (src lx) p lx
                   | None => lx
                   end).
    destruct pos; exact IH.
  - apply IH.
  - apply andThen_console; [|intros v l; apply IHk].
    apply withMatcherIgnore_console; [exact IHfn|]. intros l1 v l2.
    apply run_returned_grown.
  - apply andThen_console; [|intros v l; apply IHk].
    apply withMatcherIgnore_console; [exact IHfn|]. intros l1 v l2.
    apply run_returned_grown.
  - apply (IH (matcher_set_position m pos lx)).
  - specialize (IHb lx).
    destruct (run tokenNext fuel body lx) as [v l1|l1|]; simpl in *; [| |exact I].
    + specialize (IHk v l1).
      destruct (run tokenNext fuel (k v) l1); simpl in *; congruence.
    + apply (andThen_console (run tokenNext fuel handler l1)
               (fun v => run tokenNext fuel (k v)) lx); [|intros v l; apply IHk].
      specialize (IHh l1).
      destruct (run tokenNext fuel handler l1); simpl in *; congruence.
Qed.

End Next.

Lemma get_Some_lt s n c : String.get n s = Some c -> (n < String.length s)%nat.
Proof.
  revert n. induction s as [|c0 s IH]; intros n; [destruct n; discriminate|].
  destruct n; simpl; [lia|]. intros H. apply IH in H. lia.
Qed.

Lemma charTokens_advancing : advancing charTokens.
Proof.
  intros m s p tok p'. unfold charTokens.
  destruct (Z.ltb_spec p 0); [discriminate|].
  destruct (String.get (Z.to_nat p) s) as [c|] eqn:Hg; [|discriminate].
  intros [= _ <-]. apply get_Some_lt in Hg. lia.
Qed.

(** From the second character of "a  b", with "ws" ignored, [next] skips
    the two spaces and returns the token of kind "ch". *)
Lemma next_never_ignored_witness :
  let lx := snd (position (Some 1) a_b_lexer) in
  let tok := {| kind := "ch"; text := "b"; span := (3, 4) |} in
  (kind tok ∉ ignore lx) /\ eof lx = false.
Proof.
  intros lx tok.
  eapply (next_never_ignored charTokens 3 lx tok).
  vm_compute. reflexivity.
Defined.

Lemma next_returns_witness :
  exists token lx', next charTokens 4 a_b_lexer = Returned token lx'.
Proof.
  apply (next_returns charTokens 4 a_b_lexer charTokens_advancing).
  - reflexivity.
  - vm_compute. discriminate.
  - vm_compute. lia.
Defined.

(** *** quotedText *)

Lemma escapeNewlines_no_newline s : ParserLogging.no_newline (escapeNewlines s).
Proof.
  induction s as [|c s IH]; simpl; [exact I|].
  destruct (Ascii.eqb_spec c ParserLogging.newline) as [|Hc]; simpl.
  - split; [discriminate|]. split; [discriminate|exact IH].
  - split; assumption.
Qed.

Lemma no_newline_append a b :
  ParserLogging.no_newline a -> ParserLogging.no_newline b ->
  ParserLogging.no_newline (a +:+ b).
Proof.
  intros Ha Hb. induction a as [|c a IH]; [exact Hb|].
  rewrite ParserLoggingFacts.append_cons. simpl in *. split; [apply Ha|]. apply IH, Ha.
Qed.

Lemma escapeNewlines_id s : ParserLogging.no_newline s -> escapeNewlines s = s.
Proof.
  induction s as [|c s IH]; simpl; [reflexivity|]. intros [Hc Hs].
  destruct (Ascii.eqb_spec c ParserLogging.newline); [contradiction|].
  now rewrite IH.
Qed.

(** The text that tracing prints for a token holds no newline character,
    whatever the token text is; a text without newlines is printed as it is
    between two quotes. *)
Theorem quotedText_one_line (text : option string) :
  ParserLogging.no_newline (quotedText text) /\
  (forall t, text = Some t -> t <> EmptyString -> ParserLogging.no_newline t ->
     quotedText text = "'" +:+ t +:+ "'").
Proof.
  split.
  - destruct text as [[|c t]|]; try exact I. unfold quotedText.
    apply no_newline_append; [simpl; split; [discriminate|exact I]|].
    apply no_newline_append; [apply escapeNewlines_no_newline|].
    simpl. split; [discriminate|exact I].
  - intros t -> Hne Hnl. destruct t as [|c t]; [congruence|].
    unfold quotedText. now rewrite escapeNewlines_id.
Qed.

End MatchingLexerMoreFacts.

Module ParseModuleMoreFacts.
Import AbstractElems ParseModule ParseModuleMore.

(** *** The scans *)

Lemma findKind_from (parsed : list AbstractElem) k (f : nat -> nat) :
  List.concat (imap (fun i elem => if String.eqb (kind elem) k then [(elem, f i)] else [])
                 parsed)
  = List.concat (map (fun '(elem, i) => if String.eqb (kind elem) k then [(elem, i)] else [])
                   (imap (fun i elem => (elem, f i)) parsed)).
Proof.
  revert f. induction parsed as [|e l IH]; intros f; simpl; [reflexivity|].
  f_equal. apply (IH (f ∘ S)).
Qed.

Lemma findKind_elem parsed k e i :
  (e, i) ∈ findKind parsed k -> parsed !! i = Some e /\ kind e = k.
Proof.
  unfold findKind. pose proof (findKind_from parsed k (fun i => i)) as E.
  cbv beta in E. rewrite E. clear E.
  intros H. apply list_elem_of_In, in_concat in H as (l & Hl & Hin).
  apply in_map_iff in Hl as ([e0 i0] & <- & Hp).
  apply list_elem_of_In, elem_of_lookup_imap in Hp as (i1 & e1 & [= -> ->] & Hlk).
  destruct (String.eqb_spec (kind e1) k); [|destruct Hin].
  destruct Hin as [[= <- <-]|[]]. auto.
Qed.

Lemma scan_spec skip rest j e j' :
  scan skip rest j = Some (e, j') ->
  (j <= j')%nat /\ rest !! (j' - j)%nat = Some e /\ skip (kind e) = false /\
  forall m, (m < j' - j)%nat -> exists x, rest !! m = Some x /\ skip (kind x) = true.
Proof.
  revert j. induction rest as [|x rest IH]; intros j; simpl; [discriminate|].
  destruct (skip (kind x)) eqn:Hs.
  - intros H. apply IH in H as (Hle & Hlk & Hk & Hbetween).
    split; [lia|]. replace (j' - j)%nat with (S (j' - S j)) by lia.
    split; [exact Hlk|]. split; [exact Hk|].
    intros [|m] Hm; [eauto|]. apply Hbetween. lia.
  - intros [= <- <-]. rewrite Nat.sub_diag. split; [lia|]. split; [reflexivity|].
    split; [exact Hs|]. intros m Hm. lia.
Qed.

Lemma nextAfter_spec skip parsed i e j :
  nextAfter skip parsed i = Some (e, j) ->
  (i < j)%nat /\ parsed !! j = Some e /\ skip (kind e) = false /\
  forall m, (i < m < j)%nat -> exists x, parsed !! m = Some x /\ skip (kind x) = true.
Proof.
  unfold nextAfter. intros H. apply scan_spec in H as (Hle & Hlk & Hk & Hbetween).
  rewrite lookup_drop in Hlk. replace (S i + (j - S i))%nat with j in Hlk by lia.
  split; [lia|]. split; [exact Hlk|]. split; [exact Hk|].
  intros m Hm. destruct (Hbetween (m - S i)%nat ltac:(lia)) as (x & Hx & Hsx).
  rewrite lookup_drop in Hx. replace (S i + (m - S i))%nat with m in Hx by lia. eauto.
Qed.

Lemma same_but_merges_kind e e' : same_but_merges e e' -> kind e = kind e'.
Proof. destruct e, e'; simpl; intros H; try reflexivity; try discriminate; now inversion H. Qed.

Lemma same_but_merges_refl e : same_but_merges e e.
Proof. destruct e; simpl; auto. Qed.

Lemma scan_same_shape skip rest rest' j :
  Forall2 same_but_merges rest rest' ->
  match scan skip rest j, scan skip rest' j with
  | Some (e, a), Some (e', b) => a = b /\ same_but_merges e e'
  | None, None => True
  | _, _ => False
  end.
Proof.
  intros H. revert j. induction H as [|x y l l' Hxy Hl IH]; intros j; simpl; [exact I|].
  rewrite <- (same_but_merges_kind x y Hxy).
  destruct (skip (kind x)); [apply IH|]. auto.
Qed.

Lemma mergeTarget_same_shape parsed cur i :
  Forall2 same_but_merges parsed cur -> mergeTarget cur i = mergeTarget parsed i.
Proof.
  intros H. unfold mergeTarget, nextAfter.
  pose proof (scan_same_shape skipMergeExport (drop (S i) parsed) (drop (S i) cur) (S i)
                (Forall2_drop _ _ _ _ H)) as Hs.
  destruct (scan skipMergeExport (drop (S i) parsed) (S i)) as [[e a]|],
           (scan skipMergeExport (drop (S i) cur) (S i)) as [[e' b]|];
    try contradiction; [|reflexivity].
  destruct Hs as [-> Hr]. destruct e, e'; simpl in Hr; try discriminate; reflexivity.
Qed.

(** *** matchMergeImports *)

Lemma mergesAt_insert cur j e j' :
  (j < length cur)%nat ->
  mergesAt (<[j := e]> cur) j' = if decide (j = j') then mergesOf e else mergesAt cur j'.
Proof.
  intros Hj. unfold mergesAt. destruct (decide (j = j')) as [<-|Hne].
  - now rewrite list_lookup_insert_eq.
  - now rewrite list_lookup_insert_ne.
Qed.

Lemma matchMergeImport_step parsed cur lg m i :
  Forall2 same_but_merges parsed cur ->
  match mergeTarget parsed i with
  | Some j =>
      exists s, cur !! j = Some (Struct s) /\
        matchMergeImport (cur, lg) (ImportMerge m, i)
          = (<[j := Struct (withMerge s m)]> cur, lg)
  | None =>
      matchMergeImport (cur, lg) (ImportMerge m, i) = (cur, lg ++ [notAStruct m])
  end.
Proof.
  intros Hshape. rewrite <- (mergeTarget_same_shape parsed cur i Hshape).
  unfold mergeTarget, matchMergeImport. fold skipMergeExport.
  destruct (nextAfter skipMergeExport cur i) as [[next j]|] eqn:Hn; [|reflexivity].
  destruct next; try reflexivity.
  apply nextAfter_spec in Hn as (_ & Hlk & _). eauto.
Qed.

Lemma attached_cons parsed m i todo j :
  attached parsed ((ImportMerge m, i) :: todo) j
  = (if bool_decide (mergeTarget parsed i = Some j) then [m] else [])
    ++ attached parsed todo j.
Proof. reflexivity. Qed.

Lemma unattached_cons parsed m i todo :
  unattached parsed ((ImportMerge m, i) :: todo)
  = match mergeTarget parsed i with Some _ => [] | None => [notAStruct m] end
    ++ unattached parsed todo.
Proof. reflexivity. Qed.

Lemma matchMergeImports_fold parsed todo cur lg :
  Forall2 same_but_merges parsed cur ->
  let out := fold_left matchMergeImport todo (cur, lg) in
  Forall2 same_but_merges parsed (fst out) /\
  (forall j, mergesAt (fst out) j = mergesAt cur j ++ attached parsed todo j) /\
  (forall j, attached parsed todo j = [] -> fst out !! j = cur !! j) /\
  snd out = lg ++ unattached parsed todo.
Proof.
  revert cur lg. induction todo as [|[e i] todo IH]; intros cur lg Hshape.
  - simpl. split; [exact Hshape|]. split; [intros; now rewrite app_nil_r|].
    split; [reflexivity|now rewrite app_nil_r].
  - cbn [fold_left].
    destruct e as [x|m|x|x|x|x|x|x]; try exact (IH cur lg Hshape).
    rewrite unattached_cons. setoid_rewrite attached_cons.
    pose proof (matchMergeImport_step parsed cur lg m i Hshape) as Hstep.
    destruct (mergeTarget parsed i) as [j|].
    + destruct Hstep as (s & Hlk & ->).
      assert (Hlen : (j < length cur)%nat) by (eapply lookup_lt_Some; exact Hlk).
      assert (Hshape' : Forall2 same_but_merges parsed (<[j := Struct (withMerge s m)]> cur)).
      { destruct (Forall2_lookup_r _ _ _ _ _ Hshape Hlk) as (y & Hy & Hr).
        rewrite <- (list_insert_id parsed j y Hy).
        apply Forall2_insert; [exact Hshape|].
        destruct y; simpl in *; try discriminate; exact Hr. }
      destruct (IH (<[j := Struct (withMerge s m)]> cur) lg Hshape') as (H1 & H2 & H3 & H4).
      split; [exact H1|]. split; [|split].
      * intros j0. rewrite H2, mergesAt_insert by exact Hlen.
        destruct (decide (j = j0)) as [<-|Hne].
        -- rewrite bool_decide_eq_true_2 by reflexivity. simpl.
           unfold mergesAt. rewrite Hlk. simpl. now rewrite <- app_assoc.
        -- rewrite bool_decide_eq_false_2 by congruence. reflexivity.
      * intros j0. destruct (decide (j = j0)) as [<-|Hne].
        -- rewrite bool_decide_eq_true_2 by reflexivity. discriminate.
        -- rewrite bool_decide_eq_false_2 by congruence. simpl. intros Hnil.
           rewrite (H3 j0 Hnil). now apply list_lookup_insert_ne.
      * exact H4.
    + rewrite Hstep.
      destruct (IH cur (lg ++ [notAStruct m]) Hshape) as (H1 & H2 & H3 & H4).
      split; [exact H1|]. split; [|split].
      * intros j0. rewrite bool_decide_eq_false_2 by discriminate. apply H2.
      * intros j0. rewrite bool_decide_eq_false_2 by discriminate. apply H3.
      * rewrite H4. now rewrite <- app_assoc.
Qed.

Lemma scan_first skip rest j n e :
  rest !! n = Some e -> skip (kind e) = false ->
  (forall m, (m < n)%nat -> exists x, rest !! m = Some x /\ skip (kind x) = true) ->
  scan skip rest j = Some (e, (j + n)%nat).
Proof.
  revert j n. induction rest as [|a rest IH]; intros j n Hn Hk Hbefore; [discriminate|].
  destruct n as [|n]; simpl in *.
  - injection Hn as ->. rewrite Hk. now rewrite Nat.add_0_r.
  - destruct (Hbefore 0%nat ltac:(lia)) as (x & [= <-] & Hx). rewrite Hx.
    rewrite (IH (S j) n Hn Hk); [do 2 f_equal; lia|].
    intros m Hm. apply (Hbefore (S m)). lia.
Qed.

Lemma isDirective_skip e : isDirective e = skipMergeExport (kind e).
Proof. now destruct e. Qed.

(** The loop of [matchMergeImports] stops at the struct at index [j] exactly
    when the directive at index [i] comes directly before it. *)
Lemma mergeTarget_directlyBefore parsed i j :
  mergeTarget parsed i = Some j <-> directlyBefore parsed i j = true.
Proof.
  unfold directlyBefore. rewrite !andb_true_iff, Nat.ltb_lt, forallb_forall. split.
  - unfold mergeTarget.
    destruct (nextAfter skipMergeExport parsed i) as [[e j']|] eqn:Hn; [|discriminate].
    destruct e; try discriminate. intros [= ->].
    apply nextAfter_spec in Hn as (Hlt & Hlk & _ & Hbetween).
    split; [split; [exact Hlt|]|now rewrite Hlk].
    intros x Hx. apply list_elem_of_In, list_elem_of_lookup in Hx as [m Hm].
    apply lookup_take_Some in Hm as [Hm Hlt']. rewrite lookup_drop in Hm.
    destruct (Hbetween (S i + m)%nat ltac:(lia)) as (y & Hy & Hsk).
    rewrite Hm in Hy. injection Hy as <-. now rewrite isDirective_skip.
  - intros [[Hlt Hall] Hs].
    destruct (parsed !! j) as [e|] eqn:Hj; [|discriminate].
    destruct e as [x|x|x|x|st|x|x|x]; try discriminate.
    unfold mergeTarget, nextAfter.
    rewrite (scan_first skipMergeExport (drop (S i) parsed) (S i) (j - S i) (Struct st)).
    + f_equal. lia.
    + rewrite lookup_drop. now replace (S i + (j - S i))%nat with j by lia.
    + reflexivity.
    + intros m Hm.
      destruct (lookup_lt_is_Some_2 parsed (S i + m)) as [x Hx].
      { apply lookup_lt_Some in Hj. lia. }
      exists x. rewrite lookup_drop. split; [exact Hx|].
      rewrite <- isDirective_skip. apply Hall, list_elem_of_In, list_elem_of_lookup.
      exists m. apply lookup_take_Some. split; [now rewrite lookup_drop|exact Hm].
Qed.

Lemma mergeTarget_existsb parsed i :
  existsb (directlyBefore parsed i) (seq 0 (length parsed))
  = match mergeTarget parsed i with Some _ => true | None => false end.
Proof.
  destruct (mergeTarget parsed i) as [j|] eqn:Ht.
  - apply existsb_exists. exists j. split; [|now apply mergeTarget_directlyBefore].
    apply in_seq. unfold mergeTarget in Ht.
    destruct (nextAfter skipMergeExport parsed i) as [[e j']|] eqn:Hn; [|discriminate].
    destruct e; try discriminate. injection Ht as ->.
    apply nextAfter_spec in Hn as (_ & Hj & _). apply lookup_lt_Some in Hj. lia.
  - destruct (existsb _ _) eqn:He; [|reflexivity].
    apply existsb_exists in He as (j & _ & Hj).
    apply mergeTarget_directlyBefore in Hj. congruence.
Qed.

Lemma concat_map_findKind {B : Type} (g : AbstractElem * nat -> list B)
    (h : nat -> AbstractElem -> list B) (k : string) (l : list AbstractElem)
    (f : nat -> nat) :
  (forall n e, (if String.eqb (kind e) k then g (e, n) else []) = h n e) ->
  List.concat
    (map g (List.concat
              (imap (fun i elem => if String.eqb (kind elem) k then [(elem, f i)] else [])
                 l)))
  = List.concat (imap (fun i e => h (f i) e) l).
Proof.
  intros Hgh. revert f. induction l as [|e l IH]; intros f; simpl; [reflexivity|].
  rewrite map_app, concat_app. f_equal.
  - rewrite <- Hgh. destruct (String.eqb (kind e) k); simpl; [apply app_nil_r|reflexivity].
  - pose proof (IH (f ∘ S)) as IH'. exact IH'.
Qed.

Lemma attached_mergesBefore parsed j :
  attached parsed (findKind parsed "importMerge") j = mergesBefore parsed j.
Proof.
  unfold attached, findKind, mergesBefore.
  apply (concat_map_findKind _
           (fun i e => match e with
                       | ImportMerge m => if directlyBefore parsed i j then [m] else []
                       | _ => []
                       end) "importMerge" parsed (fun i => i)).
  intros n e. destruct e; try reflexivity. simpl.
  destruct (directlyBefore parsed n j) eqn:Hd.
  - apply mergeTarget_directlyBefore in Hd. now rewrite bool_decide_eq_true_2.
  - rewrite bool_decide_eq_false_2; [reflexivity|].
    intros Ht. apply mergeTarget_directlyBefore in Ht. congruence.
Qed.

Lemma unattached_notBeforeStruct parsed :
  unattached parsed (findKind parsed "importMerge") = notBeforeStruct parsed.
Proof.
  unfold unattached, findKind, notBeforeStruct.
  apply (concat_map_findKind _
           (fun i e => match e with
                       | ImportMerge m =>
                           if existsb (directlyBefore parsed i) (seq 0 (length parsed))
                           then [] else [ notAStruct m ]
                       | _ => []
                       end) "importMerge" parsed (fun i => i)).
  intros n e. destruct e; try reflexivity. simpl.
  rewrite mergeTarget_existsb. now destruct (mergeTarget parsed n).
Qed.

(** A merge directive, an export directive and a struct: the loop steps over
    the export directive and the struct gets the merge directive. *)
Lemma matchMergeImports_over_export :
  mergesAt (fst (matchMergeImports merge_export_struct [])) 2
  = [ {| imp_name := "Foo"; imp_args := None; imp_as := None;
         imp_from := None; imp_start := 0; imp_end := 12 |} ] /\
  snd (matchMergeImports merge_export_struct []) = [].
Proof. split; reflexivity. Qed.

(** What one pass of [matchMergeImports] does to the parsed elements.  It
    changes nothing but the importMerges of structs.  Each struct gets,
    appended to the merges it had and in the order of the source, exactly
    the importMerge directives that come before it with only importMerge and
    export elements in between; a struct with no such directive is left as
    it was.  The other importMerge directives, those that come directly
    before no struct, are logged, in the order of the source, and nothing
    else is. *)
Theorem matchMergeImports_attaches (parsed : list AbstractElem) (log : list SrcLog) :
  let out := matchMergeImports parsed log in
  Forall2 same_but_merges parsed (fst out) /\
  (forall j, mergesAt (fst out) j = mergesAt parsed j ++ mergesBefore parsed j) /\
  (forall j, mergesBefore parsed j = [] -> fst out !! j = parsed !! j) /\
  snd out = log ++ notBeforeStruct parsed.
Proof.
  intros out. subst out.
  assert (Hshape : Forall2 same_but_merges parsed parsed).
  { apply Forall2_same_length_lookup. split; [reflexivity|].
    intros i x y Hx Hy. rewrite Hx in Hy. injection Hy as <-. apply same_but_merges_refl. }
  destruct (matchMergeImports_fold parsed (findKind parsed "importMerge") parsed log Hshape)
    as (H1 & H2 & H3 & H4).
  split; [exact H1|]. split; [|split].
  - intros j. rewrite <- attached_mergesBefore. apply H2.
  - intros j. rewrite <- attached_mergesBefore. apply H3.
  - rewrite <- unattached_notBeforeStruct. exact H4.
Qed.

(** *** findExports *)

Lemma findKind_fst_from (parsed : list AbstractElem) k (f : nat -> nat) :
  map fst (List.concat (imap (fun i elem => if String.eqb (kind elem) k
                                            then [(elem, f i)] else []) parsed))
  = List.filter (fun e => String.eqb (kind e) k) parsed.
Proof.
  revert f. induction parsed as [|e l IH]; intros f; simpl; [reflexivity|].
  rewrite map_app. pose proof (IH (f ∘ S)) as IH'.
  destruct (String.eqb (kind e) k); simpl; [f_equal|]; exact IH'.
Qed.

Lemma findKind_fst parsed k :
  map fst (findKind parsed k) = List.filter (fun e => String.eqb (kind e) k) parsed.
Proof. apply (findKind_fst_from parsed k (fun i => i)). Qed.

Lemma filter_export parsed :
  List.filter (fun e => String.eqb (kind e) "export") parsed = map Export (exportElems parsed).
Proof.
  unfold exportElems. induction parsed as [|e l IH]; simpl; [reflexivity|].
  destruct e; simpl; rewrite IH; reflexivity.
Qed.

Lemma findExport_step parsed results lg elem i :
  findExport (results, lg) parsed (Export elem, i)
  = match nextAfter skipMerge parsed i with
    | Some (next, j) =>
        if String.eqb (kind next) "fn" || String.eqb (kind next) "struct"
        then (results ++ [(elem, j)], lg)
        else (results, lg ++ [{| log_pos := exp_start elem; log_msg := exportWhatMsg |}])
    | None => (results, lg ++ [{| log_pos := exp_start elem; log_msg := exportWhatMsg |}])
    end.
Proof.
  unfold findExport. fold skipMerge.
  destruct (nextAfter skipMerge parsed i) as [[next j]|]; [|reflexivity].
  destruct next; reflexivity.
Qed.

Lemma findExports_fold parsed todo results lg :
  Forall (fun '(e, i) => parsed !! i = Some e /\ kind e = "export") todo ->
  Forall (exportResolved parsed) results ->
  let out := fold_left (fun st found => findExport st parsed found) todo (results, lg) in
  Forall (exportResolved parsed) (fst out) /\
  exists logged,
    snd out = lg ++ logged /\
    Forall (fun l => log_msg l = exportWhatMsg) logged /\
    (length (fst out) + length logged = length results + length todo)%nat.
Proof.
  revert results lg. induction todo as [|[e i] todo IH]; intros results lg Htodo Hres.
  - simpl. split; [exact Hres|]. exists []. rewrite app_nil_r. repeat split; auto.
  - apply Forall_cons in Htodo as [[Hlk Hk] Htodo]. cbn [fold_left]. cbv zeta.
    destruct e as [x|x|elem|x|x|x|x|x]; try discriminate.
    rewrite findExport_step.
    assert (Hlogged :
      let out := fold_left (fun st found => findExport st parsed found) todo
                   (results, lg ++ [{| log_pos := exp_start elem; log_msg := exportWhatMsg |}]) in
      Forall (exportResolved parsed) (fst out) /\
      exists logged,
        snd out = lg ++ logged /\
        Forall (fun l => log_msg l = exportWhatMsg) logged /\
        (length (fst out) + length logged = length results + length ((Export elem, i) :: todo))%nat).
    { destruct (IH results (lg ++ [{| log_pos := exp_start elem; log_msg := exportWhatMsg |}])
                  Htodo Hres) as (H1 & logged & H2 & H3 & H4).
      split; [exact H1|].
      exists ({| log_pos := exp_start elem; log_msg := exportWhatMsg |} :: logged).
      split; [rewrite H2; now rewrite <- app_assoc|].
      split; [constructor; [reflexivity|exact H3]|]. simpl in *. lia. }
    destruct (nextAfter skipMerge parsed i) as [[next j]|] eqn:Hn; [|exact Hlogged].
    destruct (String.eqb (kind next) "fn" || String.eqb (kind next) "struct") eqn:Hkind;
      [|exact Hlogged].
    apply orb_true_iff in Hkind. rewrite !String.eqb_eq in Hkind.
    apply nextAfter_spec in Hn as (Hij & Hj & _ & Hbetween).
    destruct (IH (results ++ [(elem, j)]) lg Htodo) as (H1 & logged & H2 & H3 & H4).
    { apply Forall_app. split; [exact Hres|]. constructor; [|constructor].
      exists i, next. repeat split; try assumption.
      intros m Hm. destruct (Hbetween m Hm) as (x & Hx & Hsx).
      exists x. split; [exact Hx|]. now apply String.eqb_eq in Hsx. }
    split; [exact H1|]. exists logged. split; [exact H2|]. split; [exact H3|].
    rewrite length_app in H4. simpl in *. lia.
Qed.

(** [findExports] accounts for every export directive once: either it is
    in the results, paired with the index of a fn or struct that follows it
    with nothing but importMerge elements in between, or one
    "#export what?" line is logged for it. *)
Theorem findExports_resolves_or_logs (parsed : list AbstractElem) (log : list SrcLog) :
  let out := findExports parsed log in
  Forall (exportResolved parsed) (fst out) /\
  exists logged,
    snd out = log ++ logged /\
    Forall (fun l => log_msg l = exportWhatMsg) logged /\
    (length (fst out) + length logged = length (exportElems parsed))%nat.
Proof.
  cbv zeta. unfold findExports.
  destruct (findExports_fold parsed (findKind parsed "export") [] log)
    as (H1 & logged & H2 & H3 & H4).
  - apply Forall_forall. intros [e i] Hin. now apply findKind_elem.
  - constructor.
  - split; [exact H1|]. exists logged. split; [exact H2|]. split; [exact H3|].
    rewrite H4. simpl.
    rewrite <- (length_map fst (findKind parsed "export")), findKind_fst, filter_export.
    now rewrite length_map.
Qed.

(** *** parseModule *)

Lemma same_but_merges_trans a b c :
  same_but_merges a b -> same_but_merges b c -> same_but_merges a c.
Proof.
  destruct a, b, c; simpl; try congruence; try discriminate; intuition congruence.
Qed.

Lemma same_shape_trans a b c :
  Forall2 same_but_merges a b -> Forall2 same_but_merges b c -> Forall2 same_but_merges a c.
Proof.
  intros H. revert c. induction H as [|x y l l' Hxy Hl IH]; intros c Hc;
    inversion Hc; subst; constructor; [|now apply IH].
  eapply same_but_merges_trans; eassumption.
Qed.

Lemma same_shape_fns parsed cur :
  Forall2 same_but_merges parsed cur ->
  filterFns cur = filterFns parsed /\ filterVars cur = filterVars parsed.
Proof.
  unfold filterFns, filterVars.
  induction 1 as [|x y l l' Hxy Hl [IH1 IH2]]; simpl; [auto|].
  rewrite IH1, IH2. destruct x, y; simpl in Hxy; try discriminate; try (now inversion Hxy);
    auto.
Qed.

Lemma unattached_msgs parsed found :
  Forall (fun l => log_msg l = "#extends not followed by a struct") (unattached parsed found).
Proof.
  unfold unattached. induction found as [|[e i] found IH]; simpl; [constructor|].
  apply Forall_app. split; [|exact IH].
  destruct e; try constructor. destruct (mergeTarget parsed i); repeat constructor.
Qed.

Lemma exportWhat_all logged :
  Forall (fun l => log_msg l = exportWhatMsg) logged -> exportWhat logged = logged.
Proof.
  unfold exportWhat. induction 1 as [|l ls Hl Hls IH]; simpl; [reflexivity|].
  rewrite Hl. simpl. now rewrite IH.
Qed.

Lemma exportWhat_none logged :
  Forall (fun l => log_msg l = "#extends not followed by a struct") logged ->
  exportWhat logged = [].
Proof.
  unfold exportWhat. induction 1 as [|l ls Hl Hls IH]; simpl; [reflexivity|].
  rewrite Hl. simpl. exact IH.
Qed.

(** In the module that [parseModule] returns, every export refers to a fn
    or a struct, and the exports together with the "#export what?" lines of
    the log account for each export directive of the parsed source once; the
    fns and vars of the module are those of the parsed source, untouched by
    the matching of merges. *)
Theorem parseModule_exports_refer_to_fn_or_struct
    (Params : Type) (processConditionals : string -> Params -> string * SrcMapTs.SrcMap)
    (parseWgslD : string -> SrcMapTs.SrcMap -> list AbstractElem)
    (src : string) (params : Params) (defaultModuleName : option string)
    (unnamedModuleDex : nat) :
  let parsed :=
    parseWgslD (fst (processConditionals src params)) (snd (processConditionals src params)) in
  let out := parseModule Params processConditionals parseWgslD src params
               defaultModuleName unnamedModuleDex in
  let m := fst (fst out) in
  Forall (fun te => kind (ref te) = "fn" \/ kind (ref te) = "struct") (exports m) /\
  (length (exports m) + length (exportWhat (snd (fst out))) = length (exportElems parsed))%nat /\
  fns m = filterFns parsed /\ vars m = filterVars parsed.
Proof.
  cbv zeta. unfold parseModule.
  destruct (processConditionals src params) as [pre sm]. simpl fst. simpl snd.
  set (parsed := parseWgslD pre sm).
  destruct (findExports_fold parsed (findKind parsed "export") [] [])
    as (Hres & logged & Hlog & Hmsgs & Hcount).
  { apply Forall_forall. intros [e i] Hin. now apply findKind_elem. }
  { constructor. }
  fold (findExports parsed []) in Hres, Hlog, Hcount.
  rewrite <- (length_map fst (findKind parsed "export")), findKind_fst, filter_export,
    length_map in Hcount.
  destruct (findExports parsed []) as [exps log1]. simpl in Hres, Hlog, Hcount. subst log1.
  pose proof (matchMergeImports_fold parsed (findKind parsed "importMerge") parsed logged) as P1.
  fold (matchMergeImports parsed logged) in P1.
  destruct (matchMergeImports parsed logged) as [parsed1 log2].
  destruct P1 as (Hs1 & _ & _ & Hl2).
  { apply Forall2_same_length_lookup. split; [reflexivity|].
    intros i x y Hx Hy. rewrite Hx in Hy. injection Hy as <-. apply same_but_merges_refl. }
  simpl in Hs1, Hl2.
  pose proof (matchMergeImports_fold parsed1 (findKind parsed1 "importMerge") parsed1 log2) as P2.
  fold (matchMergeImports parsed1 log2) in P2.
  destruct (matchMergeImports parsed1 log2) as [parsed2 log3].
  destruct P2 as (Hs2 & _ & _ & Hl3).
  { apply Forall2_same_length_lookup. split; [reflexivity|].
    intros i x y Hx Hy. rewrite Hx in Hy. injection Hy as <-. apply same_but_merges_refl. }
  simpl in Hs2, Hl3.
  assert (Hshape : Forall2 same_but_merges parsed parsed2).
  { eapply same_shape_trans; eassumption. }
  assert (Hexps : forall elem j, (elem, j) ∈ exps ->
            exists next, parsed2 !! j = Some next /\
              (kind next = "fn" \/ kind next = "struct")).
  { intros elem j Hin. rewrite Forall_forall in Hres.
    destruct (Hres _ Hin) as (i & next & _ & _ & Hj & Hk & _).
    destruct (Forall2_lookup_l _ _ _ _ _ Hshape Hj) as (next' & Hj' & Hr).
    exists next'. split; [exact Hj'|]. now rewrite <- (same_but_merges_kind _ _ Hr). }
  assert (Hgoal :
    Forall (fun te => kind (ref te) = "fn" \/ kind (ref te) = "struct")
      (List.concat (map (fun '(elem, j) =>
                           match parsed2 !! j with
                           | Some next => [ {| export_elem := elem; ref := next |} ]
                           | None => []
                           end) exps)) /\
    length (List.concat (map (fun '(elem, j) =>
                           match parsed2 !! j with
                           | Some next => [ {| export_elem := elem; ref := next |} ]
                           | None => []
                           end) exps)) = length exps).
  { clear -Hexps. induction exps as [|[elem j] exps IH]; simpl; [split; [constructor|reflexivity]|].
    destruct (Hexps elem j ltac:(left)) as (next & -> & Hk).
    destruct IH as [IH1 IH2]; [intros e0 j0 Hin; apply (Hexps e0 j0); now right|].
    split; [constructor; [exact Hk|exact IH1]|]. simpl. now rewrite IH2. }
  destruct Hgoal as [Hg1 Hg2].
  destruct (same_shape_fns parsed parsed2 Hshape) as [Hf Hv].
  assert (Hwhat : exportWhat log3 = logged).
  { subst log3 log2. unfold exportWhat. rewrite !List.filter_app. fold (exportWhat logged).
    fold (exportWhat (unattached parsed (findKind parsed "importMerge"))).
    fold (exportWhat (unattached parsed1 (findKind parsed1 "importMerge"))).
    rewrite (exportWhat_all _ Hmsgs), !exportWhat_none by apply unattached_msgs.
    now rewrite !app_nil_r. }
  destruct (head (filterModules parsed1)) as [mn|]; [|destruct defaultModuleName];
    simpl; rewrite Hwhat, Hg2; repeat split; assumption || lia.
Qed.

(** *** Names of unnamed modules *)

Lemma numeral_value_app acc a b :
  numeral_value acc (a +:+ b) = numeral_value (numeral_value acc a) b.
Proof.
  revert acc. induction a as [|c a IH]; intros acc; [reflexivity|].
  rewrite ParserLoggingFacts.append_cons. simpl. apply IH.
Qed.

Lemma numeral_value_digit acc d :
  (d < 10)%nat -> numeral_value acc (digit d) = (10 * acc + d)%nat.
Proof.
  intros Hd. unfold digit. cbn [numeral_value].
  rewrite Ascii.nat_ascii_embedding by lia. lia.
Qed.

Lemma readNumber_decimal fuel n : (n <= fuel)%nat -> readNumber (decimal fuel n) = n.
Proof.
  unfold readNumber. revert n. induction fuel as [|fuel IH]; intros n Hn.
  - assert (n = 0%nat) by lia. subst n. reflexivity.
  - cbn [decimal]. destruct (Nat.ltb_spec n 10) as [Hlt|Hge].
    + rewrite numeral_value_digit by exact Hlt. lia.
    + assert (Hdiv : (n / 10 <= fuel)%nat).
      { apply Nat.Div0.div_le_upper_bound. lia. }
      rewrite numeral_value_app, (IH _ Hdiv).
      rewrite numeral_value_digit by (apply Nat.mod_upper_bound; lia).
      symmetry. apply Nat.div_mod_eq.
Qed.

Lemma same_shape_modules parsed cur :
  Forall2 same_but_merges parsed cur -> filterModules cur = filterModules parsed.
Proof.
  unfold filterModules.
  induction 1 as [|x y l l' Hxy Hl IH]; simpl; [reflexivity|].
  rewrite IH. destruct x, y; simpl in Hxy; try discriminate; try (now inversion Hxy);
    auto.
Qed.

Lemma parseModule_unnamed
    (Params : Type) (processConditionals : string -> Params -> string * SrcMapTs.SrcMap)
    (parseWgslD : string -> SrcMapTs.SrcMap -> list AbstractElem)
    (src : string) (params : Params) (unnamedModuleDex : nat) :
  filterModules (parseWgslD (fst (processConditionals src params))
                   (snd (processConditionals src params))) = [] ->
  let out := parseModule Params processConditionals parseWgslD src params None
               unnamedModuleDex in
  mod_name (fst (fst out)) = "module" +:+ decimal unnamedModuleDex unnamedModuleDex /\
  snd out = S unnamedModuleDex.
Proof.
  cbv zeta. unfold parseModule.
  destruct (processConditionals src params) as [pre sm]. simpl fst. simpl snd.
  set (parsed := parseWgslD pre sm). intros Hnone.
  destruct (findExports parsed []) as [exps log1].
  pose proof (matchMergeImports_fold parsed (findKind parsed "importMerge") parsed log1) as P1.
  fold (matchMergeImports parsed log1) in P1.
  destruct (matchMergeImports parsed log1) as [parsed1 log2].
  destruct P1 as (Hs1 & _).
  { apply Forall2_same_length_lookup. split; [reflexivity|].
    intros i x y Hx Hy. rewrite Hx in Hy. injection Hy as <-. apply same_but_merges_refl. }
  simpl in Hs1. rewrite (same_shape_modules _ _ Hs1), Hnone.
  destruct (matchMergeImports parsed1 log2) as [parsed2 log3]. simpl. auto.
Qed.

(** A module without a module element and without a default name is named
    "module" followed by the decimal digits of the counter of unnamed
    modules, which is then stepped: the digits read back as the counter, so
    two such modules parsed at different counter values never get the same
    name. *)
Theorem parseModule_unnamed_names_distinct
    (Params : Type) (processConditionals : string -> Params -> string * SrcMapTs.SrcMap)
    (parseWgslD : string -> SrcMapTs.SrcMap -> list AbstractElem)
    (src1 src2 : string) (params1 params2 : Params) (dex1 dex2 : nat) :
  filterModules (parseWgslD (fst (processConditionals src1 params1))
                   (snd (processConditionals src1 params1))) = [] ->
  filterModules (parseWgslD (fst (processConditionals src2 params2))
                   (snd (processConditionals src2 params2))) = [] ->
  dex1 <> dex2 ->
  let out1 := parseModule Params processConditionals parseWgslD src1 params1 None dex1 in
  let out2 := parseModule Params processConditionals parseWgslD src2 params2 None dex2 in
  mod_name (fst (fst out1)) <> mod_name (fst (fst out2)) /\
  snd out1 = S dex1 /\
  exists digits, mod_name (fst (fst out1)) = "module" +:+ digits /\ readNumber digits = dex1.
Proof.
  intros H1 H2 Hne. cbv zeta.
  destruct (parseModule_unnamed Params processConditionals parseWgslD src1 params1 dex1 H1)
    as [N1 D1].
  destruct (parseModule_unnamed Params processConditionals parseWgslD src2 params2 dex2 H2)
    as [N2 _].
  rewrite N1, N2. split; [|split; [exact D1|]].
  - intros Heq. apply Hne.
    rewrite <- (readNumber_decimal dex1 dex1), <- (readNumber_decimal dex2 dex2) by lia.
    f_equal. rewrite !ParserLoggingFacts.append_cons, !ParserLoggingFacts.append_nil in Heq.
    now injection Heq.
  - exists (decimal dex1 dex1). split; [reflexivity|]. now apply readNumber_decimal.
Qed.

(** The theorem at counter values 9 and 10. *)
Lemma parseModule_unnamed_names_distinct_witness :
  let out1 := parseModule unit identityConditionals parsesOneFn "fn f() {}" tt None 9 in
  let out2 := parseModule unit identityConditionals parsesOneFn "fn f() {}" tt None 10 in
  mod_name (fst (fst out1)) <> mod_name (fst (fst out2)) /\
  snd out1 = 10%nat /\
  exists digits, mod_name (fst (fst out1)) = "module" +:+ digits /\ readNumber digits = 9%nat.
Proof.
  apply (parseModule_unnamed_names_distinct unit identityConditionals parsesOneFn
           "fn f() {}" "fn f() {}" tt tt 9 10).
  - reflexivity.
  - reflexivity.
  - lia.
Defined.

End ParseModuleMoreFacts.

Module TraverseRefsOldMoreFacts.
Import AbstractElems TraverseRefsOld TraverseRefsOldMore.

Lemma imap_zip (impArgs expArgs : list string) :
  length expArgs = length impArgs ->
  imap (fun i p => (p, impArgs !! i)) expArgs = zip expArgs (Some <$> impArgs).
Proof.
  revert impArgs. induction expArgs as [|p expArgs IH]; intros impArgs Hlen;
    destruct impArgs as [|a impArgs]; try discriminate; [reflexivity|].
  simpl. f_equal. apply (IH impArgs). simpl in Hlen. lia.
Qed.

Lemma imap_pairs_fst (f : nat -> option string) (expArgs : list string) :
  map fst (imap (fun i p => (p, f i)) expArgs) = expArgs.
Proof.
  revert f. induction expArgs as [|p l IH]; intros f; simpl; [reflexivity|].
  f_equal. apply (IH (f ∘ S)).
Qed.

Lemma matchImportExportArgs_zip (imp : ImportElem) (exp : ExportElem) :
  length (default [] (exp_args exp)) = length (default [] (imp_args imp)) ->
  matchImportExportArgs imp exp
  = (zip (default [] (exp_args exp)) (Some <$> default [] (imp_args imp)), []).
Proof.
  intros Hlen. unfold matchImportExportArgs.
  rewrite bool_decide_eq_false_2 by (intros H; now apply H).
  f_equal. now apply imap_zip.
Qed.

(** When the import has as many arguments as the export has parameters,
    [matchImportExportArgs] logs nothing and pairs each export parameter
    with the import argument at the same place.  Whatever the lengths, the
    first components of the pairs are the parameters of the export, in
    order. *)
Theorem matchImportExportArgs_matched (imp : ImportElem) (exp : ExportElem) :
  let impArgs := default [] (imp_args imp) in
  let expArgs := default [] (exp_args exp) in
  map fst (fst (matchImportExportArgs imp exp)) = expArgs /\
  (length expArgs = length impArgs ->
   matchImportExportArgs imp exp = (zip expArgs (Some <$> impArgs), [])).
Proof.
  intros impArgs expArgs. split.
  - unfold matchImportExportArgs. cbn [fst].
    apply (imap_pairs_fst (fun i => impArgs !! i)).
  - apply matchImportExportArgs_zip.
Qed.

Lemma matchImportExportArgs_length imp exp :
  length (fst (matchImportExportArgs imp exp)) = length (default [] (exp_args exp)).
Proof. unfold matchImportExportArgs. simpl. apply length_imap. Qed.

Lemma chain_spec (report : string -> Logged) inner outer :
  let out := chain report inner outer in
  (length (fst out) + length (snd out) = length outer)%nat /\
  Forall (fun e => exists iExp, e = report iExp) (snd out) /\
  (forall x z, (x, z) ∈ fst out ->
     exists y, (x, y) ∈ outer /\ exists a, findPair inner y = Some (a, z)) /\
  ((forall x y, (x, y) ∈ outer -> exists a, y = Some a /\ a ∈ map fst inner) ->
   snd out = [] /\ map fst (fst out) = map fst outer).
Proof.
  induction outer as [|[iExp iImp] outer IH]; simpl.
  - repeat split; auto. intros x z H. now apply elem_of_nil in H.
  - destruct (chain report inner outer) as [pairs errs]. simpl in IH.
    destruct IH as (Hlen & Herr & Hin & Hall).
    destruct (findPair inner iImp) as [[a impArg]|] eqn:Hf; simpl.
    + split; [lia|]. split; [exact Herr|]. split.
      * intros x z Hxz. apply elem_of_cons in Hxz as [[= -> ->]|Hxz].
        -- exists iImp. split; [left|eauto].
        -- destruct (Hin x z Hxz) as (y & Hy & Ha). exists y. split; [now right|exact Ha].
      * intros Hcov. destruct Hall as [He Hm].
        { intros x y Hxy. apply (Hcov x y). now right. }
        split; [exact He|]. simpl. now rewrite Hm.
    + split; [lia|]. split; [constructor; [eauto|exact Herr]|]. split.
      * intros x z Hxz. destruct (Hin x z Hxz) as (y & Hy & Ha).
        exists y. split; [now right|exact Ha].
      * intros Hcov. exfalso.
        destruct (Hcov iExp iImp ltac:(left)) as (a & -> & Ha).
        apply list_elem_of_In, in_map_iff in Ha as ([a' z] & Heq & Hin').
        simpl in Heq. subst a'. unfold findPair in Hf.
        eapply find_none in Hf; [|exact Hin']. simpl in Hf.
        now rewrite bool_decide_eq_true_2 in Hf.
Qed.

(** [importingArgs2] continues the pairing of export parameters with import
    arguments through the pairing that the source reference carries: each
    pair of its result takes an export parameter to what the source
    reference pairs with the matching import argument.  Every export
    parameter gives either one pair or one "importing arg not found" line;
    for a source reference that is not an export there are no pairs. *)
Theorem importingArgs2_chains (imp : ImportElem) (exp : ExportElem) (srcExpImp : StringPairs) :
  let expImp := fst (matchImportExportArgs imp exp) in
  let out := importingArgs2 imp exp (ExportRef srcExpImp) in
  (forall x z, (x, z) ∈ fst out ->
     exists y, (x, y) ∈ expImp /\ exists a, findPair srcExpImp y = Some (a, z)) /\
  (exists errs, snd out = map Mismatched (snd (matchImportExportArgs imp exp)) ++ errs /\
     Forall (fun e => e = ArgNotFound None exp imp) errs /\
     (length (fst out) + length errs = length (default [] (exp_args exp)))%nat) /\
  fst (importingArgs2 imp exp LocalRef) = [].
Proof.
  cbv zeta. unfold importingArgs2.
  pose proof (matchImportExportArgs_length imp exp) as Hl.
  destruct (matchImportExportArgs imp exp) as [expImp errs]. cbn [fst snd] in *.
  pose proof (chain_spec (fun _ => ArgNotFound None exp imp) srcExpImp expImp) as Hc.
  cbv zeta in Hc.
  destruct (chain (fun _ => ArgNotFound None exp imp) srcExpImp expImp) as [pairs errs'].
  cbn [fst snd] in *.
  destruct Hc as (Hlen & Herr & Hin & _).
  split; [exact Hin|]. split; [|reflexivity].
  exists errs'. split; [reflexivity|]. split; [|lia].
  eapply Forall_impl; [exact Herr|]. now intros e [_ ->].
Qed.

Lemma zip_Some_elem (xs ys : list string) x y :
  (x, y) ∈ zip xs (Some <$> ys) -> exists b, y = Some b /\ b ∈ ys.
Proof.
  revert ys. induction xs as [|x0 xs IH]; intros [|y0 ys] H; simpl in H;
    try (now apply elem_of_nil in H).
  apply elem_of_cons in H as [[= -> ->]|H].
  - exists y0. split; [reflexivity|left].
  - destruct (IH ys H) as (b & -> & Hb). exists b. split; [reflexivity|now right].
Qed.

Lemma zip_fst_elem (xs ys : list string) a :
  length xs = length ys -> a ∈ xs -> a ∈ map fst (zip xs (Some <$> ys)).
Proof.
  revert ys. induction xs as [|x0 xs IH]; intros [|y0 ys] Hlen Ha; simpl in *;
    try discriminate; [now apply elem_of_nil in Ha|].
  apply elem_of_cons in Ha as [->|Ha]; [left|right]. apply IH; [lia|exact Ha].
Qed.

(** [importingArgs] maps the parameters of the export that an importing
    clause resolves to through to the arguments of the original import.
    When the import matches its export in length, the importing clause
    matches its export in length, and every argument of the importing clause
    is a parameter of the export that carries it, nothing is logged, and
    every parameter of the importing export is paired, in order, with the
    import argument that stands where the clause's argument stands among the
    export's parameters. *)
Theorem importingArgs_maps_through (imp : ImportElem) (exp : ExportElem)
    (importing : ImportElem) (importingExp : ExportElem) :
  let impArgs := default [] (imp_args imp) in
  let expArgs := default [] (exp_args exp) in
  let clauseArgs := default [] (imp_args importing) in
  let clauseParams := default [] (exp_args importingExp) in
  length expArgs = length impArgs ->
  length clauseParams = length clauseArgs ->
  (forall a, a ∈ clauseArgs -> a ∈ expArgs) ->
  let out := importingArgs imp exp importing importingExp in
  snd out = [] /\
  map fst (fst out) = clauseParams /\
  (forall x z, (x, z) ∈ fst out ->
     exists d a, (x, Some d) ∈ zip clauseParams (Some <$> clauseArgs) /\
       findPair (zip expArgs (Some <$> impArgs)) (Some d) = Some (a, z)).
Proof.
  intros impArgs expArgs clauseArgs clauseParams Hlen1 Hlen2 Hcov. cbv zeta.
  unfold importingArgs.
  pose proof (matchImportExportArgs_zip imp exp Hlen1) as E1.
  pose proof (matchImportExportArgs_zip importing importingExp Hlen2) as E2.
  fold impArgs expArgs in E1. fold clauseArgs clauseParams in E2. rewrite E1, E2.
  pose proof (chain_spec (fun iExp => ArgNotFound (Some iExp) exp imp)
                (zip expArgs (Some <$> impArgs))
                (zip clauseParams (Some <$> clauseArgs))) as Hc.
  cbv zeta in Hc.
  destruct (chain (fun iExp => ArgNotFound (Some iExp) exp imp)
              (zip expArgs (Some <$> impArgs))
              (zip clauseParams (Some <$> clauseArgs))) as [pairs errs].
  cbn [fst snd] in *. destruct Hc as (_ & _ & Hin & Hall).
  destruct Hall as [-> Hfst].
  { intros x y Hxy. destruct (zip_Some_elem _ _ _ _ Hxy) as (b & -> & Hb).
    exists b. split; [reflexivity|]. apply zip_fst_elem; [exact Hlen1|]. now apply Hcov. }
  split; [reflexivity|]. split.
  - rewrite Hfst. apply fst_zip. rewrite length_fmap. lia.
  - intros x z Hxz. destruct (Hin x z Hxz) as (y & Hy & a & Ha).
    destruct (zip_Some_elem _ _ _ _ Hy) as (d & -> & _). eauto.
Qed.

(** The example of the comment above [importingArgs]: with
    [#import foo(A, B)], [#export foo(C, D) importing bar(D)] and
    [#export bar(X)], parameter X is mapped to argument B. *)
Lemma importingArgs_maps_through_witness :
  let out := importingArgs (import_of "foo" ["A"; "B"]) export_importing
               (import_of "bar" ["D"]) (export_of ["X"]) in
  snd out = [] /\
  map fst (fst out) = ["X"] /\
  (forall x z, (x, z) ∈ fst out ->
     exists d a, (x, Some d) ∈ zip ["X"] (Some <$> ["D"]) /\
       findPair (zip ["C"; "D"] (Some <$> ["A"; "B"])) (Some d) = Some (a, z)).
Proof.
  apply (importingArgs_maps_through (import_of "foo" ["A"; "B"]) export_importing
           (import_of "bar" ["D"]) (export_of ["X"])).
  - reflexivity.
  - reflexivity.
  - intros a Ha. apply list_elem_of_singleton in Ha as ->. right. left.
Defined.

End TraverseRefsOldMoreFacts.

Module ModuleRegistryOldFacts.
Import ModuleRegistryOld.

Section Registry.
Context {CodeGenFn : Type}.
Implicit Types (me : ModuleExportOld CodeGenFn) (mes : list (ModuleExportOld CodeGenFn)).

(** The exports registered under one name, in the order of registration. *)
Lemma exports_registered_from (reg : Registry CodeGenFn) mes0 mes n :
  (forall k, exports reg !! k
             = match List.filter (fun e => String.eqb (exportName e) k) mes0 with
               | [] => None
               | l => Some l
               end) ->
  exports (fold_left addModuleExport mes reg) !! n
  = match List.filter (fun e => String.eqb (exportName e) n) (mes0 ++ mes) with
    | [] => None
    | l => Some l
    end.
Proof.
  revert reg mes0. induction mes as [|me mes IH]; intros reg mes0 Hreg; simpl.
  - rewrite app_nil_r. apply Hreg.
  - replace (mes0 ++ me :: mes) with ((mes0 ++ [me]) ++ mes) by now rewrite <- app_assoc.
    apply IH. intros k. unfold addModuleExport. rewrite List.filter_app. simpl.
    pose proof (Hreg (exportName me)) as Hme. pose proof (Hreg k) as Hk.
    destruct (String.eqb_spec (exportName me) k) as [<-|Hne].
    + destruct (exports reg !! exportName me) as [existing|]; simpl;
        rewrite lookup_insert_eq;
        destruct (List.filter _ mes0) as [|e0 l0]; try discriminate; simpl.
        * now injection Hme as ->.
        * reflexivity.
    + rewrite app_nil_r.
      destruct (exports reg !! exportName me) as [existing|]; simpl;
        rewrite lookup_insert_ne by assumption; exact Hk.
Qed.

Lemma exports_registered mes n :
  exports (registered mes) !! n
  = match List.filter (fun e => String.eqb (exportName e) n) mes with
    | [] => None
    | l => Some l
    end.
Proof.
  unfold registered. apply (exports_registered_from newRegistry [] mes n).
  intros k. simpl. apply lookup_empty.
Qed.

Lemma find_filter {A : Type} (f g : A -> bool) (l : list A) :
  List.find g (List.filter f l) = List.find (fun a => f a && g a) l.
Proof.
  induction l as [|a l IH]; simpl; [reflexivity|].
  destruct (f a); simpl; [|exact IH]. now destruct (g a).
Qed.

(** In a registry filled by adding exports one by one, [getModuleExport]
    with a module name returns the first export added under that export name
    from a module of that name, and warns nothing: adding another export with
    the same two names later does not change the answer. *)
Theorem getModuleExport_first_registered mes (name modName : string) :
  modName <> EmptyString ->
  getModuleExport (registered mes) name (Some modName)
  = (List.find (fun e => String.eqb (exportName e) name
                         && String.eqb (moduleName e) modName) mes, []).
Proof.
  intros Hne. unfold getModuleExport. rewrite exports_registered.
  destruct modName as [|c m]; [congruence|].
  rewrite <- find_filter.
  destruct (List.filter (fun e => String.eqb (exportName e) name) mes); reflexivity.
Qed.

(** Without a module name, [getModuleExport] answers only when exactly one
    export was added under the name; when there are several it returns
    nothing and warns once, naming the modules in the order of registration;
    when there is none it returns nothing and is silent. *)
Theorem getModuleExport_unique_or_warns mes (name : string) :
  getModuleExport (registered mes) name None
  = match List.filter (fun e => String.eqb (exportName e) name) mes with
    | [] => (None, [])
    | [e] => (Some e, [])
    | found => (None, [multipleModules name found])
    end.
Proof.
  unfold getModuleExport. rewrite exports_registered.
  destruct (List.filter (fun e => String.eqb (exportName e) name) mes) as [|e [|e' l]];
    reflexivity.
Qed.

Lemma registerTemplate_app (reg : Registry CodeGenFn) ts t n :
  getTemplate (registerTemplate reg (ts ++ [t])) n
  = if String.eqb (template_name t) n then Some (applyTemplate t)
    else getTemplate (registerTemplate reg ts) n.
Proof.
  unfold registerTemplate, getTemplate. rewrite fold_left_app. simpl.
  destruct (String.eqb_spec (template_name t) n) as [->|Hne].
  - apply lookup_insert_eq.
  - now apply lookup_insert_ne.
Qed.

(** Templates are kept by name and the last one registered under a name
    wins: [getTemplate] returns the processor of the last template of that
    name in the list, or what the registry held before when the list has
    none; the exports are left as they were. *)
Theorem registerTemplate_last_wins (reg : Registry CodeGenFn) (ts : list TemplateOld)
    (name : string) :
  getTemplate (registerTemplate reg ts) name
  = match List.find (fun t => String.eqb (template_name t) name) (rev ts) with
    | Some t => Some (applyTemplate t)
    | None => getTemplate reg name
    end /\
  exports (registerTemplate reg ts) = exports reg.
Proof.
  split.
  - induction ts as [|t ts IH] using rev_ind; [reflexivity|].
    rewrite registerTemplate_app, rev_app_distr. simpl.
    destruct (String.eqb (template_name t) name); [reflexivity|exact IH].
  - unfold registerTemplate. revert reg. induction ts as [|t ts IH]; intros reg;
      [reflexivity|]. simpl. now rewrite IH.
Qed.

End Registry.

(** With [foo] exported from modules a, b and again a, the lookup in module
    a finds the first export. *)
Lemma getModuleExport_first_registered_witness :
  getModuleExport (registered [fooOf "a"; fooOf "b"; fooOf "a"]) "foo" (Some "a")
  = (Some (fooOf "a"), []).
Proof.
  apply (getModuleExport_first_registered [fooOf "a"; fooOf "b"; fooOf "a"] "foo" "a").
  discriminate.
Defined.

End ModuleRegistryOldFacts.

Module TraverseRefsMoreFacts.
Import TraverseRefs TraverseRefsMore TraverseRefsFacts.

Section Events.
Context {ParsedRegistry : Type}.
Variable importResolveMap : ParsedRegistry -> TextModule -> ResolveMap.
Variable resolveImport : string -> ResolveMap -> option ResolvedExport.
Variable refFullName : FoundRef -> string.
Variable registry : ParsedRegistry.

Lemma bound_app a b : bound (a ++ b) = bound a ++ bound b.
Proof. unfold bound. apply flat_map_app. Qed.

Lemma linkedRef_events (P : RefElem -> Prop) e srcRef mod_ :
  P e ->
  let out := linkedRef importResolveMap resolveImport e srcRef mod_ registry in
  fst out = bound (snd out) /\
  Forall (fun ev =>
            match ev with
            | Bind e' _ => P e'
            | ModuleLog m pos msg =>
                exists e', P e' /\ textExpMod srcRef = Some m /\
                  pos = ref_start e' /\ msg = "reference not found: " +:+ ref_name e'
            | Visit _ => False
            end) (snd out).
Proof.
  intros HP. unfold linkedRef. destruct (truthy _); [split; [reflexivity|constructor]|].
  destruct (importRef _ _ _ _ _ _ _) as [r|].
  { split; [reflexivity|]. repeat constructor. exact HP. }
  destruct (localRef _ _) as [r|].
  { split; [reflexivity|]. repeat constructor. exact HP. }
  destruct (textExpMod srcRef) as [m|] eqn:Hm; (split; [reflexivity|]); repeat constructor.
  exists e. auto.
Qed.

Lemma elemChildrenRefs_events (P : RefElem -> Prop) children srcRef mod_ :
  Forall P children ->
  let out := elemChildrenRefs importResolveMap resolveImport srcRef children mod_ registry in
  fst out = bound (snd out) /\
  Forall (fun ev =>
            match ev with
            | Bind e' _ => P e'
            | ModuleLog m pos msg =>
                exists e', P e' /\ textExpMod srcRef = Some m /\
                  pos = ref_start e' /\ msg = "reference not found: " +:+ ref_name e'
            | Visit _ => False
            end) (snd out).
Proof.
  induction 1 as [|e children He Hrest IH]; simpl; [split; [reflexivity|constructor]|].
  pose proof (linkedRef_events P e srcRef mod_ He) as Hl. cbv zeta in Hl, IH.
  destruct (linkedRef importResolveMap resolveImport e srcRef mod_ registry) as [rs evs].
  destruct (elemChildrenRefs importResolveMap resolveImport srcRef children mod_ registry)
    as [rs' evs']. simpl in *.
  destruct Hl as [-> Hl], IH as [-> IH]. split; [now rewrite bound_app|].
  apply Forall_app. auto.
Qed.

(** *** The references of an element *)

Lemma elemTypeRefs_spec elem e :
  e ∈ elemTypeRefs elem <-> has_typeRef elem e /\ stdType (ref_name e) = false.
Proof.
  unfold elemTypeRefs. rewrite list_elem_of_In, filter_In, negb_true_iff.
  rewrite <- (list_elem_of_In _ e).
  assert (Hs : forall s, e ∈ match members s with
                             | Some ms => flat_map member_typeRefs ms
                             | None => []
                             end <-> has_typeRef (EStruct s) e).
  { intros s. simpl. destruct (members s) as [ms|].
    - rewrite list_elem_of_In, in_flat_map. split.
      + intros (m & Hm & He). exists ms, m. rewrite !list_elem_of_In. auto.
      + intros (ms' & m & [= <-] & Hm & He). exists m. rewrite <- !list_elem_of_In. auto.
    - split; [intros H; now apply elem_of_nil in H|]. now intros (ms & m & [=] & _). }
  destruct elem as [f|st|v|al|m]; try reflexivity. now rewrite Hs.
Qed.

Lemma userCalls_spec (f : FnElem) e :
  e ∈ List.filter (fun c => negb (stdFn (ref_name c))
                            && negb (String.eqb (ref_name c) (fn_name f))) (calls f)
  <-> e ∈ calls f /\ stdFn (ref_name e) = false /\ ref_name e <> fn_name f.
Proof.
  rewrite list_elem_of_In, filter_In, andb_true_iff, !negb_true_iff, String.eqb_neq.
  now rewrite <- (list_elem_of_In _ e).
Qed.

(** The names that the lists [stdFns] and [stdTypes] hold, and a fn's calls
    to itself, are never looked up: [elemRefs] binds or reports only the
    calls and type references of the source element that are to follow,
    whatever the module declares and the imports resolve; and the refs it
    returns are exactly the refs it has bound, in order.  The lists are the
    lists of the source: they hold "inserBits", "fwdithCoarse" and
    "dot4UI8Packed", and they hold none of the WGSL built-in functions
    insertBits, fwidthCoarse, dot4U8Packed and atomicAnd, so calls to these
    four are among the references to follow. *)
Theorem elemRefs_skips_listed_names (srcRef : FoundRef) (mod_ : TextModule) :
  let out := elemRefs importResolveMap resolveImport srcRef mod_ registry in
  fst out = bound (snd out) /\ Forall (child_event srcRef) (snd out) /\
  (stdFn "inserBits" = true /\ stdFn "fwdithCoarse" = true /\
   stdFn "dot4UI8Packed" = true) /\
  (stdFn "insertBits" = false /\ stdFn "fwidthCoarse" = false /\
   stdFn "dot4U8Packed" = false /\ stdFn "atomicAnd" = false).
Proof.
  cbv zeta.
  enough (Hmain : fst (elemRefs importResolveMap resolveImport srcRef mod_ registry)
                  = bound (snd (elemRefs importResolveMap resolveImport srcRef mod_ registry))
                  /\ Forall (child_event srcRef)
                       (snd (elemRefs importResolveMap resolveImport srcRef mod_ registry)))
    by (destruct Hmain; repeat split; assumption).
  unfold elemRefs. destruct srcRef as [pn expMod elem info|];
    [|split; [reflexivity|constructor]].
  set (srcRef := TextRef pn expMod elem info).
  pose proof (elemChildrenRefs_events (user_child srcRef) (elemTypeRefs elem) srcRef mod_) as Ht.
  cbv zeta in Ht.
  destruct (elemChildrenRefs importResolveMap resolveImport srcRef (elemTypeRefs elem)
              mod_ registry) as [tRefs evs2]. simpl in Ht.
  destruct Ht as [Ht1 Ht2].
  { apply Forall_forall. intros e He. right. now apply elemTypeRefs_spec. }
  assert (Hsame : forall evs, Forall (fun ev =>
            match ev with
            | Bind e' _ => user_child srcRef e'
            | ModuleLog m pos msg =>
                exists e', user_child srcRef e' /\ textExpMod srcRef = Some m /\
                  pos = ref_start e' /\ msg = "reference not found: " +:+ ref_name e'
            | Visit _ => False
            end) evs -> Forall (child_event srcRef) evs).
  { intros evs H. eapply Forall_impl; [exact H|]. intros [r|e r|m pos msg]; auto. }
  destruct elem as [f|s|v|a|m];
    try (simpl; split; [exact Ht1 | now apply Hsame]).
  set (userCalls := List.filter _ (calls f)).
  pose proof (elemChildrenRefs_events (user_child srcRef) userCalls srcRef mod_) as Hf.
  cbv zeta in Hf.
  destruct (elemChildrenRefs importResolveMap resolveImport srcRef userCalls mod_ registry)
    as [fnRefs evs1]. simpl in Hf.
  destruct Hf as [Hf1 Hf2].
  { apply Forall_forall. intros e He. left. exists f. split; [reflexivity|].
    subst userCalls. now apply userCalls_spec. }
  simpl. rewrite bound_app, Hf1, Ht1. split; [reflexivity|].
  apply Forall_app. split; now apply Hsame.
Qed.

(** *** The reference graph *)

Lemma find_first_named {A : Type} (name_of : A -> string) (n : string) (l : list A) x :
  List.find (fun y => String.eqb (name_of y) n) l = Some x <-> first_named name_of n l x.
Proof.
  split.
  - induction l as [|a l IH]; simpl; [discriminate|].
    destruct (String.eqb_spec (name_of a) n) as [Ha|Ha].
    + intros [= <-]. exists [], l. split; [reflexivity|]. split; [exact Ha|].
      intros y Hy. now apply elem_of_nil in Hy.
    + intros H. destruct (IH H) as (before & after & -> & Hx & Hb).
      exists (a :: before), after. split; [reflexivity|]. split; [exact Hx|].
      intros y Hy. apply elem_of_cons in Hy as [->|Hy]; auto.
  - intros (before & after & -> & Hx & Hb).
    induction before as [|a before IH]; simpl.
    + apply String.eqb_eq in Hx. now rewrite Hx.
    + assert (Ha : name_of a <> n) by (apply Hb; left).
      apply String.eqb_neq in Ha. rewrite Ha. apply IH.
      intros y Hy. apply Hb. now right.
Qed.

Lemma find_none_named {A : Type} (name_of : A -> string) (n : string) (l : list A) :
  List.find (fun y => String.eqb (name_of y) n) l = None <->
  forall y, y ∈ l -> name_of y <> n.
Proof.
  split.
  - intros H. pose proof (find_by_name name_of n l) as Hf. now rewrite H in Hf.
  - intros H. destruct (List.find _ l) as [x|] eqn:Hf; [|reflexivity].
    apply find_some in Hf as [Hin Hx]. apply String.eqb_eq in Hx.
    apply list_elem_of_In in Hin. now apply H in Hin.
Qed.

Lemma first_named_name {A : Type} (name_of : A -> string) n l x :
  first_named name_of n l x -> x ∈ l /\ name_of x = n.
Proof.
  intros (before & after & -> & Hx & _). split; [|exact Hx].
  apply elem_of_app. right. left.
Qed.

(** [localRef] gives the ref to what the name stands for among the
    declarations of the module. *)
Lemma localRef_first n M r :
  localRef n M = Some r <->
  exists e, first_declared M n e /\ r = TextRef (Some n) M e None.
Proof.
  unfold localRef, first_declared.
  destruct (List.find (fun fn => String.eqb (fn_name fn) n) (fns M)) as [f|] eqn:Hf.
  { apply find_first_named in Hf as Hfirst.
    destruct (first_named_name _ _ _ _ Hfirst) as [Hin Hn]. simpl. split.
    - intros [= <-]. exists (EFn f). rewrite Hn. split; [left; eauto|reflexivity].
    - intros (e & [(f' & -> & Hf')|[(Hno & _)|(Hno & _)]] & ->).
      + apply find_first_named in Hf'. rewrite Hf in Hf'. injection Hf' as <-.
        simpl. now rewrite Hn.
      + now apply Hno in Hin.
      + now apply Hno in Hin. }
  pose proof (proj1 (find_none_named _ _ _) Hf) as Hnof.
  destruct (List.find (fun s => String.eqb (struct_name s) n) (structs M)) as [st|] eqn:Hs.
  { apply find_first_named in Hs as Hfirst.
    destruct (first_named_name _ _ _ _ Hfirst) as [Hin Hn]. simpl. split.
    - intros [= <-]. exists (EStruct st). rewrite Hn.
      split; [right; left; eauto|reflexivity].
    - intros (e & [(f' & -> & Hf')|[(_ & s' & -> & Hs')|(_ & Hno & _)]] & ->).
      + apply find_first_named in Hf'. congruence.
      + apply find_first_named in Hs'. rewrite Hs in Hs'. injection Hs' as <-.
        simpl. now rewrite Hn.
      + now apply Hno in Hin. }
  pose proof (proj1 (find_none_named _ _ _) Hs) as Hnos.
  destruct (List.find (fun s => String.eqb (alias_name s) n) (aliases M)) as [al|] eqn:Ha.
  { apply find_first_named in Ha as Hfirst.
    destruct (first_named_name _ _ _ _ Hfirst) as [Hin Hn]. simpl. split.
    - intros [= <-]. exists (EAlias al). rewrite Hn.
      split; [right; right; eauto|reflexivity].
    - intros (e & [(f' & -> & Hf')|[(_ & s' & -> & Hs')|(_ & _ & a' & -> & Ha')]] & ->).
      + apply find_first_named in Hf'. congruence.
      + apply find_first_named in Hs'. congruence.
      + apply find_first_named in Ha'. rewrite Ha in Ha'. injection Ha' as <-.
        simpl. now rewrite Hn. }
  split; [discriminate|].
  intros (e & [(f' & -> & Hf')|[(_ & s' & -> & Hs')|(_ & _ & a' & -> & Ha')]] & _).
  - apply find_first_named in Hf'. congruence.
  - apply find_first_named in Hs'. congruence.
  - apply find_first_named in Ha'. congruence.
Qed.

Abbreviation denotes' := (denotes importResolveMap resolveImport registry).
Abbreviation refersTo' := (refersTo importResolveMap resolveImport registry).
Abbreviation reaches' := (reaches importResolveMap resolveImport registry).

Lemma linkedRef_denotes e srcRef M c :
  c ∈ fst (linkedRef importResolveMap resolveImport e srcRef M registry)
  <-> denotes' srcRef M (ref_name e) c.
Proof.
  clear refFullName.
  unfold linkedRef, denotes. pose proof (importArgRef_spec srcRef (ref_name e)) as Harg.
  destruct (truthy (importArgRef srcRef (ref_name e))).
  { simpl. split; [intros H; now apply elem_of_nil in H|].
    intros [Hnot _]. exfalso. apply Hnot. now apply Harg. }
  assert (Hnot : ~ is_export_param srcRef (ref_name e))
    by (intros Hp; apply Harg in Hp; discriminate).
  unfold importRef, importedRef.
  destruct (resolveImport (ref_name e) (importResolveMap registry M)) as [res|].
  { cbv zeta. destruct (modExp res); simpl; rewrite list_elem_of_singleton; tauto. }
  pose proof (localRef_first (ref_name e) M) as Hlocal.
  destruct (localRef (ref_name e) M) as [r|].
  - simpl. rewrite list_elem_of_singleton. split.
    + intros ->. split; [exact Hnot|]. now apply Hlocal.
    + intros [_ H]. apply Hlocal in H. congruence.
  - assert (Hnil : fst (match textExpMod srcRef with
                        | Some expMod =>
                            (@nil FoundRef,
                             [ModuleLog expMod (ref_start e)
                                ("reference not found: " +:+ ref_name e)])
                        | None => ([], [])
                        end) = []) by now destruct (textExpMod srcRef).
    rewrite Hnil. split; [intros H; now apply elem_of_nil in H|].
    intros [_ H]. apply Hlocal in H. discriminate.
Qed.

Lemma elemChildrenRefs_fst srcRef children M c :
  c ∈ fst (elemChildrenRefs importResolveMap resolveImport srcRef children M registry)
  <-> exists e, e ∈ children /\ denotes' srcRef M (ref_name e) c.
Proof.
  induction children as [|e0 children IH]; simpl.
  - split; [intros H; now apply elem_of_nil in H|].
    intros (e & He & _). now apply elem_of_nil in He.
  - pose proof (linkedRef_denotes e0 srcRef M c) as Hl.
    destruct (linkedRef importResolveMap resolveImport e0 srcRef M registry) as [rs evs].
    destruct (elemChildrenRefs importResolveMap resolveImport srcRef children M registry)
      as [rs' evs']. simpl in Hl, IH |- *. rewrite elem_of_app, Hl, IH. split.
    + intros [H|(e & He & H)]; [exists e0; split; [left|exact H]|].
      exists e. split; [now right|exact H].
    + intros (e & He & H). apply elem_of_cons in He as [->|He]; [now left|right; eauto].
Qed.

(** The refs that [elemRefs] returns are the refs that the element refers
    to: what its calls and type references to follow denote. *)
Lemma elemRefs_refersTo srcRef M c :
  c ∈ fst (elemRefs importResolveMap resolveImport srcRef M registry)
  <-> refersTo' srcRef M c.
Proof.
  clear refFullName.
  unfold elemRefs, refersTo. destruct srcRef as [pn expMod elem info|];
    [|simpl; split; [intros H; now apply elem_of_nil in H|tauto]].
  set (srcRef := TextRef pn expMod elem info).
  pose proof (elemChildrenRefs_fst srcRef (elemTypeRefs elem) M c) as Ht.
  destruct (elemChildrenRefs importResolveMap resolveImport srcRef (elemTypeRefs elem) M
              registry) as [tRefs evs2]. simpl in Ht.
  assert (Htypes : c ∈ tRefs <->
            exists e, (has_typeRef elem e /\ stdType (ref_name e) = false) /\
                      denotes' srcRef M (ref_name e) c).
  { rewrite Ht. split; intros (e & He & Hd); exists e; (split; [|exact Hd]);
      now apply elemTypeRefs_spec. }
  destruct elem as [f|st|v|al|m].
  2-5: simpl; rewrite Htypes; unfold refers; split;
       [ intros (e & He & Hd); exists e; split; [now right|exact Hd]
       | intros (e & [(f & [=] & _)|He] & Hd); exists e; split; assumption ].
  set (userCalls := List.filter _ (calls f)).
  pose proof (elemChildrenRefs_fst srcRef userCalls M c) as Hf.
  destruct (elemChildrenRefs importResolveMap resolveImport srcRef userCalls M registry)
    as [fnRefs evs1]. simpl in Hf. simpl. rewrite elem_of_app, Hf, Htypes.
  unfold refers. split.
  - intros [(e & He & Hd)|(e & He & Hd)]; exists e; (split; [|exact Hd]).
    + left. exists f. split; [reflexivity|]. subst userCalls. now apply userCalls_spec.
    + now right.
  - intros (e & [(f' & [= <-] & He)|He] & Hd).
    + left. exists e. split; [|exact Hd]. subst userCalls. now apply userCalls_spec.
    + right. exists e. split; assumption.
Qed.

Lemma rootRefs_root_decl srcModule r : r ∈ rootRefs srcModule <-> root_decl srcModule r.
Proof.
  unfold rootRefs, root_decl. rewrite list_elem_of_In, in_map_iff. split.
  - intros (elem & <- & Hin). exists elem. split; [reflexivity|].
    rewrite !in_app_iff, !in_map_iff in Hin. setoid_rewrite list_elem_of_In.
    destruct Hin as [(x & <- & Hx)|[(x & <- & Hx)|[(x & <- & Hx)|(x & <- & Hx)]]]; eauto 6.
  - intros (elem & -> & Hin). exists elem. split; [reflexivity|].
    rewrite !in_app_iff, !in_map_iff. setoid_rewrite list_elem_of_In in Hin.
    destruct Hin as [(x & -> & Hx)|[(x & -> & Hx)|[(x & -> & Hx)|(x & -> & Hx)]]]; eauto 6.
Qed.

(** The refs that lie on a path of the reference graph from a root
    declaration are the refs that the closure of [elemRefs] holds. *)
Lemma reachable_reaches srcModule r :
  reachable importResolveMap resolveImport srcModule registry r <-> reaches' srcModule r.
Proof.
  clear refFullName.
  split.
  - induction 1 as [r c Hr Hc|r expMod c Hr IH Hm Hc].
    + eapply reaches_root; [apply rootRefs_root_decl, Hr|now apply elemRefs_refersTo].
    + eapply reaches_step; [exact IH|exact Hm|now apply elemRefs_refersTo].
  - induction 1 as [r c Hr Hc|r expMod c Hr IH Hm Hc].
    + eapply reachable_root; [apply rootRefs_root_decl, Hr|now apply elemRefs_refersTo].
    + eapply reachable_step; [exact IH|exact Hm|now apply elemRefs_refersTo].
Qed.

(** *** Only reachable refs are visited *)

Section Closed.
Variable Q : FoundRef -> Prop.
Hypothesis Q_closed : forall r expMod c,
  Q r -> textExpMod r = Some expMod ->
  c ∈ fst (elemRefs importResolveMap resolveImport r expMod registry) -> Q c.


End Closed.
(** *** Every reachable name is visited *)

Lemma addToGroup_complete {K V : Type} `{EqDecision K} (k : K) (v : V) groups :
  (exists vs, (k, vs) ∈ addToGroup k v groups /\ v ∈ vs) /\
  (forall k' v' vs', (k', vs') ∈ groups -> v' ∈ vs' ->
     exists vs, (k', vs) ∈ addToGroup k v groups /\ v' ∈ vs).
Proof.
  induction groups as [|[k0 vs0] groups [IH1 IH2]]; simpl.
  - split; [exists [v]; split; left|]. intros k' v' vs' H. now apply elem_of_nil in H.
  - destruct (decide (k0 = k)) as [->|Hne].
    + split.
      * exists (vs0 ++ [v]). split; [left|]. apply elem_of_app. right. left.
      * intros k' v' vs' Hin Hv. apply elem_of_cons in Hin as [[= -> ->]|Hin].
        -- exists (vs0 ++ [v]). split; [left|]. apply elem_of_app. now left.
        -- exists vs'. split; [now right|exact Hv].
    + split.
      * destruct IH1 as (vs & Hvs & Hv). exists vs. split; [now right|exact Hv].
      * intros k' v' vs' Hin Hv. apply elem_of_cons in Hin as [[= -> ->]|Hin].
        -- exists vs0. split; [left|exact Hv].
        -- destruct (IH2 k' v' vs' Hin Hv) as (vs & Hvs & Hv'). exists vs.
           split; [now right|exact Hv'].
Qed.

Lemma groupBy_complete {K V : Type} `{EqDecision K} (a : list V) (key : V -> option K) v k :
  v ∈ a -> key v = Some k -> exists vs, (k, vs) ∈ groupBy a key /\ v ∈ vs.
Proof.
  unfold groupBy.
  assert (Hgen : forall l groups,
    (v ∈ l \/ exists vs, (k, vs) ∈ groups /\ v ∈ vs) ->
    key v = Some k ->
    exists vs, (k, vs) ∈ fold_left (fun groups v => match key v with
                                                    | Some k => addToGroup k v groups
                                                    | None => groups
                                                    end) l groups /\ v ∈ vs).
  { induction l as [|x l IH]; intros groups Hv Hk; simpl.
    - destruct Hv as [Hv|Hv]; [now apply elem_of_nil in Hv|exact Hv].
    - apply IH; [|exact Hk]. destruct Hv as [Hv|(vs & Hvs & Hv)].
      + apply elem_of_cons in Hv as [<-|Hv]; [|now left]. right. rewrite Hk.
        apply (addToGroup_complete k v groups).
      + right. destruct (key x) as [kx|]; [|eauto].
        apply (proj2 (addToGroup_complete kx x groups) k v vs Hvs Hv). }
  intros Hv Hk. apply Hgen; auto.
Qed.

Lemma filterEach_all_seen refs st kept st' :
  filterEach refFullName refs st = (kept, st') ->
  forall r, r ∈ refs -> refFullName r ∈ seen st'.
Proof.
  revert st kept st'. induction refs as [|r0 refs IH]; intros st kept st' H r Hr.
  - now apply elem_of_nil in Hr.
  - simpl in H. unfold eachRef in H. simpl in H.
    destruct (bool_decide_reflect (refFullName r0 ∈ seen st)) as [Hseen|Hseen];
      destruct (filterEach refFullName refs _) as [kept1 st2] eqn:Hf;
      injection H as <- <-;
      (apply elem_of_cons in Hr as [->|Hr]; [|now apply (IH _ _ _ Hf)]);
      apply filterEach_seen in Hf; rewrite Hf; simpl; apply elem_of_app; left.
    + exact Hseen.
    + apply elem_of_app. right. left.
Qed.

Section Complete.
Variable Q : FoundRef -> Prop.
Hypothesis Q_closed : forall r expMod c,
  Q r -> textExpMod r = Some expMod ->
  c ∈ fst (elemRefs importResolveMap resolveImport r expMod registry) -> Q c.
Hypothesis Q_agree : names_agree importResolveMap resolveImport refFullName registry Q.

Abbreviation children' := (children importResolveMap resolveImport registry).
Abbreviation closed' := (closed_name importResolveMap resolveImport refFullName registry Q).

Lemma closed_name_mono n (a b : list string) :
  (forall x, x ∈ a -> x ∈ b) -> closed' n a -> closed' n b.
Proof. intros Hab Hc r HQ Hn c Hcr. apply Hab. eapply Hc; eassumption. Qed.

Lemma recursiveRefs_closes fuel : forall refs st st',
  Forall Q refs ->
  recursiveRefs importResolveMap resolveImport refFullName fuel refs registry st = Some st' ->
  (forall n, n ∈ seen st -> n ∈ seen st') /\
  (forall r, r ∈ refs -> refFullName r ∈ seen st') /\
  (forall n, n ∈ seen st' -> n ∈ seen st \/ closed' n (seen st')).
Proof.
  induction fuel as [|fuel IH]; intros refs st st' HQ H; [discriminate|].
  rewrite recursiveRefs_unfold in H.
  destruct (filterEach refFullName refs st) as [filtered st1] eqn:Hf.
  pose proof (filterEach_seen refFullName _ _ _ _ Hf) as Hseen1.
  pose proof (filterEach_all_seen _ _ _ _ Hf) as Hall1.
  destruct (filterEach_spec refFullName (map refFullName refs) _ _ _ _ Hf)
    as (_ & Hk & _).
  { apply Forall_forall. intros r Hr. apply list_elem_of_In. apply in_map.
    now apply list_elem_of_In. }
  pose proof (groupBy_spec (textRefs filtered) textExpMod) as Hgroups.
  assert (HQgroups : Forall (fun '(k, vs) =>
            Forall (fun v => Q v /\ textExpMod v = Some k) vs)
            (groupBy (textRefs filtered) textExpMod)).
  { eapply Forall_impl; [exact Hgroups|]. intros [k vs] [_ Hvs].
    eapply Forall_impl; [exact Hvs|]. intros v [Hv Hkey]. split; [|assumption].
    unfold textRefs in Hv. apply list_elem_of_In, filter_In in Hv as [Hv _].
    apply list_elem_of_In in Hv. rewrite Forall_forall in Hk, HQ. auto. }
  (* the groups, worked off in order *)
  assert (Hfold : forall groups st2,
    Forall (fun '(k, vs) => Forall (fun v => Q v /\ textExpMod v = Some k) vs) groups ->
    fold_left (eachGroup importResolveMap resolveImport refFullName registry fuel)
      groups (Some st2) = Some st' ->
    (forall n, n ∈ seen st2 -> n ∈ seen st') /\
    (forall k vs v c, (k, vs) ∈ groups -> v ∈ vs -> c ∈ children' v ->
       refFullName c ∈ seen st') /\
    (forall n, n ∈ seen st' -> n ∈ seen st2 \/ closed' n (seen st'))).
  { clear -IH Q_closed. induction groups as [|[mod_ rs] groups IHg]; intros st2 Hok Hrun;
      simpl in Hrun.
    - injection Hrun as <-. split; [auto|]. split; [|auto].
      intros k vs v c Hin. now apply elem_of_nil in Hin.
    - apply Forall_cons in Hok as [Hrs Hrest].
      destruct rs as [|r0 rs0].
      { destruct (IHg st2 Hrest Hrun) as (H1 & H2 & H3). split; [exact H1|].
        split; [|exact H3]. intros k vs v c Hin Hv.
        apply elem_of_cons in Hin as [[= -> ->]|Hin]; [now apply elem_of_nil in Hv|].
        now apply (H2 k vs v c). }
      pose proof (elemRefsAll_refs importResolveMap resolveImport registry
                    (r0 :: rs0) mod_) as Hrefs.
      destruct (elemRefsAll importResolveMap resolveImport (r0 :: rs0) mod_ registry)
        as [childRefs evs].
      simpl fst in Hrefs.
      destruct (recursiveRefs importResolveMap resolveImport refFullName fuel childRefs
                  registry (emit evs st2)) as [st3|] eqn:Hrec;
        [|now rewrite fold_eachGroup_None in Hrun].
      assert (HQc : Forall Q childRefs).
      { rewrite Hrefs. apply Forall_forall. intros c Hc.
        apply list_elem_of_In, in_flat_map in Hc as (r & Hr & Hcr).
        apply list_elem_of_In in Hr, Hcr. rewrite Forall_forall in Hrs.
        destruct (Hrs r Hr) as [HQr Hkey]. eapply Q_closed; eassumption. }
      destruct (IH _ _ _ HQc Hrec) as (A1 & A2 & A3). simpl in A1, A3.
      destruct (IHg st3 Hrest Hrun) as (B1 & B2 & B3).
      split; [auto|]. split.
      + intros k vs v c Hin Hv Hc.
        apply elem_of_cons in Hin as [[= -> ->]|Hin]; [|now apply (B2 k vs v c)].
        apply B1, A2. rewrite Hrefs. apply list_elem_of_In, in_flat_map.
        exists v. split; [now apply list_elem_of_In|]. apply list_elem_of_In.
        rewrite Forall_forall in Hrs. destruct (Hrs v Hv) as [_ Hkey].
        unfold children in Hc. now rewrite Hkey in Hc.
      + intros n Hn. destruct (B3 n Hn) as [Hn3|Hcl]; [|now right].
        destruct (A3 n Hn3) as [Hn2|Hcl]; [now left|right].
        eapply closed_name_mono; [exact B1|exact Hcl]. }
  destruct (Hfold _ st1 HQgroups H) as (F1 & F2 & F3).
  split; [|split].
  - intros n Hn. apply F1. rewrite Hseen1. apply elem_of_app. now left.
  - intros r Hr. apply F1. now apply Hall1.
  - intros n Hn. destruct (F3 n Hn) as [Hn1|Hcl]; [|now right].
    rewrite Hseen1 in Hn1. apply elem_of_app in Hn1 as [Hn0|Hnew]; [now left|right].
    apply list_elem_of_In, in_map_iff in Hnew as (f & Hnf & Hfin).
    apply list_elem_of_In in Hfin.
    assert (HQf : Q f) by (rewrite Forall_forall in Hk, HQ; auto).
    intros r HQr Hnr c Hc.
    pose proof (Q_agree r f HQr HQf ltac:(congruence) c Hc) as Hagree.
    apply list_elem_of_In, in_map_iff in Hagree as (c' & Hnc & Hc').
    apply list_elem_of_In in Hc'. rewrite <- Hnc.
    destruct (textExpMod f) as [k|] eqn:Hkf.
    2:{ unfold children in Hc'. rewrite Hkf in Hc'. now apply elem_of_nil in Hc'. }
    destruct (groupBy_complete (textRefs filtered) textExpMod f k) as (vs & Hvs & Hfv).
    + unfold textRefs. apply list_elem_of_In, filter_In. split; [now apply list_elem_of_In|].
      destruct f; [reflexivity|discriminate].
    + exact Hkf.
    + apply (F2 k vs f c' Hvs Hfv Hc').
Qed.

(** Every name in the set was the full name of a ref handed to the
    callback. *)
Lemma recursiveRefs_seen_visited fuel : forall refs st st',
  recursiveRefs importResolveMap resolveImport refFullName fuel refs registry st = Some st' ->
  (forall n, n ∈ seen st -> n ∈ map refFullName (visits (trace st))) ->
  forall n, n ∈ seen st' -> n ∈ map refFullName (visits (trace st')).
Proof.
  induction fuel as [|fuel IH]; intros refs st st' H Hst; [discriminate|].
  rewrite recursiveRefs_unfold in H.
  destruct (filterEach refFullName refs st) as [filtered st1] eqn:Hf.
  pose proof (filterEach_seen refFullName _ _ _ _ Hf) as Hseen1.
  pose proof (filterEach_trace refFullName _ _ _ _ Hf) as Htrace1.
  destruct (filterEach_spec refFullName (map refFullName refs) _ _ _ _ Hf)
    as (_ & Hk & _).
  { apply Forall_forall. intros r Hr. apply list_elem_of_In. apply in_map.
    now apply list_elem_of_In. }
  assert (Hst1 : forall n, n ∈ seen st1 -> n ∈ map refFullName (visits (trace st1))).
  { intros n Hn. rewrite Htrace1, visits_app, visits_map_Visit, map_app.
    rewrite Hseen1 in Hn. apply elem_of_app in Hn as [Hn|Hn]; apply elem_of_app.
    - left. now apply Hst.
    - right. apply list_elem_of_In, in_map_iff in Hn as (f & <- & Hfin).
      apply list_elem_of_In, in_map. apply list_elem_of_In.
      rewrite Forall_forall in Hk. apply Hk. now apply list_elem_of_In. }
  clear Hf Hseen1 Htrace1 Hk Hst.
  revert st1 H Hst1.
  induction (groupBy (textRefs filtered) textExpMod) as [|[mod_ rs] groups IHg];
    intros st1 H Hst1; simpl in H.
  - now injection H as <-.
  - destruct rs as [|r0 rs0]; [now apply (IHg st1)|].
    destruct (elemRefsAll importResolveMap resolveImport (r0 :: rs0) mod_ registry)
      as [childRefs evs].
    destruct (recursiveRefs importResolveMap resolveImport refFullName fuel childRefs
                registry (emit evs st1)) as [st3|] eqn:Hrec;
      [|now rewrite fold_eachGroup_None in H].
    apply (IHg st3 H). apply (IH _ _ _ Hrec). simpl.
    intros n Hn. rewrite visits_app, map_app. apply elem_of_app. left. now apply Hst1.
Qed.

End Complete.
End Events.

(** A call to the built-in function insertBits, which the list [stdFns]
    does not hold, is looked up like a call to a fn of the user and reported
    as not found. *)
Lemma elemRefs_insertBits_not_found :
  elemRefs exampleResolveMap exampleResolveImport
    (localFn callsInsertBits (fnOf "f" 0 [callTo "insertBits" 17])) callsInsertBits []
  = ([], [ModuleLog callsInsertBits 17 "reference not found: insertBits"]).
Proof. reflexivity. Qed.



(** When refs in the closure of [elemRefs] that have the same full name
    have children with the same full names, and [traverseRefs] ends, the
    full name of every ref in the closure is in the set of seen names and
    was the full name of a ref handed to the visit callback. *)
Lemma traverseRefs_sees_closure {ParsedRegistry : Type}
    (importResolveMap : ParsedRegistry -> TextModule -> ResolveMap)
    (resolveImport : string -> ResolveMap -> option ResolvedExport)
    (refFullName : FoundRef -> string)
    (fuel : nat) (srcModule : TextModule) (registry : ParsedRegistry) (st : Traversal) :
  names_agree importResolveMap resolveImport refFullName registry
    (reachable importResolveMap resolveImport srcModule registry) ->
  traverseRefs importResolveMap resolveImport refFullName fuel srcModule registry = Some st ->
  forall r, reachable importResolveMap resolveImport srcModule registry r ->
    refFullName r ∈ seen st /\
    refFullName r ∈ map refFullName (visits (trace st)).
Proof.
  intros Hagree. unfold traverseRefs.
  destruct (rootRefs srcModule) as [|r0 roots] eqn:Hroots.
  { intros _ r Hr. exfalso. clear -Hr Hroots.
    induction Hr as [r c Hr _|]; [|assumption]. rewrite Hroots in Hr.
    now apply elem_of_nil in Hr. }
  pose proof (elemRefsAll_refs importResolveMap resolveImport registry
                (textRefs (r0 :: roots)) srcModule) as Hrefs.
  destruct (elemRefsAll importResolveMap resolveImport (textRefs (r0 :: roots))
              srcModule registry) as [childRefs evs].
  simpl fst in Hrefs. intros Hrun.
  assert (Hclosed : forall r expMod c,
            reachable importResolveMap resolveImport srcModule registry r ->
            textExpMod r = Some expMod ->
            c ∈ fst (elemRefs importResolveMap resolveImport r expMod registry) ->
            reachable importResolveMap resolveImport srcModule registry c).
  { intros r expMod c Hr Hm Hc. eapply reachable_step; eassumption. }
  assert (Hroot : forall r c, r ∈ rootRefs srcModule ->
            c ∈ fst (elemRefs importResolveMap resolveImport r srcModule registry) ->
            c ∈ childRefs).
  { intros r c Hr Hc. rewrite Hrefs. apply list_elem_of_In, in_flat_map.
    exists r. split; [|now apply list_elem_of_In].
    unfold textRefs. apply filter_In. rewrite <- Hroots.
    split; [now apply list_elem_of_In|].
    unfold rootRefs in Hr. apply list_elem_of_In, in_map_iff in Hr as (e & <- & _).
    reflexivity. }
  assert (HQc : Forall (reachable importResolveMap resolveImport srcModule registry)
                  childRefs).
  { rewrite Hrefs. apply Forall_forall. intros c Hc.
    apply list_elem_of_In, in_flat_map in Hc as (r & Hr & Hcr).
    unfold textRefs in Hr. apply filter_In in Hr as [Hr _].
    apply list_elem_of_In in Hr, Hcr.
    eapply reachable_root; [rewrite Hroots; exact Hr | exact Hcr]. }
  destruct (recursiveRefs_closes importResolveMap resolveImport refFullName registry
              _ Hclosed Hagree fuel childRefs _ st HQc Hrun) as (_ & C2 & C3).
  assert (Hseen : forall r,
            reachable importResolveMap resolveImport srcModule registry r ->
            refFullName r ∈ seen st).
  { intros r Hr. induction Hr as [r c Hr Hc|r expMod c Hr IH Hm Hc].
    - apply C2. eapply Hroot; eassumption.
    - destruct (C3 _ IH) as [Hnil|Hcl]; [now apply elem_of_nil in Hnil|].
      apply (Hcl r Hr eq_refl c). unfold children. now rewrite Hm. }
  intros r Hr. split; [now apply Hseen|].
  eapply (recursiveRefs_seen_visited importResolveMap resolveImport refFullName registry
            fuel childRefs _ st Hrun); [|now apply Hseen].
  intros n Hn. now apply elem_of_nil in Hn.
Qed.

Lemma varOfStruct_reachable r :
  reachable exampleResolveMap exampleResolveImport varOfStruct [] r ->
  r = TextRef (Some "S") varOfStruct (EStruct structS) None \/
  r = TextRef (Some "P") varOfStruct (EStruct structP) None.
Proof.
  induction 1 as [r c Hr Hc|r expMod c Hr IH Hm Hc].
  - apply list_elem_of_In in Hr. simpl in Hr.
    destruct Hr as [<-|[<-|[<-|[]]]]; apply list_elem_of_In in Hc; vm_compute in Hc;
      try contradiction; destruct Hc as [<-|[]]; auto.
  - destruct IH as [-> | ->]; injection Hm as <-;
      apply list_elem_of_In in Hc; vm_compute in Hc;
      try contradiction; destruct Hc as [<-|[]]; auto.
Qed.

(** The traversal misses nothing.  The reference graph has an edge from a
    text ref to every ref that a call or a type reference of its element
    denotes: the calls of a fn, the type references of a fn, var, alias or
    struct member, and the type references of the members of a struct, left
    out those to a name on the lists [stdFns] and [stdTypes] and a fn's calls
    to itself.  When refs of the graph with the same full name refer to refs
    with the same full names, and [traverseRefs] ends, the full name of
    every ref on a path from a declaration of the root module is in the set
    of seen names and was the full name of a ref handed to the visit
    callback. *)
Theorem traverseRefs_visits_every_reachable_name {ParsedRegistry : Type}
    (importResolveMap : ParsedRegistry -> TextModule -> ResolveMap)
    (resolveImport : string -> ResolveMap -> option ResolvedExport)
    (refFullName : FoundRef -> string)
    (fuel : nat) (srcModule : TextModule) (registry : ParsedRegistry) (st : Traversal) :
  refs_agree importResolveMap resolveImport refFullName registry srcModule ->
  traverseRefs importResolveMap resolveImport refFullName fuel srcModule registry = Some st ->
  forall r, reaches importResolveMap resolveImport registry srcModule r ->
    refFullName r ∈ seen st /\
    refFullName r ∈ map refFullName (visits (trace st)).
Proof.
  intros Hagree Hrun r Hr.
  apply (traverseRefs_sees_closure importResolveMap resolveImport refFullName fuel
           srcModule registry st); [|exact Hrun|now apply reachable_reaches].
  intros a a' Ha Ha' Hn c Hc. unfold children in Hc.
  destruct (textExpMod a) as [M|] eqn:HM; [|now apply elem_of_nil in Hc].
  apply elemRefs_refersTo in Hc. apply reachable_reaches in Ha, Ha'.
  destruct (Hagree a a' M c Ha Ha' Hn HM Hc) as (M' & c' & HM' & Hc' & Hname).
  unfold children. rewrite HM', <- Hname.
  apply list_elem_of_In, in_map, list_elem_of_In. now apply elemRefs_refersTo.
Qed.

(** The theorem at [struct S { p: P } struct P { x: u32 } var v: S;], for
    the struct P, which the var reaches through the type of a member of its
    type. *)
Lemma traverseRefs_visits_every_reachable_name_witness :
  let st := default {| seen := []; trace := [] |}
              (traverseRefs exampleResolveMap exampleResolveImport exampleFullName
                 3 varOfStruct []) in
  let p := TextRef (Some "P") varOfStruct (EStruct structP) None in
  exampleFullName p ∈ seen st /\
  exampleFullName p ∈ map exampleFullName (visits (trace st)).
Proof.
  apply (traverseRefs_visits_every_reachable_name exampleResolveMap exampleResolveImport
           exampleFullName 3 varOfStruct []).
  - intros r r' M c Hr Hr' Hn HM Hc. exists M, c.
    apply reachable_reaches in Hr, Hr'.
    apply varOfStruct_reachable in Hr as [-> | ->];
      apply varOfStruct_reachable in Hr' as [-> | ->];
      try discriminate; auto.
  - vm_compute. reflexivity.
  - apply reachable_reaches.
    apply (reachable_step _ _ _ _
             (TextRef (Some "S") varOfStruct (EStruct structS) None) varOfStruct).
    + apply (reachable_root _ _ _ _ (TextRef (Some "v") varOfStruct (EVar varV) None)).
      * apply list_elem_of_In. vm_compute. auto.
      * apply list_elem_of_In. vm_compute. now left.
    + reflexivity.
    + apply list_elem_of_In. vm_compute. now left.
Defined.

End TraverseRefsMoreFacts.
